(** * Recipe API: the query-filter translation layer

    A shallow embedding of [backend/src/controllers/recipeController.js]
    ([parseNumericFilter], [getRecipes], [searchRecipes], [addRecipe]) and
    of [backend/src/utils/parser.js] ([loadRecipes]), with the properties
    the specification states about them. [getRecipes] is embedded
    twice: as a function of the request, and as a computation on a heap
    of objects, for what a call leaves behind. *)

From Stdlib Require Import ZArith NArith QArith Qpower Ascii String.
From Stdlib Require Import Lia Lqa.
From stdpp Require Import gmap list.

Local Open Scope Z_scope.
Local Set Warnings "-register-all".

(** ** JavaScript strings

    A JavaScript string is a sequence of UTF-16 code units. *)

Definition jsstring : Type := list N.

Definition js (s : string) : jsstring :=
  List.map N_of_ascii (list_ascii_of_string s).

(** [\s] of a regular expression, which is also the white space that
    [parseInt] and [parseFloat] skip: WhiteSpace and LineTerminator. *)
Definition is_space (c : N) : bool :=
  ((9 <=? c) && (c <=? 13) || (c =? 32) || (c =? 160) || (c =? 5760)
   || (8192 <=? c) && (c <=? 8202) || (c =? 8232) || (c =? 8233)
   || (c =? 8239) || (c =? 8287) || (c =? 12288) || (c =? 65279))%N.

(** [\d]: the ten ASCII digits. *)
Definition is_digit (c : N) : bool := ((48 <=? c) && (c <=? 57))%N.

Definition digit_val (c : N) : Z := Z.of_N c - 48.

(** The mathematical value of a run of decimal digits. *)
Definition digits_val (ds : jsstring) : Z :=
  fold_left (fun acc c => 10 * acc + digit_val c) ds 0.

(** ** Numbers

    A Number is an IEEE-754 binary64 value: NaN, an infinity, or a
    finite [(-1)^neg * m * 2^e] with [0 <= m < 2^53] and
    [-1074 <= e <= 971]; [m < 2^52] only when [e = -1074]. *)

Inductive number : Type :=
| NaN
| Inf (neg : bool)
| Fin (neg : bool) (m e : Z).

Global Instance number_eq_dec : EqDecision number.
Proof. solve_decision. Defined.

Definition emin : Z := -1074.
Definition emax : Z := 971.

(** floor (log2 (n / d)) for positive [n] and [d]. *)
Definition ilog2_ratio (n d : Z) : Z :=
  let l := Z.log2 n - Z.log2 d in
  if (if 0 <=? l then d * 2 ^ l <=? n else d <=? n * 2 ^ (- l))
  then l else l - 1.

(** The integer nearest to [num / den], ties to the even one. *)
Definition round_half_even (num den : Z) : Z :=
  let q := num / den in
  match 2 * (num mod den) ?= den with
  | Lt => q
  | Gt => q + 1
  | Eq => if Z.even q then q else q + 1
  end.

(** The Number value for the rational [n / d] ([0 <= n], [0 < d]) with
    sign [neg]: round to nearest, ties to even, overflow to infinity. *)
Definition binary64 (neg : bool) (n d : Z) : number :=
  if n =? 0 then Fin neg 0 emin
  else
    let e := Z.max (ilog2_ratio n d - 52) emin in
    let m := if 0 <=? e then round_half_even n (d * 2 ^ e)
             else round_half_even (n * 2 ^ (- e)) d in
    let e' := if m =? 2 ^ 53 then e + 1 else e in
    let m' := if m =? 2 ^ 53 then 2 ^ 52 else m in
    if emax <? e' then Inf neg else Fin neg m' e'.

(** The Number value of an integer, as a numeric literal of the source
    denotes it. *)
Definition num (z : Z) : number := binary64 (z <? 0) (Z.abs z) 1.

(** ToBoolean on a Number: zero and NaN are falsy. *)
Definition truthy_number (x : number) : bool :=
  match x with
  | NaN => false
  | Inf _ => true
  | Fin _ m _ => negb (m =? 0)
  end.

Definition isNaN (x : number) : bool :=
  match x with NaN => true | _ => false end.

(** The rational a finite Number stands for. *)
Definition value_of (neg : bool) (m e : Z) : Q :=
  ((if neg then - inject_Z m else inject_Z m) * 2 ^ e)%Q.

(** [x] is finite and stands for exactly the rational [q]. *)
Definition denotes (x : number) (q : Q) : Prop :=
  match x with
  | Fin neg m e => (value_of neg m e == q)%Q
  | _ => False
  end.

(** Comparison of two Numbers, [None] when either is NaN. *)
Definition signed_mantissa (neg : bool) (m : Z) : Z := if neg then - m else m.

Definition number_compare (x y : number) : option comparison :=
  match x, y with
  | NaN, _ | _, NaN => None
  | Inf nx, Inf ny =>
      Some (if nx then (if ny then Eq else Lt) else (if ny then Gt else Eq))
  | Inf nx, Fin _ _ _ => Some (if nx then Lt else Gt)
  | Fin _ _ _, Inf ny => Some (if ny then Gt else Lt)
  | Fin nx mx ex, Fin ny my ey =>
      let e := Z.min ex ey in
      Some (signed_mantissa nx mx * 2 ^ (ex - e)
            ?= signed_mantissa ny my * 2 ^ (ey - e))
  end.

(** ** String built-ins used by the controller *)

(** The longest prefix whose code units satisfy [p], and the rest. *)
Fixpoint span (p : N -> bool) (s : jsstring) : jsstring * jsstring :=
  match s with
  | c :: s' =>
      if p c then let '(a, b) := span p s' in (c :: a, b) else ([], s)
  | [] => ([], [])
  end.

Definition hex_val (c : N) : option Z :=
  if is_digit c then Some (Z.of_N c - 48)
  else if ((97 <=? c) && (c <=? 102))%N then Some (Z.of_N c - 87)
  else if ((65 <=? c) && (c <=? 70))%N then Some (Z.of_N c - 55)
  else None.

Definition is_hex (c : N) : bool :=
  match hex_val c with Some _ => true | None => false end.

Definition hex_digits_val (ds : jsstring) : Z :=
  fold_left (fun acc c => 16 * acc + default 0 (hex_val c)) ds 0.

(** An optional leading sign: [-] is 45 and [+] is 43. *)
Definition strip_sign (s : jsstring) : bool * jsstring :=
  match s with
  | c :: t => if (c =? 45)%N then (true, t)
              else if (c =? 43)%N then (false, t) else (false, s)
  | [] => (false, [])
  end.

(** [parseInt(s)] on a string, the radix left out: white space is
    skipped, then a sign, then a [0x] or [0X] prefix selects radix 16;
    the digits up to the first other code unit are the value. *)
Definition parseInt_string (s : jsstring) : number :=
  let s1 := (span is_space s).2 in
  let '(neg, s2) := strip_sign s1 in
  let hex := match s2 with
             | c0 :: c1 :: _ => ((c0 =? 48) && ((c1 =? 120) || (c1 =? 88)))%N
             | _ => false
             end in
  if hex then
    match (span is_hex (drop 2 s2)).1 with
    | [] => NaN
    | z => binary64 neg (hex_digits_val z) 1
    end
  else
    match (span is_digit s2).1 with
    | [] => NaN
    | z => binary64 neg (digits_val z) 1
    end.

(** Whether [p] is a prefix of [s]. *)
Fixpoint starts_with (p s : jsstring) : bool :=
  match p, s with
  | [], _ => true
  | a :: p', b :: s' => (a =? b)%N && starts_with p' s'
  | _ :: _, [] => false
  end.

(** The exponent part [e], [e+] or [e-] followed by digits; 0 when
    there is none. *)
Definition exponent_part (s : jsstring) : Z :=
  match s with
  | c :: t =>
      if ((c =? 101) || (c =? 69))%N then
        let '(neg, t') := strip_sign t in
        match (span is_digit t').1 with
        | [] => 0
        | ds => if neg then - digits_val ds else digits_val ds
        end
      else 0
  | [] => 0
  end.

(** [parseFloat(s)]: white space is skipped and the longest prefix that
    is a decimal literal (sign, [Infinity], digits, fraction, exponent)
    is read; its value is rounded to the nearest Number. *)
Definition parseFloat (s : jsstring) : number :=
  let s1 := (span is_space s).2 in
  let '(neg, s2) := strip_sign s1 in
  if starts_with (js "Infinity") s2 then Inf neg
  else
    let '(ip, r1) := span is_digit s2 in
    let '(fp, r2) := match r1 with
                     | c :: t => if (c =? 46)%N then span is_digit t
                                 else ([], r1)
                     | [] => ([], r1)
                     end in
    match ip ++ fp with
    | [] => NaN
    | ds =>
        let t := exponent_part r2 - Z.of_nat (length fp) in
        if 0 <=? t then binary64 neg (digits_val ds * 10 ^ t) 1
        else binary64 neg (digits_val ds) (10 ^ (- t))
    end.

(** [s.split(sep)] for a separator of one code unit. *)
Fixpoint split_on (sep : N) (s : jsstring) : list jsstring :=
  match s with
  | [] => [[]]
  | c :: s' =>
      if (c =? sep)%N then [] :: split_on sep s'
      else match split_on sep s' with
           | t :: ts => (c :: t) :: ts
           | [] => [[c]]
           end
  end.

(** ** Regular expressions

    The fragment of JavaScript regular expressions the controller uses,
    with the backtracking semantics of the language: alternatives are
    tried left to right, quantifiers are greedy, an iteration of a
    quantifier that consumes nothing is rejected, and the captures of
    the groups inside a quantified atom are cleared when an iteration
    starts. *)

Inductive regex : Type :=
| Eps
| Chr (c : N)
| Cls (p : N -> bool)
| Seq (r1 r2 : regex)
| Alt (r1 r2 : regex)
| Opt (r : regex)
| Star (r : regex)
| Group (i : nat) (r : regex)
| Bol
| Eol.

Definition Plus (r : regex) : regex := Seq r (Star r).

Fixpoint Lit (s : jsstring) : regex :=
  match s with
  | [] => Eps
  | c :: s' => Seq (Chr c) (Lit s')
  end.

Fixpoint groups (r : regex) : list nat :=
  match r with
  | Seq r1 r2 | Alt r1 r2 => groups r1 ++ groups r2
  | Opt r1 | Star r1 => groups r1
  | Group i r1 => i :: groups r1
  | _ => []
  end.

Definition clear (gs : list nat) (c : gmap nat jsstring) : gmap nat jsstring :=
  foldr delete c gs.

Definition orelse {A} (x y : option A) : option A :=
  match x with Some _ => x | None => y end.

(** A continuation of the matcher: what is left to match after the
    index, the rest of the input and the captures reached. *)
Definition cont : Type :=
  nat -> jsstring -> gmap nat jsstring -> option (gmap nat jsstring).

(** The iterations of a greedy quantifier without an upper bound: one
    more iteration of [step] is tried first, then the continuation. An
    iteration has to consume input, so [fuel], the length of the input
    left, bounds the number of iterations. *)
Fixpoint star_loop (step : nat -> jsstring -> gmap nat jsstring -> cont ->
                           option (gmap nat jsstring))
    (k : cont) (fuel : nat) (i : nat) (s : jsstring) (c : gmap nat jsstring)
    : option (gmap nat jsstring) :=
  match fuel with
  | O => k i s c
  | S fuel' =>
      orelse
        (step i s c
           (fun i' s' c' =>
              if (length s' <? length s)%nat
              then star_loop step k fuel' i' s' c' else None))
        (k i s c)
  end.

(** [rmatch r i s c k]: match [r] at index [i], where [s] is the input
    from [i] on and [c] the captures so far, then continue with [k];
    [None] is failure, which makes the caller try its next choice. *)
Fixpoint rmatch (r : regex) (i : nat) (s : jsstring) (c : gmap nat jsstring)
    (k : cont) : option (gmap nat jsstring) :=
  match r with
  | Eps => k i s c
  | Chr a =>
      match s with
      | x :: s' => if (x =? a)%N then k (S i) s' c else None
      | [] => None
      end
  | Cls p =>
      match s with
      | x :: s' => if p x then k (S i) s' c else None
      | [] => None
      end
  | Seq r1 r2 => rmatch r1 i s c (fun i' s' c' => rmatch r2 i' s' c' k)
  | Alt r1 r2 => orelse (rmatch r1 i s c k) (rmatch r2 i s c k)
  | Opt r1 =>
      orelse
        (rmatch r1 i s (clear (groups r1) c)
           (fun i' s' c' =>
              if (length s' <? length s)%nat then k i' s' c' else None))
        (k i s c)
  | Star r1 =>
      star_loop (fun i' s' c' k' => rmatch r1 i' s' (clear (groups r1) c') k')
        k (length s) i s c
  | Group n r1 =>
      rmatch r1 i s c (fun i' s' c' => k i' s' (<[n := take (i' - i) s]> c'))
  | Bol => if (i =? 0)%nat then k i s c else None
  | Eol => match s with [] => k i s c | _ :: _ => None end
  end.

(** [RegExp.prototype.exec] without the [g] and [y] flags: the first
    start index, from 0 on, at which the pattern matches. Capture 0 is
    the whole match. *)
Fixpoint exec_from (r : regex) (i : nat) (s : jsstring)
    : option (gmap nat jsstring) :=
  orelse
    (rmatch r i s ∅ (fun i' _ c => Some (<[O := take (i' - i) s]> c)))
    (match s with
     | [] => None
     | _ :: s' => exec_from r (S i) s'
     end).

Definition exec (r : regex) (s : jsstring) : option (gmap nat jsstring) :=
  exec_from r 0 s.

(** ** Values *)

(** What the query-string parser of the web framework puts in
    [req.query]: strings, arrays and nested objects. [QUndef] is the
    value of a parameter that is absent. *)
Inductive qvalue : Type :=
| QUndef
| QNull
| QStr (s : jsstring)
| QArr (l : list qvalue)
| QObj (o : list (jsstring * qvalue)).

(** JSON-like values: request bodies, stored records and the filter
    documents handed to the store. An object keeps its own properties in
    insertion order. *)
Inductive value : Type :=
| VUndef
| VNull
| VBool (b : bool)
| VNum (n : number)
| VStr (s : jsstring)
| VArr (l : list value)
| VObj (o : list (jsstring * value)).

Fixpoint of_q (v : qvalue) : value :=
  match v with
  | QUndef => VUndef
  | QNull => VNull
  | QStr s => VStr s
  | QArr l => VArr (List.map of_q l)
  | QObj o => VObj (List.map (fun kv => (fst kv, of_q (snd kv))) o)
  end.

(** ToBoolean. *)
Definition truthy_q (v : qvalue) : bool :=
  match v with
  | QUndef | QNull => false
  | QStr s => match s with [] => false | _ :: _ => true end
  | QArr _ | QObj _ => true
  end.

Definition truthy (v : value) : bool :=
  match v with
  | VUndef | VNull => false
  | VBool b => b
  | VNum n => truthy_number n
  | VStr s => match s with [] => false | _ :: _ => true end
  | VArr _ | VObj _ => true
  end.

Fixpoint join (sep : jsstring) (l : list jsstring) : jsstring :=
  match l with
  | [] => []
  | [x] => x
  | x :: l' => x ++ sep ++ join sep l'
  end.

(** Own properties of an object. *)
Definition obj : Type := list (jsstring * value).

Fixpoint obj_get (o : obj) (k : jsstring) : value :=
  match o with
  | [] => VUndef
  | (k', v) :: o' => if decide (k' = k) then v else obj_get o' k
  end.

Fixpoint obj_put (o : obj) (k : jsstring) (v : value) : obj :=
  match o with
  | [] => [(k, v)]
  | (k', v') :: o' =>
      if decide (k' = k) then (k, v) :: o' else (k', v') :: obj_put o' k v
  end.

(** [o[k] = v] on an object created by [{}]: the key [__proto__] is the
    accessor inherited from [Object.prototype], which adds no own
    property. *)
Definition obj_set (o : obj) (k : jsstring) (v : value) : obj :=
  if decide (k = js "__proto__") then o else obj_put o k v.

(** [Object.keys(v)[0]] used as a property key. *)
Definition first_key (v : value) : jsstring :=
  match v with
  | VObj ((k, _) :: _) => k
  | _ => js "undefined"
  end.

Definition get (v : value) (k : jsstring) : value :=
  match v with
  | VObj o => obj_get o k
  | _ => VUndef
  end.

(** ** Exceptions *)

(** A [TypeError] of the language, or a failure the store reports for a
    lookup: both reach the handler as an exception. *)
Inductive error : Type :=
| TypeError
| ConversionFailure
| InvalidArgument
| Unsupported.

Inductive result (A : Type) : Type :=
| Ok (a : A)
| Throw (e : error).
Arguments Ok {A} a.
Arguments Throw {A} e.

Global Instance result_ret : MRet result := fun A a => Ok a.
Global Instance result_bind : MBind result := fun A B f x =>
  match x with
  | Ok a => f a
  | Throw e => Throw e
  end.

(** ToString on a value of the request. An array joins the strings of
    its elements with commas, [undefined] and [null] counting for the
    empty string. A plain object with the listed own properties prints
    through [Object.prototype.toString] as [[object Object]], unless it
    has an own property [toString]: what the query parser stores there
    is no function, [valueOf] then returns the object itself, and the
    conversion throws a [TypeError]. *)
Definition has_own (o : list (jsstring * qvalue)) (k : jsstring) : bool :=
  existsb (fun kv => bool_decide (fst kv = k)) o.

Definition each_string (f : qvalue -> result jsstring)
    : list qvalue -> result (list jsstring) :=
  fix each (l : list qvalue) : result (list jsstring) :=
    match l with
    | [] => Ok []
    | x :: l' =>
        s ← match x with
            | QUndef | QNull => Ok []
            | _ => f x
            end;
        r ← each l';
        Ok (s :: r)
    end.

Fixpoint ToString (v : qvalue) : result jsstring :=
  match v with
  | QUndef => Ok (js "undefined")
  | QNull => Ok (js "null")
  | QStr s => Ok s
  | QArr l => parts ← each_string ToString l; Ok (join (js ",") parts)
  | QObj o =>
      if has_own o (js "toString") then Throw TypeError
      else Ok (js "[object Object]")
  end.

(** [parseInt(v)]: the argument is converted to a string first. *)
Definition parseInt (v : qvalue) : result number :=
  s ← ToString v; Ok (parseInt_string s).

(** ** The controller *)

(** [/^(>=|<=|=|>|<)?\s*(\d+(\.\d+)?)$/], group by group. *)
Definition re_operator : regex :=
  Group 1
    (Alt (Lit (js ">="))
    (Alt (Lit (js "<="))
    (Alt (Lit (js "="))
    (Alt (Lit (js ">")) (Lit (js "<")))))).

Definition re_number : regex :=
  Group 2
    (Seq (Plus (Cls is_digit))
         (Opt (Group 3 (Seq (Chr 46) (Plus (Cls is_digit)))))).

Definition numeric_re : regex :=
  Seq Bol
    (Seq (Opt re_operator)
      (Seq (Star (Cls is_space))
        (Seq re_number Eol))).

(** [s.match(re)]: only a string has the method. *)
Definition str_match (v : qvalue) (re : regex)
    : result (option (gmap nat jsstring)) :=
  match v with
  | QStr s => Ok (exec re s)
  | _ => Throw TypeError
  end.

Definition parseNumericFilter (filterStr : qvalue) : result value :=
  if negb (truthy_q filterStr) then Ok VNull
  else
    m ← str_match filterStr numeric_re;
    match m with
    | None => Ok VNull
    | Some m =>
        let op := match m !! 1%nat with
                  | Some (c :: o) => c :: o
                  | _ => js "="
                  end in
        let val := match m !! 2%nat with
                   | Some s => parseFloat s
                   | None => NaN
                   end in
        if decide (op = js ">") then Ok (VObj [(js "$gt", VNum val)])
        else if decide (op = js "<") then Ok (VObj [(js "$lt", VNum val)])
        else if decide (op = js ">=") then Ok (VObj [(js "$gte", VNum val)])
        else if decide (op = js "<=") then Ok (VObj [(js "$lte", VNum val)])
        else Ok (VObj [(js "$eq", VNum val)])
    end.

Record query_spec : Type := QuerySpec {
  qs_filter : obj;
  qs_sort : obj;
  qs_page : number;
  qs_limit : number
}.

Definition query (q : gmap jsstring qvalue) (k : string) : qvalue :=
  default QUndef (q !! js k).

(** [x || d] on Numbers. *)
Definition or_number (x d : number) : number :=
  if truthy_number x then x else d.

(** [s.split(":")]: only a string has the method. *)
Definition str_split (v : qvalue) (sep : N) : result (list jsstring) :=
  match v with
  | QStr s => Ok (split_on sep s)
  | _ => Throw TypeError
  end.

(** The computed expression both endpoints attach under [$expr]. *)
Definition calories_token : value :=
  VObj [(js "$toDouble",
    VObj [(js "$trim",
      VObj [(js "input",
        VObj [(js "$arrayElemAt",
          VArr [VObj [(js "$split",
                  VArr [VStr (js "$nutrients.calories"); VStr (js " ")])];
                VNum (num 0)])])])])].

(** [getRecipes], up to the store lookup: the filter, the sort and the
    page and limit it hands over. *)
Definition getRecipes (q : gmap jsstring qvalue) : result query_spec :=
  page ← parseInt (query q "page");
  let page := or_number page (num 1) in
  limit ← parseInt (query q "limit");
  let limit := or_number limit (num 10) in
  sortBy ← (if truthy_q (query q "sort") then
              parts ← str_split (query q "sort") 58;
              let field := match parts !! 0%nat with
                           | Some f => f
                           | None => js "undefined"
                           end in
              let dir := if decide (parts !! 1%nat = Some (js "asc"))
                         then num 1 else num (-1) in
              Ok (obj_set [] field (VNum dir))
            else Ok [(js "rating", VNum (num (-1)))]);
  let filter : obj := [] in
  let filter :=
    if truthy_q (query q "title") then
      obj_set filter (js "title")
        (VObj [(js "$regex", of_q (query q "title"));
               (js "$options", VStr (js "i"))])
    else filter in
  let filter :=
    if truthy_q (query q "cuisine") then
      obj_set filter (js "cuisine") (of_q (query q "cuisine"))
    else filter in
  filter ← (if truthy_q (query q "rating") then
              parsed ← parseNumericFilter (query q "rating");
              Ok (if truthy parsed then obj_set filter (js "rating") parsed
                  else filter)
            else Ok filter);
  filter ← (if truthy_q (query q "total_time") then
              parsed ← parseNumericFilter (query q "total_time");
              Ok (if truthy parsed then obj_set filter (js "total_time") parsed
                  else filter)
            else Ok filter);
  filter ← (if truthy_q (query q "calories") then
              parsed ← parseNumericFilter (query q "calories");
              Ok (if truthy parsed then
                    let operator := first_key parsed in
                    let value := get parsed operator in
                    obj_set filter (js "$expr")
                      (VObj [(operator, VArr [calories_token; value])])
                  else filter)
            else Ok filter);
  Ok (QuerySpec filter sortBy page limit).

(** [searchRecipes], up to the store lookup: the filter. *)
Definition searchRecipes (q : gmap jsstring qvalue) : result obj :=
  let filter : obj := [] in
  let filter :=
    if truthy_q (query q "title") then
      obj_set filter (js "title")
        (VObj [(js "$regex", of_q (query q "title"));
               (js "$options", VStr (js "i"))])
    else filter in
  let filter :=
    if truthy_q (query q "cuisine") then
      obj_set filter (js "cuisine") (of_q (query q "cuisine"))
    else filter in
  filter ← (if truthy_q (query q "rating") then
              parsed ← parseNumericFilter (query q "rating");
              Ok (if truthy parsed then obj_set filter (js "rating") parsed
                  else filter)
            else Ok filter);
  filter ← (if truthy_q (query q "total_time") then
              parsed ← parseNumericFilter (query q "total_time");
              Ok (if truthy parsed then obj_set filter (js "total_time") parsed
                  else filter)
            else Ok filter);
  filter ← (if truthy_q (query q "calories") then
              parsed ← parseNumericFilter (query q "calories");
              Ok (if truthy parsed then
                    let operator := first_key parsed in
                    let value := get parsed operator in
                    obj_set filter (js "$expr")
                      (VObj [(operator, VArr [calories_token; value])])
                  else filter)
            else Ok filter);
  Ok filter.

(** [loadRecipes] and [addRecipe] coerce with [Number(v)]. ToNumber is
    fixed by the language on primitives; what it makes of a string
    (StringToNumber) and of an object (ToPrimitive, which throws a
    [TypeError] when the object has no primitive value) is left to the
    runtime. *)
Section Normalisation.

Variable StringToNumber : jsstring -> number.
Variable ObjectToNumber : value -> result number.

Definition Number (v : value) : result number :=
  match v with
  | VUndef => Ok NaN
  | VNull => Ok (num 0)
  | VBool b => Ok (num (if b then 1 else 0))
  | VNum n => Ok n
  | VStr s => Ok (StringToNumber s)
  | VArr _ | VObj _ => ObjectToNumber v
  end.

Definition is_str (v : value) (s : jsstring) : bool :=
  match v with VStr t => bool_decide (t = s) | _ => false end.
Definition is_undefined (v : value) : bool :=
  match v with VUndef => true | _ => false end.
Definition is_null (v : value) : bool :=
  match v with VNull => true | _ => false end.

Definition numeric_fields : list jsstring :=
  [js "rating"; js "prep_time"; js "cook_time"; js "total_time"].

(** [fields.forEach(body)] on an object the body updates in place. *)
Fixpoint forEach (fields : list jsstring)
    (body : obj -> jsstring -> result obj) (o : obj) : result obj :=
  match fields with
  | [] => Ok o
  | f :: fs => o' ← body o f; forEach fs body o'
  end.

(** The body of the loop of [loadRecipes]. *)
Definition load_field (copy : obj) (f : jsstring) : result obj :=
  let v := obj_get copy f in
  if is_str v (js "NaN") || is_undefined v || is_null v then
    Ok (obj_set copy f VNull)
  else
    n ← Number v;
    if isNaN n then Ok (obj_set copy f VNull)
    else n' ← Number v; Ok (obj_set copy f (VNum n')).

(** [loadRecipes] after the file is read and parsed: every record is
    copied and its numeric fields are normalised. *)
Fixpoint loadRecipes (recipes : list obj) : result (list obj) :=
  match recipes with
  | [] => Ok []
  | r :: rs =>
      copy ← forEach numeric_fields load_field r;
      cleaned ← loadRecipes rs;
      Ok (copy :: cleaned)
  end.

(** The body of the loop of [addRecipe]. *)
Definition add_field (payload : obj) (f : jsstring) : result obj :=
  let v := obj_get payload f in
  if is_str v (js "NaN") || is_str v [] then Ok (obj_set payload f VNull)
  else
    n ← Number v;
    if isNaN n then Ok (obj_set payload f VNull)
    else if negb (is_undefined v) && negb (is_null v) then
      n' ← Number v; Ok (obj_set payload f (VNum n'))
    else Ok payload.

(** [addRecipe], up to the construction of the document: the request
    body with its numeric fields normalised. *)
Definition addRecipe (payload : obj) : result obj :=
  forEach numeric_fields add_field payload.

End Normalisation.

(** ** The store

    The two endpoints hand their filter to the document store
    ([Recipe.find] of the MongoDB driver). The meaning of the operators
    they emit is the store's; it is modelled here from the documented
    behaviour of MongoDB, for the operators the controller emits and
    nothing more: the aggregation operators [$split], [$arrayElemAt],
    [$trim], [$toDouble] and the comparisons under [$expr], and the
    query operator [$regex]. What the store makes of a string under
    [$toDouble] is a parameter: [None] is a failed conversion, which,
    no [onError] being given, fails the lookup. *)
Module Store.

(** The white space [$trim] removes by default. *)
Definition is_blank (c : N) : bool :=
  ((c =? 0) || (9 <=? c) && (c <=? 13) || (c =? 32) || (c =? 160)
   || (c =? 5760) || (8192 <=? c) && (c <=? 8202))%N.

Definition trim (s : jsstring) : jsstring :=
  reverse (span is_blank (reverse (span is_blank s).2)).2.

(** A field path [a.b] read in a document; [VUndef] is a missing
    field. *)
Fixpoint field_path (path : list jsstring) (doc : value) : result value :=
  match path with
  | [] => Ok doc
  | k :: path' =>
      match doc with
      | VObj o => field_path path' (obj_get o k)
      | VArr _ => Throw Unsupported
      | _ => Ok VUndef
      end
  end.

Definition nullish (v : value) : bool :=
  match v with VUndef | VNull => true | _ => false end.

(** The integer a Number denotes, if it denotes one. *)
Definition to_index (x : number) : option Z :=
  match x with
  | Fin neg m e =>
      if 0 <=? e then Some (signed_mantissa neg (m * 2 ^ e))
      else if m mod 2 ^ (- e) =? 0
           then Some (signed_mantissa neg (m / 2 ^ (- e)))
           else None
  | _ => None
  end.

(** The order of values of different types: a missing field, then
    null, then numbers, then strings, objects, arrays, booleans. *)
Definition rank (v : value) : Z :=
  match v with
  | VUndef => 0
  | VNull => 1
  | VNum _ => 2
  | VStr _ => 3
  | VObj _ => 4
  | VArr _ => 5
  | VBool _ => 6
  end.

(** Among numbers NaN is the least and equal to itself. *)
Definition compare_numbers (x y : number) : comparison :=
  match number_compare x y with
  | Some c => c
  | None => match x, y with
            | NaN, NaN => Eq
            | NaN, _ => Lt
            | _, _ => Gt
            end
  end.

Definition compare_values (a b : value) : result comparison :=
  match a, b with
  | VNum x, VNum y => Ok (compare_numbers x y)
  | _, _ => if rank a =? rank b
            then (if nullish a then Ok Eq else Throw Unsupported)
            else Ok (rank a ?= rank b)
  end.

Definition test (op : jsstring) (c : comparison) : result bool :=
  if decide (op = js "$gt") then Ok (bool_decide (c = Gt))
  else if decide (op = js "$gte") then Ok (negb (bool_decide (c = Lt)))
  else if decide (op = js "$lt") then Ok (bool_decide (c = Lt))
  else if decide (op = js "$lte") then Ok (negb (bool_decide (c = Gt)))
  else if decide (op = js "$eq") then Ok (bool_decide (c = Eq))
  else Throw Unsupported.

Section Expressions.

Variable parse_double : jsstring -> option number.

Definition toDouble (v : value) : result value :=
  match v with
  | VUndef | VNull => Ok VNull
  | VNum n => Ok (VNum n)
  | VBool b => Ok (VNum (num (if b then 1 else 0)))
  | VStr s => match parse_double s with
              | Some x => Ok (VNum x)
              | None => Throw ConversionFailure
              end
  | _ => Throw ConversionFailure
  end.

Definition split (a d : value) : result value :=
  if nullish a || nullish d then Ok VNull
  else match a, d with
       | VStr s, VStr [c] => Ok (VArr (List.map VStr (split_on c s)))
       | VStr _, VStr _ => Throw Unsupported
       | _, _ => Throw InvalidArgument
       end.

Definition arrayElemAt (a i : value) : result value :=
  if nullish a || nullish i then Ok VNull
  else match a, i with
       | VArr l, VNum x =>
           match to_index x with
           | Some z =>
               if 0 <=? z then Ok (default VUndef (l !! Z.to_nat z))
               else if - z <=? Z.of_nat (length l)
               then Ok (default VUndef
                          (l !! Z.to_nat (Z.of_nat (length l) + z)))
               else Ok VUndef
           | None => Throw InvalidArgument
           end
       | _, _ => Throw InvalidArgument
       end.

Definition trim_input (v : value) : result value :=
  match v with
  | VUndef | VNull => Ok VNull
  | VStr s => Ok (VStr (trim s))
  | _ => Throw InvalidArgument
  end.

(** The value of an aggregation expression in a document. *)
Fixpoint eval (doc : value) (e : value) : result value :=
  match e with
  | VStr (36%N :: path) => field_path (split_on 46 path) doc
  | VObj [(op, arg)] =>
      if decide (op = js "$toDouble") then
        v ← eval doc arg; toDouble v
      else if decide (op = js "$trim") then
        match arg with
        | VObj [(k, a)] =>
            if decide (k = js "input") then v ← eval doc a; trim_input v
            else Throw Unsupported
        | _ => Throw Unsupported
        end
      else
        match arg with
        | VArr [a; b] =>
            x ← eval doc a;
            y ← eval doc b;
            if decide (op = js "$split") then split x y
            else if decide (op = js "$arrayElemAt") then arrayElemAt x y
            else c ← compare_values x y; b ← test op c; Ok (VBool b)
        | _ => Throw Unsupported
        end
  | VObj _ | VArr _ => Throw Unsupported
  | _ => Ok e
  end.

(** Whether a document passes the [$expr] condition of a filter: the
    expression is evaluated and its value read as a boolean. A
    filter without the condition lets every document pass. *)
Definition passes_expr (filter : obj) (doc : value) : result bool :=
  match obj_get filter (js "$expr") with
  | VUndef => Ok true
  | e => v ← eval doc e; Ok (truthy v)
  end.

End Expressions.

(** The pattern of a [$regex] condition, for patterns made of ordinary
    characters and of [.], which stands for any character but a line
    feed. With the option [i] characters are compared after case
    folding. Any other metacharacter is outside this model. *)
Definition is_meta (c : N) : bool :=
  existsb (N.eqb c) (js "\^$.[]|()?*+{}").

Fixpoint pattern (fold : N -> N) (p : jsstring) : option regex :=
  match p with
  | [] => Some Eps
  | c :: p' =>
      r ← pattern fold p';
      if (c =? 46)%N then Some (Seq (Cls (fun x => negb (x =? 10)%N)) r)
      else if is_meta c then None
      else Some (Seq (Cls (fun x => (fold x =? fold c)%N)) r)
  end.

(** Whether a document passes the condition a filter puts on [title]:
    the stored title is a string in which the pattern matches
    somewhere. *)
Definition passes_title (fold : N -> N) (filter : obj) (doc : value)
    : result bool :=
  match obj_get filter (js "title") with
  | VUndef => Ok true
  | VObj [(k1, VStr p); (k2, VStr o)] =>
      if decide (k1 = js "$regex" ∧ k2 = js "$options" ∧ o = js "i") then
        match pattern fold p, get doc (js "title") with
        | Some r, VStr t => Ok (bool_decide (is_Some (exec r t)))
        | Some _, _ => Ok false
        | None, _ => Throw Unsupported
        end
      else Throw Unsupported
  | _ => Throw Unsupported
  end.

End Store.

(** ASCII case folding. *)
Definition ascii_lower (c : N) : N :=
  if ((65 <=? c) && (c <=? 90))%N then (c + 32)%N else c.

(** The words a pattern matches, without the order in which the matcher
    tries them: [matches r i w rest] when [r] matches the word [w]
    starting at index [i] and [rest] is the input after [w]. *)
Inductive matches : regex -> nat -> jsstring -> jsstring -> Prop :=
| M_Eps i rest : matches Eps i [] rest
| M_Chr a i rest : matches (Chr a) i [a] rest
| M_Cls (p : N -> bool) x i rest :
    p x = true -> matches (Cls p) i [x] rest
| M_Seq r1 r2 i w1 w2 rest :
    matches r1 i w1 (w2 ++ rest) ->
    matches r2 (i + length w1)%nat w2 rest ->
    matches (Seq r1 r2) i (w1 ++ w2) rest
| M_AltL r1 r2 i w rest : matches r1 i w rest -> matches (Alt r1 r2) i w rest
| M_AltR r1 r2 i w rest : matches r2 i w rest -> matches (Alt r1 r2) i w rest
| M_OptNone r i rest : matches (Opt r) i [] rest
| M_OptSome r i w rest : matches r i w rest -> matches (Opt r) i w rest
| M_StarNil r i rest : matches (Star r) i [] rest
| M_StarCons r i w1 w2 rest :
    matches r i w1 (w2 ++ rest) ->
    matches (Star r) (i + length w1)%nat w2 rest ->
    matches (Star r) i (w1 ++ w2) rest
| M_Group n r i w rest : matches r i w rest -> matches (Group n r) i w rest
| M_Bol rest : matches Bol 0 [] rest
| M_Eol i : matches Eol i [] [].

(** ** The grammar of a numeric filter, as the specification words it

    An optional comparison operator, optional white space, and a decimal
    number: digits, optionally followed by a point and digits. *)

Definition operators : list jsstring :=
  [js ">="; js "<="; js "="; js ">"; js "<"].

Definition all (p : N -> bool) (w : jsstring) : Prop :=
  Forall (fun x => p x = true) w.

Definition digits (s : jsstring) : Prop := s <> [] /\ all is_digit s.

Definition fraction (fp : option jsstring) : Prop :=
  match fp with Some f => digits f | None => True end.

(** The text of a decimal number with integer part [ip] and, when there
    is one, fraction digits [fp]. *)
Definition decimal (ip : jsstring) (fp : option jsstring) : jsstring :=
  ip ++ match fp with Some f => 46%N :: f | None => [] end.

Definition in_grammar (s : jsstring) : Prop :=
  exists op ws ip fp,
    s = op ++ ws ++ decimal ip fp /\
    (op = [] \/ op ∈ operators) /\
    all is_space ws /\ digits ip /\ fraction fp.

(** The operator of the predicate each written operator stands for. *)
Definition predicate_of (op : jsstring) : jsstring :=
  if decide (op = js ">") then js "$gt"
  else if decide (op = js "<") then js "$lt"
  else if decide (op = js ">=") then js "$gte"
  else if decide (op = js "<=") then js "$lte"
  else js "$eq".

(** The rational a decimal text denotes, as numerator and denominator:
    the digits read as one integer over a power of ten. *)
Definition decimal_num (ip : jsstring) (fp : option jsstring) : Z :=
  digits_val (ip ++ default [] fp).
Definition decimal_den (fp : option jsstring) : Z :=
  10 ^ Z.of_nat (length (default [] fp)).
Definition decimal_value (ip : jsstring) (fp : option jsstring) : Q :=
  (inject_Z (decimal_num ip fp) / inject_Z (decimal_den fp))%Q.

(** A rational that binary64 holds without rounding: [M * 2^E] with a
    mantissa below [2^53] and an exponent in range. *)
Definition representable (q : Q) : Prop :=
  exists M E : Z,
    0 <= M < 2 ^ 53 /\ emin <= E <= emax /\ (q == inject_Z M * 2 ^ E)%Q.

(** The input left either is empty or starts outside the class [p]. *)
Definition stops (p : N -> bool) (s : jsstring) : Prop :=
  match s with [] => True | x :: _ => p x = false end.

(** ** The builder, as the specification words it *)

(** Every parameter of the request is a string. *)
Definition strings (q : gmap jsstring qvalue) : Prop :=
  forall k v, q !! k = Some v -> exists s, v = QStr s.

(** A parameter that is absent or a string. *)
Definition strings_value (v : qvalue) : Prop :=
  v = QUndef \/ exists s, v = QStr s.

(** The condition a numeric parameter contributes: the predicate it
    parses to, [VNull] when it does not parse. *)
Definition numeric_condition (v : qvalue) : value :=
  match parseNumericFilter v with Ok x => x | Throw _ => VNull end.

(** The computed-expression condition for a parsed calories predicate. *)
Definition calories_condition (parsed : value) : value :=
  VObj [(first_key parsed,
         VArr [calories_token; get parsed (first_key parsed)])].

(** An entry of the filter, present when [b] holds. *)
Definition entry (b : bool) (k : string) (v : value) : obj :=
  if b then [(js k, v)] else [].

(** The filter of a request: one entry for each parameter that is
    present and, for the numeric ones, parses; nothing for the others. *)
Definition expected_filter (q : gmap jsstring qvalue) : obj :=
  entry (truthy_q (query q "title")) "title"
    (VObj [(js "$regex", of_q (query q "title"));
           (js "$options", VStr (js "i"))])
  ++ entry (truthy_q (query q "cuisine")) "cuisine" (of_q (query q "cuisine"))
  ++ entry (truthy (numeric_condition (query q "rating"))) "rating"
       (numeric_condition (query q "rating"))
  ++ entry (truthy (numeric_condition (query q "total_time"))) "total_time"
       (numeric_condition (query q "total_time"))
  ++ entry (truthy (numeric_condition (query q "calories"))) "$expr"
       (calories_condition (numeric_condition (query q "calories"))).

(** The field and the direction of a sort parameter [field:direction]:
    the text before the first colon, and the text between the first
    colon and the next one, if there is a colon at all. *)
Definition not_colon (c : N) : bool := negb (c =? 58)%N.

Definition field_part (s : jsstring) : jsstring := (span not_colon s).1.

Definition direction_part (s : jsstring) : option jsstring :=
  match (span not_colon s).2 with
  | _ :: rest => Some (span not_colon rest).1
  | [] => None
  end.

Definition direction (s : jsstring) : number :=
  if decide (direction_part s = Some (js "asc")) then num 1 else num (-1).

Definition is_sign (c : N) : bool := ((c =? 45) || (c =? 43))%N.

(** A string [parseInt] finds no integer in: after white space and an
    optional sign it does not start with a digit. *)
Definition no_integer (s : jsstring) : Prop :=
  exists ws sign rest,
    s = ws ++ sign ++ rest /\ all is_space ws /\ stops is_space (sign ++ rest) /\
    ((sign = [] /\ stops is_sign rest) \/ sign = js "-" \/ sign = js "+") /\
    stops is_digit rest.

(** The text [parseInt] is given for a parameter that is absent or a
    string, and the page or limit it makes of it. *)
Definition text (v : qvalue) : jsstring :=
  match v with QStr s => s | _ => js "undefined" end.

Definition expected_page (v : qvalue) (dflt : Z) : number :=
  or_number (parseInt_string (text v)) (num dflt).

(** What the specification says of [page] and [limit], given the
    parameter [v], the default [dflt] and the result [x]. *)
Definition paging (v : qvalue) (dflt : Z) (x : number) : Prop :=
  (exists n, parseInt v = Ok n /\ x = or_number n (num dflt)) /\
  truthy_number x = true /\
  (v = QUndef -> x = num dflt) /\
  (forall s, v = QStr s -> no_integer s -> x = num dflt) /\
  (forall ds, v = QStr ds -> digits ds -> digits_val ds <> 0 ->
     x = binary64 false (digits_val ds) 1 /\
     (digits_val ds < 2 ^ 53 -> denotes x (inject_Z (digits_val ds)))).

(** The names the two endpoints read. *)
Definition filter_parameters : list string :=
  ["title"; "cuisine"; "rating"; "total_time"; "calories"]%string.

Definition parameters : list string :=
  ["page"; "limit"; "sort"]%string ++ filter_parameters.

(** A title without the characters a pattern gives a meaning to. *)
Definition plain (t : jsstring) : Prop :=
  Forall (fun c => Store.is_meta c = false) t.

(** [t] is a prefix of [s], and [t] occurs somewhere in [s], when code
    units are compared after case folding. *)
Fixpoint prefix_ci (fold : N -> N) (t s : jsstring) : bool :=
  match t, s with
  | [], _ => true
  | a :: t', b :: s' => (fold b =? fold a)%N && prefix_ci fold t' s'
  | _ :: _, [] => false
  end.

Fixpoint occurs_ci (fold : N -> N) (t s : jsstring) : bool :=
  prefix_ci fold t s
  || match s with [] => false | _ :: s' => occurs_ci fold t s' end.

(** A numeric field after normalisation: [null], or a Number that is
    not NaN. *)
Definition number_or_null (v : value) : Prop :=
  v = VNull \/ exists n, v = VNum n /\ n <> NaN.

(** A conversion for the examples: a store that converts the plain
    decimal literals, with an optional sign, and fails on every other
    string. *)
Definition decimal_double (s : jsstring) : option number :=
  let '(_, s1) := strip_sign s in
  let '(ip, r1) := span is_digit s1 in
  let '(fp, r2) := match r1 with
                   | c :: t => if (c =? 46)%N then span is_digit t
                               else ([], r1)
                   | [] => ([], r1)
                   end in
  match ip ++ fp, r2 with
  | _ :: _, [] => Some (parseFloat s)
  | _, _ => None
  end.

(** A request with the given string parameters. *)
Definition request (l : list (string * string)) : gmap jsstring qvalue :=
  list_to_map (List.map (fun kv => (js (fst kv), QStr (js (snd kv)))) l).

(** The sort of a request. *)
Definition expected_sort (q : gmap jsstring qvalue) : obj :=
  match query q "sort" with
  | QStr (c :: s) =>
      obj_set [] (field_part (c :: s)) (VNum (direction (c :: s)))
  | _ => [(js "rating", VNum (num (-1)))]
  end.

(** A parameter that is a non-empty string, and one that is a text of
    the grammar of numeric filters. *)
Definition nonempty (v : qvalue) : Prop := exists c s, v = QStr (c :: s).

Definition parses (v : qvalue) : Prop := exists s, v = QStr s /\ in_grammar s.

(** The keys the filter of a request has: one for each filter parameter
    that is present and, for the numeric ones, parses. *)
Definition constrains (q : gmap jsstring qvalue) (k : jsstring) : Prop :=
  (k = js "title" /\ nonempty (query q "title"))
  \/ (k = js "cuisine" /\ nonempty (query q "cuisine"))
  \/ (k = js "rating" /\ parses (query q "rating"))
  \/ (k = js "total_time" /\ parses (query q "total_time"))
  \/ (k = js "$expr" /\ parses (query q "calories")).

Definition keys (o : obj) : list jsstring := List.map fst o.

(** The predicate a numeric parameter stands for: the parameter is a
    text of the grammar, [p] the predicate of its operator and [x] the
    Number for its decimal. *)
Definition predicate_for (v : qvalue) (p : jsstring) (x : number) : Prop :=
  exists op ws ip fp,
    v = QStr (op ++ ws ++ decimal ip fp) /\
    (op = [] \/ op ∈ operators) /\
    all is_space ws /\ digits ip /\ fraction fp /\
    p = predicate_of op /\
    x = binary64 false (decimal_num ip fp) (decimal_den fp).

(** The condition the filter of a request may hold under the key [k]:
    the pattern for the title, the cuisine as given, the predicate of
    [rating] and of [total_time], and for calories the comparison of
    the computed value with the threshold. *)
Definition condition (q : gmap jsstring qvalue) (k : jsstring) (v : value)
    : Prop :=
  (k = js "title" /\
   exists c s, query q "title" = QStr (c :: s) /\
               v = VObj [(js "$regex", VStr (c :: s));
                         (js "$options", VStr (js "i"))])
  \/ (k = js "cuisine" /\
      exists c s, query q "cuisine" = QStr (c :: s) /\ v = VStr (c :: s))
  \/ (k = js "rating" /\
      exists p x, predicate_for (query q "rating") p x /\
                  v = VObj [(p, VNum x)])
  \/ (k = js "total_time" /\
      exists p x, predicate_for (query q "total_time") p x /\
                  v = VObj [(p, VNum x)])
  \/ (k = js "$expr" /\
      exists p x, predicate_for (query q "calories") p x /\
                  v = VObj [(p, VArr [calories_token; VNum x])]).

(** A Number that is a positive integer. *)
Definition positive_integer (x : number) : Prop :=
  exists z : Z, 0 < z /\ denotes x (inject_Z z).

(** The Query Spec as the specification has it: a sort key with its
    direction, and a page and a limit that are positive integers. *)
Definition valid_query_spec (spec : query_spec) : Prop :=
  (exists k d, qs_sort spec = [(k, VNum d)] /\ (d = num 1 \/ d = num (-1)))
  /\ positive_integer (qs_page spec)
  /\ positive_integer (qs_limit spec).

(** Whether the outcome [c] of comparing a value with the threshold
    satisfies the written operator; no operator is equality. *)
Definition satisfies (op : jsstring) (c : comparison) : bool :=
  if decide (op = js ">") then bool_decide (c = Gt)
  else if decide (op = js "<") then bool_decide (c = Lt)
  else if decide (op = js ">=") then negb (bool_decide (c = Lt))
  else if decide (op = js "<=") then negb (bool_decide (c = Gt))
  else bool_decide (c = Eq).

(** The first piece of a stored calories string cut at each space,
    trimmed: what the emitted expression converts to a number. *)
Definition calories_piece (s : jsstring) : jsstring :=
  Store.trim (hd [] (split_on 32 s)).

Definition predicates : list jsstring :=
  [js "$gt"; js "$lt"; js "$gte"; js "$lte"; js "$eq"].

(** A runtime for the examples: StringToNumber on the empty string and
    on plain decimal literals, NaN on the strings used here that are no
    numbers; ToPrimitive of a plain object is [[object Object]], which
    is no number. *)
Definition sample_StringToNumber (s : jsstring) : number :=
  match s with
  | [] => num 0
  | _ => default NaN (decimal_double s)
  end.

Definition sample_ObjectToNumber (v : value) : result number := Ok NaN.

Definition sample_record : obj :=
  [(js "title", VStr (js "Pie")); (js "rating", VStr (js "4.5"));
   (js "prep_time", VStr (js "NaN")); (js "cook_time", VStr (js "soon"))].

(** ** Auxiliary definitions for the proofs *)

(** What follows the operator starts with white space or with a digit. *)
Definition plain_head (s : jsstring) : Prop :=
  match s with
  | x :: _ => is_space x = true \/ is_digit x = true
  | [] => False
  end.

(** The captures after the number group has matched. *)
Definition number_captures (c : gmap nat jsstring) (ip : jsstring)
    (fp : option jsstring) : gmap nat jsstring :=
  <[2%nat := decimal ip fp]>
    (match fp with
     | Some f => <[3%nat := 46%N :: f]> (delete 3%nat c)
     | None => c
     end).

(** After the operator group, or without it, capture 1. *)
Definition operator_captures (op : jsstring) : gmap nat jsstring :=
  match op with [] => ∅ | _ => <[1%nat := op]> ∅ end.

(** A step of the matcher accepts only words of [r]. *)
Definition sound (step : nat -> jsstring -> gmap nat jsstring -> cont ->
                         option (gmap nat jsstring)) (r : regex) : Prop :=
  forall i s c (k : cont) R,
    step i s c k = Some R ->
    exists w s' c', s = w ++ s' /\ matches r i w s' /\
                    k (i + length w)%nat s' c' = Some R.

(** A step of a loop over the fields that settles its own field and
    leaves the others as they are. *)
Definition settles (body : obj -> jsstring -> result obj) : Prop :=
  forall o f o', f <> js "__proto__" -> body o f = Ok o' ->
    number_or_null (obj_get o' f) /\
    forall g, g <> f -> obj_get o' g = obj_get o g.

(** The Number [parseInt] returns, NaN standing in where it throws. *)
Definition parsed_int (v : qvalue) : number :=
  match parseInt v with Ok n => n | Throw _ => NaN end.

(** Tactics. *)
Ltac bool_to_prop :=
  repeat (rewrite ?orb_true_iff, ?andb_true_iff, ?orb_false_iff,
            ?andb_false_iff, ?N.leb_le, ?N.leb_gt, ?N.eqb_eq, ?N.eqb_neq in * ).

(** Evaluate the string literals of the goal to their code units. *)
Ltac js_eval :=
  repeat match goal with
         | |- context [js ?s] =>
             let v := eval vm_compute in (js s) in change (js s) with v
         | H : context [js ?s] |- _ =>
             let v := eval vm_compute in (js s) in change (js s) with v in H
         end.

(** Move [inject_Z] inwards in [H]. *)
Ltac push_inject H :=
  unfold Z.sub in H;
  repeat first [ rewrite inject_Z_opp in H | rewrite inject_Z_mult in H
               | rewrite inject_Z_plus in H ].

(** ** The builder over a heap

    [getRecipes] once more, this time with the objects it creates and
    writes to kept in a heap, so that what one call leaves behind is
    there when the next one runs. The request object [req.query] is an
    object of the heap like any other. An object literal whose
    properties are never written again (a parsed predicate, the
    condition on the title, the calories expression) is taken as a
    value; the objects the handler assigns to, [sortBy] and [filter],
    are cells, and so is the RegExp object each evaluation of the
    regular-expression literal creates. *)

(** What a property holds: a value the query parser stored, or a value
    the handler stored. *)
Inductive hval : Type :=
| HQ (v : qvalue)
| HV (v : value).

Definition cell : Type := list (jsstring * hval).

Definition hval_value (h : hval) : value :=
  match h with HQ v => of_q v | HV v => v end.

(** The own properties of a cell, as a value. *)
Definition cell_obj (c : cell) : obj :=
  List.map (fun kv => (fst kv, hval_value (snd kv))) c.

Fixpoint cell_get (c : cell) (k : jsstring) : hval :=
  match c with
  | [] => HQ QUndef
  | (k', v) :: c' => if decide (k' = k) then v else cell_get c' k
  end.

Fixpoint cell_put (c : cell) (k : jsstring) (v : hval) : cell :=
  match c with
  | [] => [(k, v)]
  | (k', v') :: c' =>
      if decide (k' = k) then (k, v) :: c' else (k', v') :: cell_put c' k v
  end.

(** [o[k] = v]; as for [obj_set], the key [__proto__] adds no own
    property. *)
Definition cell_set (c : cell) (k : jsstring) (v : hval) : cell :=
  if decide (k = js "__proto__") then c else cell_put c k v.

(** A computation on the heap that returns or throws. *)
Definition M (A : Type) : Type := list cell -> result A * list cell.

Definition unit_M {A : Type} (a : A) : M A := fun h => (Ok a, h).

Definition bind_M {A B : Type} (m : M A) (k : A -> M B) : M B :=
  fun h =>
    match m h with
    | (Ok a, h') => k a h'
    | (Throw e, h') => (Throw e, h')
    end.

Definition lift {A : Type} (r : result A) : M A := fun h => (r, h).

(** A new object: its place is the next free one. *)
Definition alloc (c : cell) : M nat := fun h => (Ok (length h), h ++ [c]).

(** [o.k] and [o[k] = v] on the object at [l]. *)
Definition get_prop (l : nat) (k : jsstring) : M hval :=
  fun h =>
    match h !! l with
    | Some c => (Ok (cell_get c k), h)
    | None => (Throw Unsupported, h)
    end.

Definition set_prop (l : nat) (k : jsstring) (v : hval) : M unit :=
  fun h =>
    match h !! l with
    | Some c => (Ok tt, <[l := cell_set c k v]> h)
    | None => (Throw Unsupported, h)
    end.

(** [req.query.k]: the request holds what the query parser stored. *)
Definition read (rq : nat) (k : string) : M qvalue :=
  bind_M (get_prop rq (js k)) (fun h =>
  lift (match h with HQ v => Ok v | HV _ => Throw Unsupported end)).

(** The regular-expression literal is evaluated at each call and makes
    a new RegExp object, its [lastIndex] 0; the pattern has neither
    the flag [g] nor [y], so [match] starts at 0 whatever [lastIndex]
    is and does not write it. The arguments of a call are evaluated
    before the call is found to have no function to call. *)
Definition parseNumericFilter_h (filterStr : qvalue) : M value :=
  if negb (truthy_q filterStr) then unit_M VNull
  else
    bind_M (alloc [(js "lastIndex", HV (VNum (num 0)))]) (fun _ =>
    bind_M (lift (str_match filterStr numeric_re)) (fun m =>
    match m with
    | None => unit_M VNull
    | Some m =>
        let op := match m !! 1%nat with
                  | Some (c :: o) => c :: o
                  | _ => js "="
                  end in
        let val := match m !! 2%nat with
                   | Some s => parseFloat s
                   | None => NaN
                   end in
        if decide (op = js ">") then unit_M (VObj [(js "$gt", VNum val)])
        else if decide (op = js "<") then unit_M (VObj [(js "$lt", VNum val)])
        else if decide (op = js ">=") then unit_M (VObj [(js "$gte", VNum val)])
        else if decide (op = js "<=") then unit_M (VObj [(js "$lte", VNum val)])
        else unit_M (VObj [(js "$eq", VNum val)])
    end)).

(** What [getRecipes] hands over: where the filter and the sort are,
    and the page and the limit. *)
Record heap_spec : Type := HeapSpec {
  hs_filter : nat;
  hs_sort : nat;
  hs_page : number;
  hs_limit : number
}.

Definition getRecipes_h (rq : nat) : M heap_spec :=
  bind_M (read rq "page") (fun v =>
  bind_M (lift (parseInt v)) (fun page =>
  let page := or_number page (num 1) in
  bind_M (read rq "limit") (fun v =>
  bind_M (lift (parseInt v)) (fun limit =>
  let limit := or_number limit (num 10) in
  bind_M (alloc []) (fun sortBy =>
  bind_M (read rq "sort") (fun v =>
  bind_M (if truthy_q v then
            bind_M (read rq "sort") (fun v =>
            bind_M (lift (str_split v 58)) (fun parts =>
            let field := match parts !! 0%nat with
                         | Some f => f
                         | None => js "undefined"
                         end in
            let dir := if decide (parts !! 1%nat = Some (js "asc"))
                       then num 1 else num (-1) in
            bind_M (set_prop sortBy field (HV (VNum dir))) (fun _ =>
            unit_M sortBy)))
          else alloc [(js "rating", HV (VNum (num (-1))))]) (fun sortBy =>
  bind_M (alloc []) (fun filter =>
  bind_M (read rq "title") (fun v =>
  bind_M (if truthy_q v then
            bind_M (read rq "title") (fun t =>
            set_prop filter (js "title")
              (HV (VObj [(js "$regex", of_q t);
                         (js "$options", VStr (js "i"))])))
          else unit_M tt) (fun _ =>
  bind_M (read rq "cuisine") (fun v =>
  bind_M (if truthy_q v then
            bind_M (read rq "cuisine") (fun c =>
            set_prop filter (js "cuisine") (HQ c))
          else unit_M tt) (fun _ =>
  bind_M (read rq "rating") (fun v =>
  bind_M (if truthy_q v then
            bind_M (read rq "rating") (fun r =>
            bind_M (parseNumericFilter_h r) (fun parsed =>
            if truthy parsed then set_prop filter (js "rating") (HV parsed)
            else unit_M tt))
          else unit_M tt) (fun _ =>
  bind_M (read rq "total_time") (fun v =>
  bind_M (if truthy_q v then
            bind_M (read rq "total_time") (fun r =>
            bind_M (parseNumericFilter_h r) (fun parsed =>
            if truthy parsed then set_prop filter (js "total_time") (HV parsed)
            else unit_M tt))
          else unit_M tt) (fun _ =>
  bind_M (read rq "calories") (fun v =>
  bind_M (if truthy_q v then
            bind_M (read rq "calories") (fun r =>
            bind_M (parseNumericFilter_h r) (fun parsed =>
            if truthy parsed then
              let operator := first_key parsed in
              let value := get parsed operator in
              set_prop filter (js "$expr")
                (HV (VObj [(operator, VArr [calories_token; value])]))
            else unit_M tt))
          else unit_M tt) (fun _ =>
  unit_M (HeapSpec filter sortBy page limit))))))))))))))))))).

(** The object at [rq] holds the mapping [q], as the query parser
    built it. *)
Definition holds_request (h : list cell) (rq : nat) (q : gmap jsstring qvalue)
    : Prop :=
  exists c, h !! rq = Some c /\
            forall k, cell_get c k = HQ (default QUndef (q !! k)).

(** The Query Spec a heap spec stands for in a heap: the properties of
    its filter and of its sort, with its page and limit. *)
Definition spec_at (h : list cell) (s : heap_spec) : option query_spec :=
  match h !! hs_filter s, h !! hs_sort s with
  | Some f, Some o =>
      Some (QuerySpec (cell_obj f) (cell_obj o) (hs_page s) (hs_limit s))
  | _, _ => None
  end.

(** The request object the query parser builds for a mapping of
    strings. *)
Definition request_cell (l : list (string * string)) : cell :=
  List.map (fun kv => (js (fst kv), HQ (QStr (js (snd kv))))) l.

(** A step on the filter at [fl]: the heap grows, the filter becomes
    [f'], and nothing else changes. *)
Definition stepped (new new' : list cell) (fl : nat) (f' : cell) : Prop :=
  new' !! fl = Some f' /\
  (length new <= length new')%nat /\
  forall l, l <> fl -> (l < length new)%nat -> new' !! l = new !! l.

(** ** Further definitions: requests of any shape *)

(** An array or an object: a value that is truthy and has neither
    [match] nor [split]. *)
Definition is_compound (v : qvalue) : bool :=
  match v with QArr _ | QObj _ => true | _ => false end.

(** The parameters on which [getRecipes] calls a string method, in the
    order in which it reads them; [searchRecipes] reads all but the
    first. *)
Definition method_parameters : list string :=
  ["sort"; "rating"; "total_time"; "calories"]%string.

(** The parameters [getRecipes] converts to a string, and the values
    that conversion throws on: an object with an own property
    [toString], and an array that holds such a value. *)
Definition converted_parameters : list string := ["page"; "limit"]%string.

Fixpoint unprintable (v : qvalue) : bool :=
  match v with
  | QObj o => has_own o (js "toString")
  | QArr l => existsb unprintable l
  | _ => false
  end.

(** The Number is zero or above: a finite one without sign, or the
    positive infinity. *)
Definition nonnegative (x : number) : Prop :=
  (exists m e, x = Fin false m e) \/ x = Inf false.

(** The code units a text of the grammar can start with: those of the
    operators, white space and the digits. *)
Definition can_start (c : N) : bool :=
  ((c =? 60) || (c =? 61) || (c =? 62))%N || is_space c || is_digit c.

(** A text [parseInt] reads an integer from: white space, an optional
    sign, digits, and anything that does not go on with a digit; the
    digits are not the [0] of a prefix [0x]. *)
Definition is_x (c : N) : bool := ((c =? 120) || (c =? 88))%N.

Definition no_hex_prefix (ds rest : jsstring) : Prop :=
  ds = [48%N] -> stops is_x rest.

Definition integer_text (s ws sign ds rest : jsstring) : Prop :=
  s = ws ++ sign ++ ds ++ rest /\ all is_space ws /\
  (sign = [] \/ sign = js "-" \/ sign = js "+") /\
  digits ds /\ stops is_digit rest /\ no_hex_prefix ds rest.

(** What [page] and [limit] are for such a text: the default when the
    digits are worth zero, the written integer with its sign
    otherwise. *)
Definition signed_page (sign ds : jsstring) (dflt : Z) : number :=
  if decide (digits_val ds = 0) then num dflt
  else binary64 (bool_decide (sign = js "-")) (digits_val ds) 1.

(** A text [parseInt] reads in radix 16: white space, an optional
    sign, the prefix [0x] or [0X], hexadecimal digits, and anything that
    does not go on with one. *)
Definition hex_text (s ws sign hs rest : jsstring) (x : N) : Prop :=
  s = ws ++ sign ++ 48%N :: x :: hs ++ rest /\ all is_space ws /\
  (sign = [] \/ sign = js "-" \/ sign = js "+") /\
  is_x x = true /\ hs <> [] /\ all is_hex hs /\ stops is_hex rest.

Definition signed_hex_page (sign hs : jsstring) (dflt : Z) : number :=
  if decide (hex_digits_val hs = 0) then num dflt
  else binary64 (bool_decide (sign = js "-")) (hex_digits_val hs) 1.

(** 309 nines: a run of digits worth more than [2^1024]. *)
Definition nines : jsstring := List.repeat 57%N 309.

(** What the loop of [loadRecipes] leaves in a numeric field that held
    [v]. *)
Definition loaded_from (StringToNumber : jsstring -> number)
    (ObjectToNumber : value -> result number) (v w : value) : Prop :=
  if is_str v (js "NaN") || is_undefined v || is_null v then w = VNull
  else exists n, Number StringToNumber ObjectToNumber v = Ok n /\
                 w = if isNaN n then VNull else VNum n.

(** A record none of whose numeric fields is the empty string. *)
Definition no_empty_field (r : obj) : Prop :=
  forall f, f ∈ numeric_fields -> obj_get r f <> VStr [].

(** A handler run on the records of a list one by one, in order, up to
    the first that throws. *)
Fixpoint each_record (f : obj -> result obj) (l : list obj)
    : result (list obj) :=
  match l with
  | [] => Ok []
  | r :: l' => c ← f r; cs ← each_record f l'; Ok (c :: cs)
  end.

(** A loop body that changes the field it is given and no other, the
    new value standing in relation [P] with the old one. *)
Definition updates (P : value -> value -> Prop)
    (body : obj -> jsstring -> result obj) : Prop :=
  forall o f o', f <> js "__proto__" -> body o f = Ok o' ->
    P (obj_get o f) (obj_get o' f) /\
    forall g, g <> f -> obj_get o' g = obj_get o g.

(** ** Arithmetic on Numbers, for [(page - 1) * limit]

    Sums and products of Numbers are the exact results rounded to
    binary64. [scaled neg z e] is the Number for [z * 2^e] with sign
    [neg]. *)
Definition number_neg (x : number) : number :=
  match x with
  | NaN => NaN
  | Inf n => Inf (negb n)
  | Fin n m e => Fin (negb n) m e
  end.

Definition scaled (neg : bool) (z e : Z) : number :=
  binary64 neg (z * 2 ^ Z.max e 0) (2 ^ Z.max (- e) 0).

(** An exact sum of zero is [+0], unless both operands are [-0]. *)
Definition number_add (x y : number) : number :=
  match x, y with
  | NaN, _ | _, NaN => NaN
  | Inf a, Inf b => if Bool.eqb a b then Inf a else NaN
  | Inf a, Fin _ _ _ => Inf a
  | Fin _ _ _, Inf b => Inf b
  | Fin a m1 e1, Fin b m2 e2 =>
      let e := Z.min e1 e2 in
      let s := signed_mantissa a m1 * 2 ^ (e1 - e)
               + signed_mantissa b m2 * 2 ^ (e2 - e) in
      if s =? 0 then Fin (a && b) 0 emin else scaled (s <? 0) (Z.abs s) e
  end.

Definition number_sub (x y : number) : number := number_add x (number_neg y).

(** Infinity times zero is NaN; the sign of a product is the exclusive
    or of the signs. *)
Definition number_mul (x y : number) : number :=
  match x, y with
  | NaN, _ | _, NaN => NaN
  | Inf a, Inf b => Inf (xorb a b)
  | Inf a, Fin b m _ | Fin b m _, Inf a =>
      if m =? 0 then NaN else Inf (xorb a b)
  | Fin a m1 e1, Fin b m2 e2 => scaled (xorb a b) (m1 * m2) (e1 + e2)
  end.

(** The argument [getRecipes] gives to [skip]: [(page - 1) * limit]. *)
Definition skip_of (spec : query_spec) : number :=
  number_mul (number_sub (qs_page spec) (num 1)) (qs_limit spec).

(** The integer a sign and a run of digits write. *)
Definition signed_val (sign ds : jsstring) : Z :=
  if bool_decide (sign = js "-") then - digits_val ds else digits_val ds.

(** * Properties *)

(** ** The matcher on character classes *)

Lemma star_loop_cls (p : N -> bool) (k : cont) (w : jsstring) :
  forall fuel i s c R,
    all p w -> stops p s -> (length (w ++ s) <= fuel)%nat ->
    k (i + length w)%nat s c = Some R ->
    star_loop (fun i' s' c' k' =>
                 rmatch (Cls p) i' s' (clear (groups (Cls p)) c') k')
      k fuel i (w ++ s) c = Some R.
Proof.
  induction w as [|x w IH]; intros fuel i s c R Hw Hs Hf Hk.
  - rewrite Nat.add_0_r in Hk. destruct fuel as [|fuel]; simpl; [done|].
    destruct s as [|y s]; simpl in *; [done|]. by rewrite Hs.
  - inversion Hw as [|? ? Hx Hw']; subst.
    destruct fuel as [|fuel]; simpl in Hf; [lia|].
    simpl. rewrite Hx.
    assert (Hlt : (length (w ++ s) <? S (length (w ++ s)))%nat = true)
      by (apply Nat.ltb_lt; lia).
    rewrite Hlt.
    specialize (IH fuel (S i) s c R Hw' Hs ltac:(lia)).
    simpl in IH. rewrite IH; [done|].
    simpl in Hk. by rewrite Nat.add_succ_r in Hk.
Qed.

Lemma rmatch_star_cls (p : N -> bool) (k : cont) w i s c R :
  all p w -> stops p s ->
  k (i + length w)%nat s c = Some R ->
  rmatch (Star (Cls p)) i (w ++ s) c k = Some R.
Proof. intros. by apply star_loop_cls. Qed.

Lemma rmatch_plus_cls (p : N -> bool) (k : cont) w i s c R :
  w <> [] -> all p w -> stops p s ->
  k (i + length w)%nat s c = Some R ->
  rmatch (Plus (Cls p)) i (w ++ s) c k = Some R.
Proof.
  intros Hne Hw Hs Hk. destruct w as [|x w]; [done|].
  inversion Hw as [|? ? Hx Hw']; subst.
  change (rmatch (Plus (Cls p)) i ((x :: w) ++ s) c k)
    with (if p x then rmatch (Star (Cls p)) (S i) (w ++ s) c k else None).
  rewrite Hx. apply rmatch_star_cls; auto.
  by replace (S i + length w)%nat with (i + length (x :: w))%nat
    by (simpl; lia).
Qed.

(** ** The matcher on the pattern of a numeric filter *)

Lemma rmatch_number (k : cont) ip fp i c R :
  digits ip -> fraction fp ->
  k (i + length (decimal ip fp))%nat [] (number_captures c ip fp) = Some R ->
  rmatch (Seq re_number Eol) i (decimal ip fp) c k = Some R.
Proof.
  intros [Hne Hip] Hfp Hk.
  change (rmatch (Seq re_number Eol) i (decimal ip fp) c k)
    with (rmatch (Plus (Cls is_digit)) i (decimal ip fp) c
            (fun i1 s1 c1 =>
               rmatch (Opt (Group 3 (Seq (Chr 46) (Plus (Cls is_digit)))))
                 i1 s1 c1
                 (fun i2 s2 c2 =>
                    rmatch Eol i2 s2
                      (<[2%nat := take (i2 - i) (decimal ip fp)]> c2) k))).
  unfold decimal at 1. apply rmatch_plus_cls; auto.
  { destruct fp; simpl; auto. }
  destruct fp as [f|].
  - destruct Hfp as [Hnf Hf].
    change (rmatch (Opt (Group 3 (Seq (Chr 46) (Plus (Cls is_digit)))))
              (i + length ip) (46%N :: f) c
              (fun i2 s2 c2 =>
                 rmatch Eol i2 s2
                   (<[2%nat := take (i2 - i) (decimal ip (Some f))]> c2) k))
      with (orelse
              (rmatch (Plus (Cls is_digit)) (S (i + length ip)) f
                 (delete 3%nat c)
                 (fun i3 s3 c3 =>
                    if (length s3 <? length (46%N :: f))%nat then
                      rmatch Eol i3 s3
                        (<[2%nat := take (i3 - i) (decimal ip (Some f))]>
                           (<[3%nat := take (i3 - (i + length ip)) (46%N :: f)]> c3)) k
                    else None))
              (rmatch Eol (i + length ip) (46%N :: f)
                 (<[2%nat := take (i + length ip - i) (decimal ip (Some f))]> c) k)).
    rewrite <- (app_nil_r f) at 1.
    erewrite rmatch_plus_cls; eauto; [exact I|].
    simpl length at 1. simpl.
    rewrite !take_ge; [|simpl; lia|unfold decimal; rewrite length_app; simpl; lia].
    unfold number_captures in Hk.
    replace (S (i + length ip + length f))
      with (i + length (decimal ip (Some f)))%nat; [done|].
    unfold decimal. rewrite length_app. simpl. lia.
  - simpl. rewrite take_ge; [|unfold decimal; rewrite length_app; simpl; lia].
    unfold number_captures in Hk. unfold decimal in Hk at 1.
    rewrite length_app in Hk. simpl in Hk. by rewrite Nat.add_0_r in Hk.
Qed.

Lemma digit_not_space x : is_digit x = true -> is_space x = false.
Proof.
  unfold is_digit, is_space. intros H.
  destruct (_ || _) eqn:E in |- *; [|done]. exfalso. bool_to_prop. lia.
Qed.

Lemma plain_head_tail ws ip fp :
  all is_space ws -> digits ip -> plain_head (ws ++ decimal ip fp).
Proof.
  intros Hws [Hne Hip]. destruct ws as [|x ws]; simpl.
  - destruct ip as [|y ip]; [done|]. inversion Hip; subst. simpl. auto.
  - inversion Hws; subst. auto.
Qed.

Lemma plain_head_not_operator x s :
  plain_head (x :: s) -> x <> 60%N /\ x <> 61%N /\ x <> 62%N.
Proof.
  simpl. unfold is_space, is_digit. intros H. bool_to_prop. lia.
Qed.

Lemma rmatch_operator (k : cont) op s i c R :
  op ∈ operators -> plain_head s ->
  k (i + length op)%nat s (<[1%nat := op]> (delete 1%nat c)) = Some R ->
  rmatch (Opt re_operator) i (op ++ s) c k = Some R.
Proof.
  intros Hop Hs Hk. destruct s as [|x s]; [done|].
  apply plain_head_not_operator in Hs as (H60 & H61 & H62).
  apply N.eqb_neq in H60, H61, H62.
  assert (Hle0 : (length s <=? length s)%nat = true)
    by (apply Nat.leb_le; lia).
  assert (Hle1 : (length s <=? S (length s))%nat = true)
    by (apply Nat.leb_le; lia).
  unfold operators, re_operator in *. js_eval.
  rewrite !elem_of_cons, elem_of_nil in Hop.
  destruct Hop as [->|[->|[->|[->|[->|[]]]]]]; cbn in Hk |- *;
    rewrite ?H60, ?H61, ?H62; cbn; rewrite ?Hle0, ?Hle1;
    try (replace (S (S i) - i)%nat with 2%nat by lia);
    try (replace (S i - i)%nat with 1%nat by lia);
    try (replace (i + 2)%nat with (S (S i)) in Hk by lia);
    try (replace (i + 1)%nat with (S i) in Hk by lia);
    cbn; by rewrite Hk.
Qed.

Lemma rmatch_no_operator (k : cont) s i c :
  plain_head s -> rmatch (Opt re_operator) i s c k = k i s c.
Proof.
  intros Hs. destruct s as [|x s]; [done|].
  apply plain_head_not_operator in Hs as (H60 & H61 & H62).
  apply N.eqb_neq in H60, H61, H62.
  unfold re_operator. js_eval. cbn. by rewrite ?H60, ?H61, ?H62.
Qed.

Lemma rmatch_tail (k : cont) ws ip fp i c R :
  all is_space ws -> digits ip -> fraction fp ->
  k (i + length (ws ++ decimal ip fp))%nat [] (number_captures c ip fp)
    = Some R ->
  rmatch (Seq (Star (Cls is_space)) (Seq re_number Eol)) i
    (ws ++ decimal ip fp) c k = Some R.
Proof.
  intros Hws Hip Hfp Hk.
  change (rmatch (Star (Cls is_space)) i (ws ++ decimal ip fp) c
            (fun i1 s1 c1 => rmatch (Seq re_number Eol) i1 s1 c1 k) = Some R).
  apply rmatch_star_cls; auto.
  - destruct Hip as [Hne Hip]. destruct ip as [|y ip]; [done|].
    inversion Hip; subst. simpl. by apply digit_not_space.
  - apply rmatch_number; auto.
    by rewrite length_app, Nat.add_assoc in Hk.
Qed.

(** The pattern matches every text of the grammar, at index 0, and its
    groups capture the operator and the number. *)
Lemma exec_numeric_re op ws ip fp :
  op = [] \/ op ∈ operators ->
  all is_space ws -> digits ip -> fraction fp ->
  exec numeric_re (op ++ ws ++ decimal ip fp)
  = Some (<[0%nat := op ++ ws ++ decimal ip fp]>
            (number_captures (operator_captures op) ip fp)).
Proof.
  intros Hop Hws Hip Hfp.
  pose proof (plain_head_tail ws ip fp Hws Hip) as Hhead.
  unfold exec.
  assert (H : rmatch numeric_re 0 (op ++ ws ++ decimal ip fp) ∅
                (fun i' _ c' =>
                   Some (<[0%nat := take (i' - 0) (op ++ ws ++ decimal ip fp)]> c'))
              = Some (<[0%nat := op ++ ws ++ decimal ip fp]>
                        (number_captures (operator_captures op) ip fp))).
  { change (rmatch (Opt re_operator) 0 (op ++ ws ++ decimal ip fp) ∅
              (fun i1 s1 c1 =>
                 rmatch (Seq (Star (Cls is_space)) (Seq re_number Eol)) i1 s1 c1
                   (fun i' _ c' =>
                      Some (<[0%nat := take (i' - 0)
                                         (op ++ ws ++ decimal ip fp)]> c')))
            = Some (<[0%nat := op ++ ws ++ decimal ip fp]>
                      (number_captures (operator_captures op) ip fp))).
    destruct Hop as [->|Hop].
    - rewrite rmatch_no_operator by done. simpl app.
      apply rmatch_tail; auto. simpl. by rewrite take_ge by lia.
    - apply rmatch_operator; auto. apply rmatch_tail; auto.
      rewrite take_ge by (rewrite !length_app; lia).
      rewrite delete_empty.
      assert (operator_captures op = <[1%nat := op]> ∅) as ->; [|done].
      unfold operators in Hop. rewrite !elem_of_cons, elem_of_nil in Hop.
      by destruct Hop as [->|[->|[->|[->|[->|[]]]]]]. }
  destruct (op ++ ws ++ decimal ip fp) eqn:E; simpl; simpl in H;
    by rewrite H.
Qed.

(** ** [parseFloat] on the text of a decimal number *)

Lemma span_all (p : N -> bool) w s :
  all p w -> stops p s -> span p (w ++ s) = (w, s).
Proof.
  induction w as [|x w IH]; intros Hw Hs.
  - destruct s as [|y s]; simpl in *; [done|]. by rewrite Hs.
  - inversion Hw as [|? ? Hx Hw']; subst. simpl. rewrite Hx.
    by rewrite IH.
Qed.

Lemma starts_with_head a p x s :
  a <> x -> starts_with (a :: p) (x :: s) = false.
Proof.
  intros H. cbn [starts_with]. by destruct (N.eqb_spec a x).
Qed.

Lemma digit_code x : is_digit x = true -> (48 <= x <= 57)%N.
Proof. unfold is_digit. intros H. bool_to_prop. lia. Qed.

Lemma parseFloat_decimal ip fp :
  digits ip -> fraction fp ->
  parseFloat (decimal ip fp)
  = binary64 false (decimal_num ip fp) (decimal_den fp).
Proof.
  intros [Hne Hip] Hfp. destruct ip as [|x ip]; [done|].
  inversion Hip as [|? ? Hx Hip']; subst.
  pose proof (digit_code x Hx) as Hc.
  unfold parseFloat.
  assert (Hsp : span is_space (decimal (x :: ip) fp) = ([], decimal (x :: ip) fp)).
  { simpl. by rewrite (digit_not_space x Hx). }
  rewrite Hsp. simpl snd.
  assert (Hsg : strip_sign (decimal (x :: ip) fp) = (false, decimal (x :: ip) fp)).
  { simpl. destruct (N.eqb_spec x 45); [lia|].
    destruct (N.eqb_spec x 43); [lia|]. done. }
  rewrite Hsg.
  assert (Hinf : starts_with (js "Infinity") (decimal (x :: ip) fp) = false).
  { js_eval. apply starts_with_head. lia. }
  rewrite Hinf.
  unfold decimal_num, decimal_den, decimal.
  destruct fp as [f|]; simpl default.
  - destruct Hfp as [Hnf Hf].
    rewrite (span_all is_digit (x :: ip) (46%N :: f)) by done.
    rewrite N.eqb_refl.
    rewrite <- (app_nil_r f) at 1. rewrite (span_all is_digit f []) by done.
    destruct f as [|y f]; [done|]. simpl app. simpl length.
    destruct (Z.leb_spec 0 (0 - Z.of_nat (S (length f)))); [lia|].
    f_equal; lia.
  - rewrite (span_all is_digit (x :: ip) []) by done.
    rewrite app_nil_r. simpl. f_equal; lia.
Qed.

(** ** Whatever the matcher accepts is a word of the pattern *)

Lemma orelse_Some {A} (x y : option A) (a : A) :
  orelse x y = Some a -> x = Some a \/ y = Some a.
Proof. destruct x; simpl; auto. Qed.

Lemma star_loop_sound step r (k : cont) :
  sound step r ->
  forall fuel i s c R,
    star_loop step k fuel i s c = Some R ->
    exists w s' c', s = w ++ s' /\ matches (Star r) i w s' /\
                    k (i + length w)%nat s' c' = Some R.
Proof.
  intros Hstep. induction fuel as [|fuel IH]; intros i s c R H; simpl in H.
  - exists [], s, c. rewrite Nat.add_0_r. split_and!; auto. constructor.
  - apply orelse_Some in H as [H|H].
    + apply Hstep in H as (w1 & s1 & c1 & -> & Hm & H).
      destruct (length s1 <? length (w1 ++ s1))%nat; [|done].
      apply IH in H as (w2 & s2 & c2 & -> & Hm2 & H).
      exists (w1 ++ w2), s2, c2. rewrite <- app_assoc. split_and!; auto.
      * by constructor.
      * by rewrite length_app, Nat.add_assoc.
    + exists [], s, c. rewrite Nat.add_0_r. split_and!; auto. constructor.
Qed.

Lemma rmatch_sound r : sound (rmatch r) r.
Proof.
  induction r as [|a|p|r1 IH1 r2 IH2|r1 IH1 r2 IH2|r1 IH1|r1 IH1|n r1 IH1| |];
    intros i s c k R H; simpl in H.
  - exists [], s, c. rewrite Nat.add_0_r. split_and!; auto. constructor.
  - destruct s as [|x s]; [done|]. destruct (N.eqb_spec x a); [subst|done].
    exists [a], s, c. rewrite Nat.add_1_r. split_and!; auto. constructor.
  - destruct s as [|x s]; [done|]. destruct (p x) eqn:Hp; [|done].
    exists [x], s, c. rewrite Nat.add_1_r. split_and!; auto. by constructor.
  - apply IH1 in H as (w1 & s1 & c1 & -> & Hm1 & H).
    apply IH2 in H as (w2 & s2 & c2 & -> & Hm2 & H).
    exists (w1 ++ w2), s2, c2. rewrite <- app_assoc. split_and!; auto.
    + by constructor.
    + by rewrite length_app, Nat.add_assoc.
  - apply orelse_Some in H as [H|H].
    + apply IH1 in H as (w & s' & c' & -> & Hm & H).
      exists w, s', c'. split_and!; auto. by apply M_AltL.
    + apply IH2 in H as (w & s' & c' & -> & Hm & H).
      exists w, s', c'. split_and!; auto. by apply M_AltR.
  - apply orelse_Some in H as [H|H].
    + apply IH1 in H as (w & s' & c' & -> & Hm & H).
      destruct (length s' <? length (w ++ s'))%nat; [|done].
      exists w, s', c'. split_and!; auto. by apply M_OptSome.
    + exists [], s, c. rewrite Nat.add_0_r. split_and!; auto. constructor.
  - eapply (star_loop_sound _ r1) in H; [done|].
    intros i' s' c' k' R' H'. by apply IH1 in H'.
  - apply IH1 in H as (w & s' & c' & -> & Hm & H).
    eexists w, s', _. split_and!; eauto. by constructor.
  - destruct i; [|done]. exists [], s, c. split_and!; auto. constructor.
  - destruct s; [|done]. exists [], [], c. rewrite Nat.add_0_r.
    split_and!; auto. constructor.
Qed.

(** ** The words of the pattern of a numeric filter *)

Lemma matches_Seq r1 r2 i w rest :
  matches (Seq r1 r2) i w rest ->
  exists w1 w2, w = w1 ++ w2 /\ matches r1 i w1 (w2 ++ rest) /\
                matches r2 (i + length w1)%nat w2 rest.
Proof. intros H. inversion H; subst. eauto. Qed.

Lemma matches_Alt r1 r2 i w rest :
  matches (Alt r1 r2) i w rest -> matches r1 i w rest \/ matches r2 i w rest.
Proof. intros H. inversion H; subst; auto. Qed.

Lemma matches_Opt r i w rest :
  matches (Opt r) i w rest -> w = [] \/ matches r i w rest.
Proof. intros H. inversion H; subst; auto. Qed.

Lemma matches_Group n r i w rest :
  matches (Group n r) i w rest -> matches r i w rest.
Proof. intros H. by inversion H; subst. Qed.

Lemma matches_Chr a i w rest : matches (Chr a) i w rest -> w = [a].
Proof. intros H. by inversion H; subst. Qed.

Lemma matches_Cls p i w rest :
  matches (Cls p) i w rest -> exists x, w = [x] /\ p x = true.
Proof. intros H. inversion H; subst. eauto. Qed.

Lemma matches_Eol i w rest : matches Eol i w rest -> w = [] /\ rest = [].
Proof. intros H. by inversion H; subst. Qed.

Lemma matches_Bol i w rest : matches Bol i w rest -> w = [].
Proof. intros H. by inversion H; subst. Qed.

Lemma matches_Lit l i w rest : matches (Lit l) i w rest -> w = l.
Proof.
  revert i w. induction l as [|a l IH]; intros i w H; simpl in H.
  - by inversion H.
  - apply matches_Seq in H as (w1 & w2 & -> & H1 & H2).
    apply matches_Chr in H1 as ->. apply IH in H2. by subst.
Qed.

Lemma matches_star_cls p i w rest :
  matches (Star (Cls p)) i w rest -> all p w.
Proof.
  remember (Star (Cls p)) as r eqn:Hr. intros H.
  induction H; try discriminate; inversion Hr; subst.
  - constructor.
  - match goal with
    | H : matches (Cls p) _ _ _ |- _ =>
        apply matches_Cls in H as (x & -> & Hx)
    end.
    constructor; auto. by apply IHmatches2.
Qed.

Lemma matches_plus_cls p i w rest :
  matches (Plus (Cls p)) i w rest -> w <> [] /\ all p w.
Proof.
  intros H. apply matches_Seq in H as (w1 & w2 & -> & H1 & H2).
  apply matches_Cls in H1 as (x & -> & Hx). apply matches_star_cls in H2.
  split; [done|]. by constructor.
Qed.

Lemma matches_operator i w rest :
  matches re_operator i w rest -> w ∈ operators.
Proof.
  unfold re_operator, operators. intros H. apply matches_Group in H.
  rewrite !elem_of_cons.
  repeat (apply matches_Alt in H as [H|H];
          [apply matches_Lit in H; auto 10|]).
  apply matches_Lit in H; auto 10.
Qed.

Lemma matches_number i w rest :
  matches re_number i w rest ->
  exists ip fp, w = decimal ip fp /\ digits ip /\ fraction fp.
Proof.
  unfold re_number. intros H. apply matches_Group in H.
  apply matches_Seq in H as (w1 & w2 & -> & Hi & Hf).
  apply matches_plus_cls in Hi.
  apply matches_Opt in Hf as [->|Hf].
  - by exists w1, None.
  - apply matches_Group in Hf.
    apply matches_Seq in Hf as (v1 & v2 & -> & Hd & Hp).
    apply matches_Chr in Hd as ->. apply matches_plus_cls in Hp.
    by exists w1, (Some v2).
Qed.

Lemma matches_numeric_re i w rest :
  matches numeric_re i w rest -> in_grammar w /\ rest = [].
Proof.
  unfold numeric_re. intros H.
  apply matches_Seq in H as (w0 & w1 & -> & Hb & H).
  apply matches_Bol in Hb as ->.
  apply matches_Seq in H as (wo & w2 & -> & Ho & H).
  apply matches_Seq in H as (ws & w3 & -> & Hs & H).
  apply matches_Seq in H as (wn & w4 & -> & Hn & He).
  apply matches_Eol in He as [-> ->].
  apply matches_star_cls in Hs.
  apply matches_number in Hn as (ip & fp & -> & Hip & Hfp).
  split; [|done]. exists wo, ws, ip, fp. rewrite app_nil_r.
  split_and!; auto.
  apply matches_Opt in Ho as [->|Ho]; [by left|right].
  by eapply matches_operator.
Qed.

Lemma exec_from_unfold r i s :
  exec_from r i s
  = orelse (rmatch r i s ∅ (fun i' _ c => Some (<[0%nat := take (i' - i) s]> c)))
      (match s with [] => None | _ :: s' => exec_from r (S i) s' end).
Proof. by destruct s. Qed.

Lemma exec_from_numeric_re_later s :
  forall i, exec_from numeric_re (S i) s = None.
Proof.
  induction s as [|x s IH]; intros i; [done|].
  change (exec_from numeric_re (S (S i)) s = None). apply IH.
Qed.

(** The pattern matches a string only if the whole string is a text of
    the grammar. *)
Lemma exec_numeric_re_sound s m :
  exec numeric_re s = Some m -> in_grammar s.
Proof.
  unfold exec. intros H.
  assert (H' : rmatch numeric_re 0 s ∅
                 (fun i' _ c => Some (<[0%nat := take (i' - 0) s]> c)) = Some m).
  { rewrite exec_from_unfold in H. apply orelse_Some in H as [H|H]; [done|].
    destruct s as [|x s]; [done|].
    by rewrite exec_from_numeric_re_later in H. }
  apply rmatch_sound in H' as (w & s' & c' & -> & Hm & _).
  apply matches_numeric_re in Hm as [Hg ->]. by rewrite app_nil_r.
Qed.

(** ** Rounding to binary64 *)

Section Binary64.

Local Open Scope Q_scope.

Lemma inject_pos d : (0 < d)%Z -> 0 < inject_Z d.
Proof. intros H. change 0 with (inject_Z 0). by rewrite <- Zlt_Qlt. Qed.

Lemma two_pow_pos l : 0 < 2 ^ l.
Proof. by apply Qpower_0_lt. Qed.

Lemma two_pow_add a b : 2 ^ (a + b) == 2 ^ a * 2 ^ b.
Proof. by apply Qpower_plus. Qed.

Lemma two_pow_le a b : (a <= b)%Z -> 2 ^ a <= 2 ^ b.
Proof. intros H. by apply Qpower_le_compat_l. Qed.

Lemma two_pow_lt a b : (a < b)%Z -> 2 ^ a < 2 ^ b.
Proof. intros H. by apply Qpower_lt_compat_l. Qed.

Lemma two_pow_lt_inv a b : 2 ^ a < 2 ^ b -> (a < b)%Z.
Proof. intros H. by apply Qpower_lt_compat_l_inv in H. Qed.

Lemma inject_two_pow l : (0 <= l)%Z -> inject_Z (2 ^ l) == 2 ^ l.
Proof. intros H. by rewrite Zpower_Qpower. Qed.

Lemma two_pow_opp l : 2 ^ l * 2 ^ (- l) == 1.
Proof. rewrite <- two_pow_add. by replace (l + - l)%Z with 0%Z by lia. Qed.

(** The comparison [ilog2_ratio] makes says whether [2^l <= n / d]. *)
Lemma ratio_test n d l :
  (if (0 <=? l)%Z then (d * 2 ^ l <=? n)%Z else (d <=? n * 2 ^ (- l))%Z) = true
  <-> inject_Z d * 2 ^ l <= inject_Z n.
Proof.
  pose proof (two_pow_pos l) as Hp. pose proof (two_pow_pos (- l)) as Hp'.
  pose proof (two_pow_opp l) as Hpp.
  destruct (Z.leb_spec 0 l) as [Hl|Hl].
  - rewrite Z.leb_le, Zle_Qle, inject_Z_mult, inject_two_pow by lia. done.
  - rewrite Z.leb_le, Zle_Qle, inject_Z_mult, inject_two_pow by lia.
    split; intros H.
    + apply (Qmult_le_r _ _ (2 ^ (- l))); [done|].
      rewrite <- Qmult_assoc, Hpp. by rewrite Qmult_1_r.
    + apply (Qmult_le_compat_r _ _ (2 ^ (- l))) in H; [|lra].
      rewrite <- Qmult_assoc, Hpp in H. by rewrite Qmult_1_r in H.
Qed.

Lemma log2_bounds x :
  (0 < x)%Z -> 2 ^ Z.log2 x <= inject_Z x < 2 ^ (Z.log2 x + 1).
Proof.
  intros Hx. destruct (Z.log2_spec x Hx) as [H1 H2].
  pose proof (Z.log2_nonneg x).
  rewrite Zle_Qle, inject_two_pow in H1 by done.
  rewrite Zlt_Qlt, inject_two_pow in H2 by lia. done.
Qed.

(** [ilog2_ratio n d] is the integer part of the binary logarithm of
    [n / d]. *)
Lemma ilog2_ratio_spec n d :
  (0 < n)%Z -> (0 < d)%Z ->
  inject_Z d * 2 ^ ilog2_ratio n d <= inject_Z n
  /\ inject_Z n < inject_Z d * 2 ^ (ilog2_ratio n d + 1).
Proof.
  intros Hn Hd.
  destruct (log2_bounds n Hn) as [Hn1 Hn2].
  destruct (log2_bounds d Hd) as [Hd1 Hd2].
  set (a := Z.log2 n) in *. set (b := Z.log2 d) in *.
  assert (Hup : inject_Z n < inject_Z d * 2 ^ (a - b + 1)).
  { replace (a + 1)%Z with (b + (a - b + 1))%Z in Hn2 by lia.
    rewrite two_pow_add in Hn2.
    pose proof (two_pow_pos (a - b + 1)). pose proof (two_pow_pos b).
    eapply Qlt_le_trans; [exact Hn2|]. apply Qmult_le_compat_r; lra. }
  assert (Hlo : inject_Z d * 2 ^ (a - b - 1) <= inject_Z n).
  { replace a with ((b + 1) + (a - b - 1))%Z in Hn1 at 1 by lia.
    rewrite two_pow_add in Hn1.
    pose proof (two_pow_pos (a - b - 1)). pose proof (two_pow_pos (b + 1)).
    eapply Qle_trans; [|exact Hn1]. apply Qmult_le_compat_r; lra. }
  unfold ilog2_ratio. fold a b.
  destruct (if (0 <=? a - b)%Z then _ else _) eqn:E.
  - apply ratio_test in E. done.
  - split; [done|]. replace (a - b - 1 + 1)%Z with (a - b)%Z by lia.
    apply Qnot_le_lt. intros H. apply ratio_test in H. congruence.
Qed.

(** The logarithm is determined by the two bounds. *)
Lemma ilog2_ratio_unique n d l :
  (0 < n)%Z -> (0 < d)%Z ->
  inject_Z d * 2 ^ l <= inject_Z n -> inject_Z n < inject_Z d * 2 ^ (l + 1) ->
  ilog2_ratio n d = l.
Proof.
  intros Hn Hd H1 H2. destruct (ilog2_ratio_spec n d Hn Hd) as [H3 H4].
  pose proof (inject_pos d Hd) as HD.
  assert (Ha : 2 ^ l < 2 ^ (ilog2_ratio n d + 1)).
  { apply (Qmult_lt_l _ _ (inject_Z d)); [done|]. lra. }
  assert (Hb : 2 ^ ilog2_ratio n d < 2 ^ (l + 1)).
  { apply (Qmult_lt_l _ _ (inject_Z d)); [done|]. lra. }
  apply two_pow_lt_inv in Ha, Hb. lia.
Qed.

Lemma round_half_even_exact m den :
  (0 < den)%Z -> round_half_even (m * den) den = m.
Proof.
  intros H. unfold round_half_even.
  rewrite Z.mod_mul, Z.div_mul by lia.
  destruct (Z.compare_spec (2 * 0) den); lia.
Qed.

(** A value with a normalised mantissa comes back as it is. *)
Lemma binary64_normal n d M E :
  (0 < n)%Z -> (0 < d)%Z -> (0 < M < 2 ^ 53)%Z -> (emin <= E <= emax)%Z ->
  (2 ^ 52 <= M)%Z \/ E = emin ->
  inject_Z n == inject_Z M * 2 ^ E * inject_Z d ->
  binary64 false n d = Fin false M E.
Proof.
  intros Hn Hd HM HE Hnorm Hv.
  pose proof (inject_pos d Hd) as HD.
  assert (HM1 : inject_Z M < 2 ^ 53)
    by (rewrite <- (inject_two_pow 53) by lia; rewrite <- Zlt_Qlt; lia).
  assert (He : Z.max (ilog2_ratio n d - 52) emin = E).
  { destruct Hnorm as [Hnorm| ->].
    - assert (HM2 : 2 ^ 52 <= inject_Z M)
        by (rewrite <- (inject_two_pow 52) by lia; rewrite <- Zle_Qle; lia).
      rewrite (ilog2_ratio_unique n d (E + 52)); [lia|done..| |].
      + rewrite Hv. replace (E + 52)%Z with (52 + E)%Z by lia.
        rewrite two_pow_add. pose proof (two_pow_pos E).
        rewrite (Qmult_comm (inject_Z d)). apply Qmult_le_compat_r; [|lra].
        apply Qmult_le_compat_r; lra.
      + rewrite Hv. replace (E + 52 + 1)%Z with (53 + E)%Z by lia.
        rewrite two_pow_add. pose proof (two_pow_pos E).
        rewrite (Qmult_comm (inject_Z d)). apply Qmult_lt_compat_r; [done|].
        apply Qmult_lt_compat_r; lra.
    - destruct (ilog2_ratio_spec n d Hn Hd) as [H3 _].
      assert (Ha : 2 ^ ilog2_ratio n d < 2 ^ (53 + emin)).
      { apply (Qmult_lt_l _ _ (inject_Z d)); [done|].
        eapply Qle_lt_trans; [exact H3|]. rewrite Hv.
        rewrite two_pow_add. pose proof (two_pow_pos emin).
        rewrite (Qmult_comm (inject_Z d)). apply Qmult_lt_compat_r; [done|].
        apply Qmult_lt_compat_r; lra. }
      apply two_pow_lt_inv in Ha. lia. }
  unfold binary64. destruct (Z.eqb_spec n 0); [lia|].
  rewrite He.
  assert (Hm : (if (0 <=? E)%Z then round_half_even n (d * 2 ^ E)
                else round_half_even (n * 2 ^ (- E)) d) = M).
  { destruct (Z.leb_spec 0 E) as [Hs|Hs].
    - assert (n = M * (d * 2 ^ E))%Z as ->.
      { apply inject_Z_injective. rewrite Hv, !inject_Z_mult.
        rewrite inject_two_pow by done. ring. }
      apply round_half_even_exact.
      pose proof (Z.pow_pos_nonneg 2 E). lia.
    - assert (n * 2 ^ (- E) = M * d)%Z as ->.
      { apply inject_Z_injective. rewrite !inject_Z_mult.
        rewrite inject_two_pow by lia. rewrite Hv.
        pose proof (two_pow_opp E) as Ho.
        transitivity (inject_Z M * inject_Z d * (2 ^ E * 2 ^ (- E))); [ring|].
        rewrite Ho. ring. }
      by apply round_half_even_exact. }
  rewrite Hm. destruct (Z.eqb_spec M (2 ^ 53)); [lia|].
  destruct (Z.ltb_spec emax E); [lia|]. done.
Qed.

(** Every representable value comes back as it is. *)
Lemma binary64_exact n d :
  (0 <= n)%Z -> (0 < d)%Z ->
  representable (inject_Z n / inject_Z d) ->
  denotes (binary64 false n d) (inject_Z n / inject_Z d).
Proof.
  intros Hn Hd (M & E & HM & HE & Hv).
  pose proof (inject_pos d Hd) as HD.
  assert (Hv' : inject_Z n == inject_Z M * 2 ^ E * inject_Z d).
  { rewrite <- Hv. field. lra. }
  destruct (Z.eq_dec n 0%Z) as [->|Hn0].
  { unfold binary64. simpl. unfold value_of. simpl. unfold Qdiv. ring. }
  assert (M <> 0)%Z.
  { intros ->.
    assert (Hz : inject_Z n == inject_Z 0)
      by (rewrite Hv'; change (inject_Z 0) with 0; ring).
    apply -> inject_Z_injective in Hz. lia. }
  set (a := Z.log2 M).
  destruct (Z.log2_spec M ltac:(lia)) as [Ha1 Ha2]. fold a in Ha1, Ha2.
  assert (a <= 52)%Z.
  { destruct (Z.le_gt_cases a 52) as [|Hgt]; [done|].
    pose proof (Z.pow_le_mono_r 2 53 a ltac:(lia) ltac:(lia)). lia. }
  pose proof (Z.log2_nonneg M). fold a in H1.
  set (j := Z.min (52 - a) (E - emin)).
  assert (0 <= j)%Z by lia.
  assert (Hj : (2 ^ j <= 2 ^ (52 - a))%Z) by (apply Z.pow_le_mono_r; lia).
  assert (H53 : (2 ^ Z.succ a * 2 ^ (52 - a) = 2 ^ 53)%Z).
  { rewrite <- Z.pow_add_r by lia. f_equal. lia. }
  assert (H52 : (2 ^ a * 2 ^ (52 - a) = 2 ^ 52)%Z).
  { rewrite <- Z.pow_add_r by lia. f_equal. lia. }
  assert (0 < 2 ^ j)%Z by (apply Z.pow_pos_nonneg; lia).
  rewrite (binary64_normal n d (M * 2 ^ j) (E - j)); try lia.
  - unfold denotes, value_of. rewrite inject_Z_mult, inject_two_pow by lia.
    assert (Hs : 2 ^ E == 2 ^ j * 2 ^ (E - j)).
    { rewrite <- two_pow_add. by replace (j + (E - j))%Z with E by lia. }
    rewrite Hv, Hs. ring.
  - nia.
  - destruct (Z.min_spec (52 - a) (E - emin)) as [[_ Hm]|[_ Hm]]; fold j in Hm.
    + left. rewrite Hm. nia.
    + right. lia.
  - rewrite inject_Z_mult, inject_two_pow by lia. rewrite Hv'.
    assert (Hs : 2 ^ E == 2 ^ j * 2 ^ (E - j)).
    { rewrite <- two_pow_add. by replace (j + (E - j))%Z with E by lia. }
    rewrite Hs. ring.
Qed.

Lemma round_half_even_bound num den :
  (0 < den)%Z ->
  (- den <= 2 * (round_half_even num den * den - num) <= den)%Z.
Proof.
  intros Hd. unfold round_half_even.
  pose proof (Z.div_mod num den ltac:(lia)) as Hdm.
  pose proof (Z.mod_pos_bound num den Hd) as Hr.
  destruct (Z.compare_spec (2 * (num mod den)) den);
    [destruct (Z.even _)|..]; nia.
Qed.

(** A finite result is within half a unit in the last place of the
    value: [2 * |m * 2^e - n / d| <= 2^e]. *)
Lemma binary64_nearest n d m e :
  (0 < n)%Z -> (0 < d)%Z -> binary64 false n d = Fin false m e ->
  - (2 ^ e * inject_Z d)
  <= 2 * (inject_Z m * 2 ^ e * inject_Z d - inject_Z n)
  <= 2 ^ e * inject_Z d.
Proof.
  intros Hn Hd. unfold binary64. destruct (Z.eqb_spec n 0); [lia|].
  cbv zeta.
  set (e0 := Z.max (ilog2_ratio n d - 52) emin).
  set (m0 := if (0 <=? e0)%Z then round_half_even n (d * 2 ^ e0)
             else round_half_even (n * 2 ^ (- e0)) d).
  pose proof (inject_pos d Hd) as HD.
  pose proof (two_pow_pos e0) as Hp.
  assert (H0 : - (2 ^ e0 * inject_Z d)
               <= 2 * (inject_Z m0 * 2 ^ e0 * inject_Z d - inject_Z n)
               <= 2 ^ e0 * inject_Z d).
  { unfold m0. destruct (Z.leb_spec 0 e0) as [He|He].
    - pose proof (round_half_even_bound n (d * 2 ^ e0)
                    ltac:(pose proof (Z.pow_pos_nonneg 2 e0); nia)) as [B1 B2].
      set (r := round_half_even n (d * 2 ^ e0)) in *.
      rewrite Zle_Qle in B1. rewrite Zle_Qle in B2.
      push_inject B1. push_inject B2.
      rewrite inject_two_pow in B1, B2 by done.
      change (inject_Z 2) with 2 in B1, B2. split; lra.
    - pose proof (round_half_even_bound (n * 2 ^ (- e0)) d Hd) as [B1 B2].
      set (r := round_half_even (n * 2 ^ (- e0)) d) in *.
      rewrite Zle_Qle in B1. rewrite Zle_Qle in B2.
      push_inject B1. push_inject B2.
      rewrite inject_two_pow in B1, B2 by lia.
      change (inject_Z 2) with 2 in B1, B2.
      pose proof (two_pow_opp e0) as Ho.
      apply (Qmult_le_compat_r _ _ (2 ^ e0)) in B1, B2; [|lra..].
      assert (Hx : inject_Z n * 2 ^ (- e0) * 2 ^ e0 == inject_Z n).
      { rewrite <- Qmult_assoc, (Qmult_comm (2 ^ (- e0))), Ho. ring. }
      assert (Heq : 2 * (inject_Z r * 2 ^ e0 * inject_Z d - inject_Z n)
                    == 2 * (inject_Z r * inject_Z d
                            + - (inject_Z n * 2 ^ (- e0))) * 2 ^ e0).
      { transitivity (2 * (inject_Z r * 2 ^ e0 * inject_Z d)
                      - 2 * (inject_Z n * 2 ^ (- e0) * 2 ^ e0));
          [rewrite Hx; ring|ring]. }
      rewrite Heq. split; lra. }
  destruct (Z.eqb_spec m0 (2 ^ 53)) as [Hc|Hc];
    [destruct (Z.ltb_spec emax (e0 + 1))|destruct (Z.ltb_spec emax e0)];
    try done; intros [= <- <-].
  - assert (Hs : 2 ^ (e0 + 1) == 2 ^ e0 * 2) by (by rewrite two_pow_add).
    rewrite Hc in H0. rewrite Hs.
    change (inject_Z (2 ^ 53)%Z) with (inject_Z (2 ^ 52)%Z * 2) in H0.
    split; lra.
  - done.
Qed.

Lemma binary64_half_ulp n d m e :
  (0 <= n)%Z -> (0 < d)%Z -> binary64 false n d = Fin false m e ->
  - 2 ^ e <= 2 * (value_of false m e - inject_Z n / inject_Z d) <= 2 ^ e.
Proof.
  intros Hn Hd Hb. pose proof (inject_pos d Hd) as HD.
  pose proof (two_pow_pos e) as Hp. unfold value_of.
  destruct (Z.eq_dec n 0%Z) as [->|Hn0].
  { unfold binary64 in Hb. simpl in Hb. injection Hb as <- <-.
    unfold Qdiv. rewrite !Qmult_0_l. split; lra. }
  pose proof (binary64_nearest n d m e ltac:(lia) Hd Hb) as [B1 B2].
  assert (Heq : 2 * (inject_Z m * 2 ^ e - inject_Z n / inject_Z d)
                == 2 * (inject_Z m * 2 ^ e * inject_Z d - inject_Z n)
                   / inject_Z d) by (field; lra).
  rewrite Heq. split.
  - apply Qle_shift_div_l; [done|]. lra.
  - apply Qle_shift_div_r; [done|]. lra.
Qed.

End Binary64.

(** ** [parseNumericFilter] *)

Lemma captures_lookup_operator s op ip fp :
  (<[0%nat := s]> (number_captures (operator_captures op) ip fp)) !! 1%nat
  = match op with [] => None | _ => Some op end.
Proof.
  unfold number_captures, operator_captures.
  destruct fp, op; by simplify_map_eq.
Qed.

Lemma captures_lookup_number s c ip fp :
  (<[0%nat := s]> (number_captures c ip fp)) !! 2%nat = Some (decimal ip fp).
Proof. unfold number_captures. by simplify_map_eq. Qed.

Lemma grammar_nonempty op ws ip fp :
  digits ip -> op ++ ws ++ decimal ip fp <> [].
Proof.
  intros [Hne _] H. apply app_eq_nil in H as [_ H].
  apply app_eq_nil in H as [_ H]. unfold decimal in H.
  by apply app_eq_nil in H as [H _].
Qed.

(** On a text of the grammar the parser returns the predicate of the
    written operator, with [parseFloat] of the number as threshold. *)
Lemma parseNumericFilter_grammar op ws ip fp :
  op = [] \/ op ∈ operators ->
  all is_space ws -> digits ip -> fraction fp ->
  parseNumericFilter (QStr (op ++ ws ++ decimal ip fp))
  = Ok (VObj [(predicate_of op,
               VNum (binary64 false (decimal_num ip fp) (decimal_den fp)))]).
Proof.
  intros Hop Hws Hip Hfp.
  pose proof (grammar_nonempty op ws ip fp Hip) as Hne.
  unfold parseNumericFilter.
  assert (Ht : truthy_q (QStr (op ++ ws ++ decimal ip fp)) = true)
    by (simpl; by destruct (op ++ ws ++ decimal ip fp)).
  rewrite Ht. cbn [negb str_match mbind result_bind].
  rewrite exec_numeric_re by done.
  rewrite captures_lookup_operator, captures_lookup_number.
  rewrite parseFloat_decimal by done.
  destruct Hop as [->|Hop]; [reflexivity|].
  unfold operators in Hop. rewrite !elem_of_cons, elem_of_nil in Hop.
  by destruct Hop as [->|[->|[->|[->|[->|[]]]]]].
Qed.

(** Whatever is not a text of the grammar is rejected with [null], and
    so are [undefined] and [null]. *)
Lemma parseNumericFilter_outside v :
  v = QUndef \/ v = QNull \/ (exists s, v = QStr s /\ ~ in_grammar s) ->
  parseNumericFilter v = Ok VNull.
Proof.
  intros [->|[->|(s & -> & Hs)]]; [done..|].
  unfold parseNumericFilter. destruct (truthy_q (QStr s)); [|done].
  cbn [negb str_match mbind result_bind].
  destruct (exec numeric_re s) as [m|] eqn:E; [|done].
  by apply exec_numeric_re_sound in E.
Qed.

Lemma digits_val_from_nonneg ds :
  all is_digit ds -> forall acc, 0 <= acc ->
  0 <= fold_left (fun acc c => 10 * acc + digit_val c) ds acc.
Proof.
  induction 1 as [|c ds Hc _ IH]; intros acc Hacc; [done|].
  simpl. apply IH. apply digit_code in Hc. unfold digit_val. lia.
Qed.

Lemma digits_val_nonneg ds : all is_digit ds -> 0 <= digits_val ds.
Proof. intros H. by apply digits_val_from_nonneg. Qed.

Lemma decimal_num_nonneg ip fp :
  digits ip -> fraction fp -> 0 <= decimal_num ip fp.
Proof.
  intros [_ Hip] Hfp. apply digits_val_nonneg. apply Forall_app. split; [done|].
  destruct fp as [f|]; [apply Hfp|constructor].
Qed.

Lemma decimal_den_pos fp : 0 < decimal_den fp.
Proof. unfold decimal_den. apply Z.pow_pos_nonneg; lia. Qed.

(** ** The two builders on requests made of strings *)

Lemma query_string q k :
  strings q -> strings_value (query q k).
Proof.
  intros Hq. unfold query. destruct (q !! js k) as [v|] eqn:E; [|by left].
  right. destruct (Hq _ _ E) as [s ->]. by exists s.
Qed.

(** On a string the parser returns [null] or an object with one
    predicate; it does not throw. *)
Lemma parseNumericFilter_string s :
  parseNumericFilter (QStr s) = Ok VNull
  \/ exists op x, parseNumericFilter (QStr s) = Ok (VObj [(op, VNum x)]).
Proof.
  unfold parseNumericFilter. destruct (truthy_q (QStr s)); [|by left].
  cbn [negb str_match mbind result_bind].
  destruct (exec numeric_re s) as [m|]; [|by left]. right.
  repeat case_decide; eauto.
Qed.

Lemma numeric_condition_string s :
  parseNumericFilter (QStr s) = Ok (numeric_condition (QStr s)).
Proof.
  unfold numeric_condition.
  by destruct (parseNumericFilter_string s) as [->|(op & x & ->)].
Qed.

Lemma numeric_condition_falsy v :
  truthy_q v = false -> numeric_condition v = VNull.
Proof.
  intros H. unfold numeric_condition, parseNumericFilter. by rewrite H.
Qed.

(** The step both endpoints take for [rating] and [total_time]. *)
Lemma numeric_step (filter : obj) v k :
  strings_value v ->
  (if truthy_q v
   then parsed ← parseNumericFilter v;
        Ok (if truthy parsed then obj_set filter k parsed else filter)
   else Ok filter)
  = Ok (if truthy (numeric_condition v)
        then obj_set filter k (numeric_condition v) else filter).
Proof.
  intros [->|[s ->]]; [done|].
  destruct (truthy_q (QStr s)) eqn:E.
  - by rewrite numeric_condition_string.
  - by rewrite numeric_condition_falsy.
Qed.

(** The step both endpoints take for [calories]. *)
Lemma calories_step (filter : obj) v :
  strings_value v ->
  (if truthy_q v
   then parsed ← parseNumericFilter v;
        Ok (if truthy parsed
            then let operator := first_key parsed in
                 let value := get parsed operator in
                 obj_set filter (js "$expr")
                   (VObj [(operator, VArr [calories_token; value])])
            else filter)
   else Ok filter)
  = Ok (if truthy (numeric_condition v)
        then obj_set filter (js "$expr")
               (calories_condition (numeric_condition v))
        else filter).
Proof.
  intros [->|[s ->]]; [done|].
  destruct (truthy_q (QStr s)) eqn:E.
  - by rewrite numeric_condition_string.
  - by rewrite numeric_condition_falsy.
Qed.

(** The filter after the five steps is the expected one. *)
Lemma filter_steps (b1 b2 b3 b4 b5 : bool) (v1 v2 v3 v4 v5 : value) :
  (let f0 : obj := [] in
   let f1 := if b1 then obj_set f0 (js "title") v1 else f0 in
   let f2 := if b2 then obj_set f1 (js "cuisine") v2 else f1 in
   let f3 := if b3 then obj_set f2 (js "rating") v3 else f2 in
   let f4 := if b4 then obj_set f3 (js "total_time") v4 else f3 in
   if b5 then obj_set f4 (js "$expr") v5 else f4)
  = entry b1 "title" v1 ++ entry b2 "cuisine" v2 ++ entry b3 "rating" v3
    ++ entry b4 "total_time" v4 ++ entry b5 "$expr" v5.
Proof. by destruct b1, b2, b3, b4, b5. Qed.

Lemma searchRecipes_strings q :
  strings q -> searchRecipes q = Ok (expected_filter q).
Proof.
  intros Hq. unfold searchRecipes.
  rewrite numeric_step by (by apply query_string).
  cbn [mbind result_bind].
  rewrite numeric_step by (by apply query_string).
  cbn [mbind result_bind].
  rewrite calories_step by (by apply query_string).
  cbn [mbind result_bind]. f_equal. apply filter_steps.
Qed.

Lemma split_on_colon s :
  split_on 58 s !! 0%nat = Some (field_part s)
  /\ split_on 58 s !! 1%nat = direction_part s.
Proof.
  unfold field_part, direction_part.
  induction s as [|x s [IH0 IH1]]; [done|].
  cbn [split_on span]. unfold not_colon at 1 3.
  destruct (N.eqb_spec x 58) as [->|Hx]; cbn [negb].
  - split; [done|]. exact IH0.
  - destruct (split_on 58 s) as [|t ts]; [done|].
    destruct (span not_colon s) as [a b]. simpl in *.
    split; [congruence|done].
Qed.

Lemma sort_step v :
  strings_value v ->
  (if truthy_q v then
     parts ← str_split v 58;
     let field := match parts !! 0%nat with
                  | Some f => f
                  | None => js "undefined"
                  end in
     let dir := if decide (parts !! 1%nat = Some (js "asc"))
                then num 1 else num (-1) in
     Ok (obj_set [] field (VNum dir))
   else Ok [(js "rating", VNum (num (-1)))])
  = Ok (match v with
        | QStr (c :: s) =>
            obj_set [] (field_part (c :: s)) (VNum (direction (c :: s)))
        | _ => [(js "rating", VNum (num (-1)))]
        end).
Proof.
  intros [->|[[|c s] ->]]; [done..|].
  cbn [truthy_q str_split mbind result_bind].
  destruct (split_on_colon (c :: s)) as [-> ->]. done.
Qed.

Lemma parseInt_text v :
  strings_value v -> parseInt v = Ok (parseInt_string (text v)).
Proof. by intros [->|[s ->]]. Qed.

Lemma getRecipes_strings q :
  strings q ->
  getRecipes q
  = Ok (QuerySpec (expected_filter q) (expected_sort q)
          (expected_page (query q "page") 1)
          (expected_page (query q "limit") 10)).
Proof.
  intros Hq. unfold getRecipes.
  rewrite !parseInt_text by (by apply query_string).
  cbn [mbind result_bind].
  rewrite sort_step by (by apply query_string).
  cbn [mbind result_bind].
  rewrite numeric_step by (by apply query_string).
  cbn [mbind result_bind].
  rewrite numeric_step by (by apply query_string).
  cbn [mbind result_bind].
  rewrite calories_step by (by apply query_string).
  cbn [mbind result_bind]. f_equal. f_equal. apply filter_steps.
Qed.

(** ** [parseInt] and the defaults of [page] and [limit] *)

Lemma strip_sign_none rest :
  stops is_sign rest -> strip_sign rest = (false, rest).
Proof.
  destruct rest as [|c t]; [done|]. unfold is_sign. simpl. intros H.
  apply orb_false_iff in H as [-> ->]. done.
Qed.

Lemma not_hex_prefix rest :
  stops is_digit rest ->
  match rest with
  | c0 :: c1 :: _ => ((c0 =? 48) && ((c1 =? 120) || (c1 =? 88)))%N
  | _ => false
  end = false.
Proof.
  destruct rest as [|c0 [|c1 t]]; [done..|]. simpl. intros H.
  destruct (N.eqb_spec c0 48) as [->|]; [done|done].
Qed.

Lemma parseInt_no_integer s : no_integer s -> parseInt_string s = NaN.
Proof.
  intros (ws & sign & rest & -> & Hws & Hstop & Hsign & Hrest).
  unfold parseInt_string. rewrite span_all by done. cbn [snd].
  assert (exists neg, strip_sign (sign ++ rest) = (neg, rest)) as [neg ->].
  { destruct Hsign as [[-> H]|[->| ->]].
    - exists false. by apply strip_sign_none.
    - by exists true.
    - by exists false. }
  rewrite not_hex_prefix by done.
  rewrite <- (app_nil_l rest). rewrite span_all; [done|constructor|done].
Qed.

Lemma digit_not_sign x : is_digit x = true -> is_sign x = false.
Proof.
  unfold is_digit, is_sign. intros H.
  destruct (_ || _) eqn:E in |- *; [|done]. exfalso. bool_to_prop. lia.
Qed.

Lemma parseInt_digits ds :
  digits ds -> parseInt_string ds = binary64 false (digits_val ds) 1.
Proof.
  intros [Hne Hds]. destruct ds as [|x t]; [done|].
  inversion Hds as [|? ? Hx Ht]; subst.
  unfold parseInt_string.
  assert (span is_space (x :: t) = ([], x :: t)) as ->
    by (simpl; by rewrite (digit_not_space x Hx)).
  cbn [snd]. rewrite strip_sign_none by (by apply digit_not_sign).
  assert (match x :: t with
          | c0 :: c1 :: _ => ((c0 =? 48) && ((c1 =? 120) || (c1 =? 88)))%N
          | _ => false
          end = false) as ->.
  { destruct t as [|c1 t]; [done|]. inversion Ht as [|? ? Hc1 _]; subst.
    apply digit_code in Hc1.
    destruct (N.eqb_spec c1 120); [lia|]. destruct (N.eqb_spec c1 88); [lia|].
    by rewrite andb_false_r. }
  rewrite <- (app_nil_r (x :: t)) at 1. rewrite span_all; [done..|].
  done.
Qed.

Lemma round_half_even_ge num den : num / den <= round_half_even num den.
Proof.
  unfold round_half_even. destruct (_ ?= _); [destruct (Z.even _)|..]; lia.
Qed.

(** The Number of a positive integer is not zero. *)
Lemma binary64_integer_truthy neg n :
  0 < n -> truthy_number (binary64 neg n 1) = true.
Proof.
  intros Hn. unfold binary64. destruct (Z.eqb_spec n 0); [lia|].
  destruct (ilog2_ratio_spec n 1 Hn ltac:(lia)) as [H1 H2].
  set (L := ilog2_ratio n 1) in *.
  assert (HL : 0 <= L).
  { assert (Hq : (2 ^ 0 < 2 ^ (L + 1))%Q).
    { eapply Qle_lt_trans; [|eapply Qlt_le_trans; [exact H2|]].
      - change (2 ^ 0)%Q with (inject_Z 1). rewrite <- Zle_Qle. lia.
      - change (inject_Z 1) with 1%Q. rewrite Qmult_1_l. apply Qle_refl. }
    apply two_pow_lt_inv in Hq. lia. }
  replace (Z.max (L - 52) emin) with (L - 52) by (unfold emin; lia).
  set (m := if 0 <=? L - 52 then _ else _).
  assert (Hm : 1 <= m).
  { unfold m. destruct (Z.leb_spec 0 (L - 52)) as [He|He].
    - etrans; [|apply round_half_even_ge].
      assert (2 ^ (L - 52) <= n).
      { rewrite Zle_Qle. rewrite inject_two_pow by done.
        eapply Qle_trans; [apply (two_pow_le _ L); lia|].
        change (inject_Z 1) with 1%Q in H1. by rewrite Qmult_1_l in H1. }
      rewrite Z.mul_1_l.
      apply Z.div_le_lower_bound; [apply Z.pow_pos_nonneg|]; lia.
    - etrans; [|apply round_half_even_ge]. rewrite Z.div_1_r.
      pose proof (Z.pow_pos_nonneg 2 (- (L - 52))). nia. }
  destruct (m =? 2 ^ 53) eqn:E; destruct (emax <? _); simpl; try done.
  all: destruct (Z.eqb_spec m 0); [lia|done].
Qed.

Lemma or_number_truthy x dflt :
  truthy_number dflt = true -> truthy_number (or_number x dflt) = true.
Proof. unfold or_number. by destruct (truthy_number x) eqn:E. Qed.

Lemma paging_holds v dflt :
  strings_value v -> 0 < dflt -> paging v dflt (expected_page v dflt).
Proof.
  intros Hv Hd.
  assert (Ht : truthy_number (num dflt) = true).
  { unfold num. apply binary64_integer_truthy. lia. }
  unfold expected_page.
  split_and!; [|by apply or_number_truthy|..].
  - eexists. split; [by apply parseInt_text|done].
  - by intros ->.
  - intros s -> Hs. cbn [text].
    by rewrite parseInt_no_integer.
  - intros ds -> Hds Hnz. cbn [text].
    rewrite parseInt_digits by done.
    pose proof (digits_val_nonneg ds (proj2 Hds)).
    unfold or_number. rewrite binary64_integer_truthy by lia.
    split; [done|]. intros Hlt.
    assert (Hq : (inject_Z (digits_val ds) / inject_Z 1 == inject_Z (digits_val ds))%Q)
      by (field).
    pose proof (binary64_exact (digits_val ds) 1 ltac:(lia) ltac:(lia)) as Hex.
    destruct (binary64 false (digits_val ds) 1) as [| |neg m e] eqn:Eb;
      simpl in *.
    + apply Hex. exists (digits_val ds), 0. unfold emin, emax.
      split_and!; try lia. rewrite Hq. simpl. ring.
    + apply Hex. exists (digits_val ds), 0. unfold emin, emax.
      split_and!; try lia. rewrite Hq. simpl. ring.
    + rewrite <- Hq. apply Hex. exists (digits_val ds), 0. unfold emin, emax.
      split_and!; try lia. rewrite Hq. simpl. ring.
Qed.

(** * The claims *)

(** ** The numeric filter parser *)

(** The grammar of the specification and the pattern of the code accept
    the same strings. *)
Lemma in_grammar_exec s : in_grammar s <-> is_Some (exec numeric_re s).
Proof.
  split.
  - intros (op & ws & ip & fp & -> & Hop & Hws & Hip & Hfp).
    by rewrite exec_numeric_re.
  - intros [m Hm]. by eapply exec_numeric_re_sound.
Qed.

(** C1, as amended. For every string made of an operator among [>=],
    [<=], [=], [>], [<] (or none), optional white space and a decimal
    number [digits[.digits]], [parseNumericFilter] returns the predicate
    of that operator, [=] or no operator giving equality; the
    two-character operators are never split. Its threshold is
    [parseFloat] of the number, the written value rounded to binary64:
    when finite it is within half a unit in the last place of the
    written value, and it is the written value itself whenever binary64
    can hold that value. *)
Theorem parseNumericFilter_accepts op ws ip fp :
  op = [] \/ op ∈ operators ->
  all is_space ws -> digits ip -> fraction fp ->
  exists x,
    parseNumericFilter (QStr (op ++ ws ++ decimal ip fp))
    = Ok (VObj [(predicate_of op, VNum x)])
    /\ x = binary64 false (decimal_num ip fp) (decimal_den fp)
    /\ (forall m e, x = Fin false m e ->
          (- 2 ^ e <= 2 * (value_of false m e - decimal_value ip fp)
           <= 2 ^ e)%Q)
    /\ (representable (decimal_value ip fp) ->
        denotes x (decimal_value ip fp)).
Proof.
  intros Hop Hws Hip Hfp.
  pose proof (decimal_num_nonneg ip fp Hip Hfp) as Hn.
  pose proof (decimal_den_pos fp) as Hd.
  eexists. split_and!; [|reflexivity|..].
  - by apply parseNumericFilter_grammar.
  - intros m e Hx. by apply binary64_half_ulp.
  - intros Hr. by apply binary64_exact.
Qed.

Lemma parseNumericFilter_accepts_witness :
  exists x,
    parseNumericFilter (QStr (js ">=" ++ js " " ++ decimal (js "4") (Some (js "5"))))
    = Ok (VObj [(predicate_of (js ">="), VNum x)])
    /\ x = binary64 false (decimal_num (js "4") (Some (js "5")))
             (decimal_den (Some (js "5")))
    /\ (forall m e, x = Fin false m e ->
          (- 2 ^ e <= 2 * (value_of false m e
                           - decimal_value (js "4") (Some (js "5")))
           <= 2 ^ e)%Q)
    /\ (representable (decimal_value (js "4") (Some (js "5"))) ->
        denotes x (decimal_value (js "4") (Some (js "5")))).
Proof.
  apply (parseNumericFilter_accepts (js ">=") (js " ") (js "4") (Some (js "5"))).
  - right. unfold operators. apply list_elem_of_here.
  - by repeat constructor.
  - split; [done|]. by repeat constructor.
  - split; [done|]. by repeat constructor.
Defined.

(** The threshold of [=9007199254740993] is 9007199254740992: the
    written value is rounded. *)
Lemma parseNumericFilter_rounds :
  parseNumericFilter (QStr (js "=" ++ decimal (js "9007199254740993") None))
  = Ok (VObj [(js "$eq", VNum (Fin false 4503599627370496 1))])
  /\ ~ denotes (Fin false 4503599627370496 1)
         (decimal_value (js "9007199254740993") None).
Proof.
  split; [vm_compute; reflexivity|].
  unfold denotes, value_of, decimal_value. vm_compute. discriminate.
Qed.

(** C2. For [undefined], [null], the empty string and every string that
    is not, as a whole, a text of the grammar, [parseNumericFilter]
    returns [null]; it does not throw. *)
Theorem parseNumericFilter_rejects v :
  v = QUndef \/ v = QNull \/ (exists s, v = QStr s /\ ~ in_grammar s) ->
  parseNumericFilter v = Ok VNull.
Proof. apply parseNumericFilter_outside. Qed.

Lemma not_in_grammar s : exec numeric_re s = None -> ~ in_grammar s.
Proof. intros H [m Hm]%in_grammar_exec. congruence. Qed.

Lemma parseNumericFilter_rejects_witness :
  parseNumericFilter (QStr (js "4.5.6")) = Ok VNull.
Proof.
  apply (parseNumericFilter_rejects (QStr (js "4.5.6"))).
  right. right. exists (js "4.5.6"). split; [reflexivity|].
  apply not_in_grammar. by vm_compute.
Defined.

Example parseNumericFilter_rejects_examples :
  parseNumericFilter (QStr (js "")) = Ok VNull
  /\ parseNumericFilter (QStr (js ">=")) = Ok VNull
  /\ parseNumericFilter (QStr (js "abc")) = Ok VNull
  /\ parseNumericFilter QNull = Ok VNull.
Proof. split_and!; vm_compute; reflexivity. Qed.

Example parseNumericFilter_examples :
  (exists x, parseNumericFilter (QStr (js ">=4.5"))
             = Ok (VObj [(js "$gte", VNum x)]) /\ denotes x (9 # 2)%Q)
  /\ (exists x, parseNumericFilter (QStr (js "<= 400"))
                = Ok (VObj [(js "$lte", VNum x)]) /\ denotes x 400%Q)
  /\ (exists x, parseNumericFilter (QStr (js "300"))
                = Ok (VObj [(js "$eq", VNum x)]) /\ denotes x 300%Q).
Proof.
  split_and!; eexists; (split; [vm_compute; reflexivity|]); vm_compute;
    reflexivity.
Qed.

(** ** The Query Spec builder *)

Lemma truthy_q_nonempty v : truthy_q v = true -> strings_value v -> nonempty v.
Proof.
  intros H [->|[[|c s] ->]]; try done. by exists c, s.
Qed.

Lemma nonempty_truthy_q v : nonempty v -> truthy_q v = true.
Proof. by intros (c & s & ->). Qed.

Lemma numeric_condition_parses v :
  strings_value v -> truthy (numeric_condition v) = true <-> parses v.
Proof.
  intros Hv. split.
  - destruct Hv as [->|[s ->]]; [done|]. intros H. exists s. split; [done|].
    apply in_grammar_exec. destruct (exec numeric_re s) eqn:E; [done|].
    apply not_in_grammar in E. unfold numeric_condition in H.
    rewrite parseNumericFilter_outside in H by eauto. done.
  - intros (s & -> & (op & ws & ip & fp & -> & Hop & Hws & Hip & Hfp)).
    unfold numeric_condition. by rewrite parseNumericFilter_grammar.
Qed.

Lemma keys_entry b k v x :
  x ∈ keys (entry b k v) <-> x = js k /\ b = true.
Proof.
  unfold keys, entry. destruct b; simpl.
  - rewrite list_elem_of_singleton. tauto.
  - rewrite elem_of_nil. split; [tauto|]. by intros [_ ?].
Qed.

Lemma keys_expected_filter q k :
  strings q -> k ∈ keys (expected_filter q) <-> constrains q k.
Proof.
  intros Hq. unfold expected_filter, constrains, keys.
  rewrite !map_app, !elem_of_app. fold (keys (entry (truthy_q (query q "title")) "title"
    (VObj [(js "$regex", of_q (query q "title")); (js "$options", VStr (js "i"))]))).
  change (List.map fst ?o) with (keys o).
  rewrite !keys_entry.
  pose proof (query_string q "title" Hq) as H1.
  pose proof (query_string q "cuisine" Hq) as H2.
  pose proof (query_string q "rating" Hq) as H3.
  pose proof (query_string q "total_time" Hq) as H4.
  pose proof (query_string q "calories" Hq) as H5.
  rewrite (numeric_condition_parses _ H3), (numeric_condition_parses _ H4),
    (numeric_condition_parses _ H5).
  split; intros H; repeat destruct H as [H|H]; destruct H as [-> H];
    eauto 10 using truthy_q_nonempty, nonempty_truthy_q.
Qed.

Lemma expected_filter_NoDup q : NoDup (keys (expected_filter q)).
Proof.
  unfold expected_filter, keys.
  destruct (truthy_q (query q "title")), (truthy_q (query q "cuisine")),
    (truthy (numeric_condition (query q "rating"))),
    (truthy (numeric_condition (query q "total_time"))),
    (truthy (numeric_condition (query q "calories")));
    cbn [entry app List.map fst];
    apply (bool_decide_unpack (NoDup _)); vm_compute; exact I.
Qed.

Lemma numeric_condition_predicate v :
  strings_value v -> truthy (numeric_condition v) = true ->
  exists p x, predicate_for v p x /\ numeric_condition v = VObj [(p, VNum x)].
Proof.
  intros Hv H. apply numeric_condition_parses in H; [|done].
  destruct H as (s & -> & (op & ws & ip & fp & -> & Hop & Hws & Hip & Hfp)).
  eexists _, _. split.
  - exists op, ws, ip, fp. split_and!; done.
  - unfold numeric_condition. by rewrite parseNumericFilter_grammar.
Qed.

Lemma expected_filter_conditions q k v :
  strings q -> (k, v) ∈ expected_filter q -> condition q k v.
Proof.
  intros Hq. unfold expected_filter, condition. rewrite !elem_of_app.
  pose proof (query_string q "title" Hq) as H1.
  pose proof (query_string q "cuisine" Hq) as H2.
  pose proof (query_string q "rating" Hq) as H3.
  pose proof (query_string q "total_time" Hq) as H4.
  pose proof (query_string q "calories" Hq) as H5.
  unfold entry. intros [H|[H|[H|[H|H]]]].
  - destruct (truthy_q (query q "title")) eqn:E; [|by apply elem_of_nil in H].
    apply list_elem_of_singleton in H as [= -> ->]. left. split; [done|].
    apply truthy_q_nonempty in E as (c & s & E); [|done]. rewrite E. eauto.
  - destruct (truthy_q (query q "cuisine")) eqn:E; [|by apply elem_of_nil in H].
    apply list_elem_of_singleton in H as [= -> ->]. right. left. split; [done|].
    apply truthy_q_nonempty in E as (c & s & E); [|done]. rewrite E. eauto.
  - destruct (truthy (numeric_condition (query q "rating"))) eqn:E;
      [|by apply elem_of_nil in H].
    apply list_elem_of_singleton in H as [= -> ->]. do 2 right. left.
    split; [done|]. by apply numeric_condition_predicate.
  - destruct (truthy (numeric_condition (query q "total_time"))) eqn:E;
      [|by apply elem_of_nil in H].
    apply list_elem_of_singleton in H as [= -> ->]. do 3 right. left.
    split; [done|]. by apply numeric_condition_predicate.
  - destruct (truthy (numeric_condition (query q "calories"))) eqn:E;
      [|by apply elem_of_nil in H].
    apply list_elem_of_singleton in H as [= -> ->]. do 4 right.
    split; [done|].
    destruct (numeric_condition_predicate _ H5 E) as (p & x & Hp & ->).
    exists p, x. split; [done|]. unfold calories_condition.
    cbn [first_key get obj_get]. by rewrite decide_True.
Qed.

Lemma expected_sort_shape q :
  (length (expected_sort q) <= 1)%nat /\
  Forall (fun kv => snd kv = VNum (num 1) \/ snd kv = VNum (num (-1)))
    (expected_sort q).
Proof.
  unfold expected_sort.
  assert (Hd : (length [(js "rating", VNum (num (-1)))] <= 1)%nat /\
               Forall (fun kv : jsstring * value =>
                         snd kv = VNum (num 1) \/ snd kv = VNum (num (-1)))
                 [(js "rating", VNum (num (-1)))]).
  { split; [simpl; lia|]. constructor; [by right|constructor]. }
  destruct (query q "sort") as [| |[|c s]|l|o]; try exact Hd.
  unfold obj_set, direction. case_decide; [split; [simpl; lia|constructor]|].
  split; [simpl; lia|]. constructor; [|constructor].
  simpl. case_decide; auto.
Qed.

(** C4, as amended. For every request whose parameters are strings,
    however malformed, neither endpoint throws, and both build the same
    filter. The filter has a key exactly for each filter parameter that
    is present and, for [rating], [total_time] and [calories], parses,
    no key twice, and under each key the condition of that parameter:
    the pattern for the title, the cuisine as given, the parsed
    predicate, the comparison of the computed calories. The sort has at
    most one field, with direction 1 or -1: rating descending when the
    parameter is absent or empty, and otherwise the field given (other
    than [__proto__]) with its direction. The page and the limit are
    [parseInt] of the parameter or the default, Numbers other than zero
    and NaN. *)
Theorem builders_never_throw q :
  strings q ->
  exists spec filter,
    getRecipes q = Ok spec /\ searchRecipes q = Ok filter /\
    (forall k, k ∈ keys (qs_filter spec) <-> constrains q k) /\
    (forall k, k ∈ keys filter <-> constrains q k) /\
    filter = qs_filter spec /\
    NoDup (keys filter) /\
    (forall k v, (k, v) ∈ filter -> condition q k v) /\
    (length (qs_sort spec) <= 1)%nat /\
    Forall (fun kv => snd kv = VNum (num 1) \/ snd kv = VNum (num (-1)))
      (qs_sort spec) /\
    (forall s, query q "sort" = QStr s -> s <> [] ->
               field_part s <> js "__proto__" ->
               qs_sort spec = [(field_part s, VNum (direction s))]) /\
    (query q "sort" = QUndef \/ query q "sort" = QStr [] ->
     qs_sort spec = [(js "rating", VNum (num (-1)))]) /\
    paging (query q "page") 1 (qs_page spec) /\
    paging (query q "limit") 10 (qs_limit spec).
Proof.
  intros Hq. eexists _, _.
  split; [by apply getRecipes_strings|].
  split; [by apply searchRecipes_strings|].
  cbn [qs_filter qs_sort qs_page qs_limit]. split_and!.
  - intros k. by apply keys_expected_filter.
  - intros k. by apply keys_expected_filter.
  - done.
  - apply expected_filter_NoDup.
  - intros k v. by apply expected_filter_conditions.
  - apply expected_sort_shape.
  - apply expected_sort_shape.
  - unfold expected_sort. intros s -> Hs Hf. destruct s as [|c s]; [done|].
    unfold obj_set. by rewrite decide_False.
  - unfold expected_sort. by intros [-> | ->].
  - apply paging_holds; [by apply query_string|lia].
  - apply paging_holds; [by apply query_string|lia].
Qed.

Lemma strings_request l : strings (request l).
Proof.
  unfold request. intros k v H. apply elem_of_list_to_map_2 in H.
  apply list_elem_of_In, in_map_iff in H as ([a b] & [= <- <-] & _). eauto.
Qed.

Lemma builders_never_throw_witness :
  exists spec filter,
    getRecipes (request [("rating", "banana"); ("page", "x")]%string) = Ok spec /\
    searchRecipes (request [("rating", "banana"); ("page", "x")]%string)
    = Ok filter /\
    (forall k, k ∈ keys (qs_filter spec)
               <-> constrains (request [("rating", "banana"); ("page", "x")]%string) k) /\
    (forall k, k ∈ keys filter
               <-> constrains (request [("rating", "banana"); ("page", "x")]%string) k) /\
    filter = qs_filter spec /\
    NoDup (keys filter) /\
    (forall k v, (k, v) ∈ filter ->
                 condition (request [("rating", "banana"); ("page", "x")]%string) k v) /\
    (length (qs_sort spec) <= 1)%nat /\
    Forall (fun kv => snd kv = VNum (num 1) \/ snd kv = VNum (num (-1)))
      (qs_sort spec) /\
    (forall s,
        query (request [("rating", "banana"); ("page", "x")]%string) "sort" = QStr s ->
        s <> [] -> field_part s <> js "__proto__" ->
        qs_sort spec = [(field_part s, VNum (direction s))]) /\
    (query (request [("rating", "banana"); ("page", "x")]%string) "sort" = QUndef
     \/ query (request [("rating", "banana"); ("page", "x")]%string) "sort" = QStr [] ->
     qs_sort spec = [(js "rating", VNum (num (-1)))]) /\
    paging (query (request [("rating", "banana"); ("page", "x")]%string) "page")
      1 (qs_page spec) /\
    paging (query (request [("rating", "banana"); ("page", "x")]%string) "limit")
      10 (qs_limit spec).
Proof.
  apply (builders_never_throw (request [("rating", "banana"); ("page", "x")]%string)).
  apply strings_request.
Defined.

(** With [limit=-3] and the sort field [__proto__] the builder returns,
    but not a Query Spec as the specification has it: the limit is -3,
    no positive integer, and the sort has no field. *)
Lemma builders_invalid_spec :
  exists spec,
    getRecipes (request [("limit", "-3"); ("sort", "__proto__:asc")]%string)
    = Ok spec /\
    qs_limit spec = num (-3) /\ qs_sort spec = [] /\
    ~ positive_integer (qs_limit spec) /\
    ~ valid_query_spec spec.
Proof.
  eexists. split; [vm_compute; reflexivity|].
  split; [vm_compute; reflexivity|]. split; [vm_compute; reflexivity|].
  assert (Hn : ~ positive_integer (num (-3))).
  { intros (z & Hz & H).
    change (num (-3)) with (Fin true 6755399441055744 (-51)) in H.
    unfold denotes in H.
    change (value_of true 6755399441055744 (-51))
      with (-6755399441055744 # 2251799813685248)%Q in H.
    unfold Qeq in H. simpl in H. lia. }
  split; [exact Hn|]. intros (_ & _ & H). by apply Hn.
Qed.

(** A request that is not made of strings does make the builder throw:
    an array has no [match] method. *)
Example getRecipes_array_throws :
  getRecipes {[ js "rating" := QArr [QStr (js "1"); QStr (js "2")] ]}
  = Throw TypeError.
Proof. by vm_compute. Qed.

(** C5, as amended. For every request made of strings [getRecipes]
    returns, and its page is [parseInt] of the parameter when that is a
    Number other than zero and NaN, and 1 otherwise: 1 when the
    parameter is absent or holds no integer, the written integer when
    the parameter is a run of digits other than zero (exactly so below
    [2^53]); the limit likewise with 10. Neither is ever zero or NaN. *)
Theorem getRecipes_paging q :
  strings q ->
  exists spec,
    getRecipes q = Ok spec /\
    paging (query q "page") 1 (qs_page spec) /\
    paging (query q "limit") 10 (qs_limit spec).
Proof.
  intros Hq. eexists. split; [by apply getRecipes_strings|].
  split; (apply paging_holds; [by apply query_string|lia]).
Qed.

Lemma getRecipes_paging_witness :
  exists spec,
    getRecipes (request [("page", "2"); ("limit", "abc")]%string) = Ok spec /\
    paging (query (request [("page", "2"); ("limit", "abc")]%string) "page")
      1 (qs_page spec) /\
    paging (query (request [("page", "2"); ("limit", "abc")]%string) "limit")
      10 (qs_limit spec).
Proof.
  apply (getRecipes_paging (request [("page", "2"); ("limit", "abc")]%string)).
  apply strings_request.
Defined.

(** With [page=-5] the page is -5: neither a positive integer nor the
    default. *)
Lemma getRecipes_negative_page :
  exists spec,
    getRecipes (request [("page", "-5")]%string) = Ok spec /\
    qs_page spec = num (-5) /\ ~ positive_integer (qs_page spec).
Proof.
  eexists. split; [vm_compute; reflexivity|].
  split; [vm_compute; reflexivity|].
  intros (z & Hz & H).
  change (qs_page _) with (Fin true 5629499534213120 (-50)) in H.
  unfold denotes in H.
  change (value_of true 5629499534213120 (-50))
    with (-5629499534213120 # 1125899906842624)%Q in H.
  unfold Qeq in H. simpl in H. lia.
Qed.

(** C6, as amended. For every request made of strings: when the sort
    parameter is a non-empty string [field:direction] whose field is
    not [__proto__], the sort has that one field, ascending exactly
    when the direction is [asc] and descending for any other direction
    or none; when the parameter is absent or empty the sort is rating
    descending. *)
Theorem getRecipes_sort q :
  strings q ->
  exists spec,
    getRecipes q = Ok spec /\
    (forall s, query q "sort" = QStr s -> s <> [] ->
               field_part s <> js "__proto__" ->
               qs_sort spec = [(field_part s, VNum (direction s))]) /\
    (query q "sort" = QUndef \/ query q "sort" = QStr [] ->
     qs_sort spec = [(js "rating", VNum (num (-1)))]).
Proof.
  intros Hq. eexists. split; [by apply getRecipes_strings|].
  cbn [qs_sort]. unfold expected_sort. split.
  - intros s -> Hs Hf. destruct s as [|c s]; [done|].
    unfold obj_set. by rewrite decide_False.
  - by intros [-> | ->].
Qed.

Lemma getRecipes_sort_witness :
  exists spec,
    getRecipes (request [("sort", "title:asc")]%string) = Ok spec /\
    (forall s, query (request [("sort", "title:asc")]%string) "sort" = QStr s ->
               s <> [] -> field_part s <> js "__proto__" ->
               qs_sort spec = [(field_part s, VNum (direction s))]) /\
    (query (request [("sort", "title:asc")]%string) "sort" = QUndef
     \/ query (request [("sort", "title:asc")]%string) "sort" = QStr [] ->
     qs_sort spec = [(js "rating", VNum (num (-1)))]).
Proof.
  apply (getRecipes_sort (request [("sort", "title:asc")]%string)).
  apply strings_request.
Defined.

Example getRecipes_sort_examples :
  (exists spec, getRecipes (request [("sort", "title:asc")]%string) = Ok spec /\
                qs_sort spec = [(js "title", VNum (num 1))])
  /\ (exists spec, getRecipes (request [("sort", "title:up")]%string) = Ok spec /\
                   qs_sort spec = [(js "title", VNum (num (-1)))])
  /\ (exists spec, getRecipes (request []) = Ok spec /\
                   qs_sort spec = [(js "rating", VNum (num (-1)))])
  /\ (exists spec, getRecipes (request [("sort", "__proto__:asc")]%string) = Ok spec /\
                   qs_sort spec = []).
Proof. split_and!; eexists; (split; vm_compute; reflexivity). Qed.

(** With [sort=], present and empty, the sort is rating descending, not
    the empty field the split gives; and with the field [__proto__] the
    sort has no field at all. *)
Lemma getRecipes_empty_sort :
  (exists spec,
     getRecipes (request [("sort", "")]%string) = Ok spec /\
     query (request [("sort", "")]%string) "sort" = QStr (js "") /\
     qs_sort spec = [(js "rating", VNum (num (-1)))] /\
     qs_sort spec <> [(field_part (js ""), VNum (direction (js "")))])
  /\ (exists spec,
        getRecipes (request [("sort", "__proto__:asc")]%string) = Ok spec /\
        qs_sort spec = [] /\
        qs_sort spec <> [(field_part (js "__proto__:asc"),
                          VNum (direction (js "__proto__:asc")))]).
Proof.
  split; eexists; (split; [vm_compute; reflexivity|]).
  - split; [vm_compute; reflexivity|]. split; [vm_compute; reflexivity|].
    vm_compute. discriminate.
  - split; [vm_compute; reflexivity|]. vm_compute. discriminate.
Qed.

Lemma query_agree q1 q2 k :
  q1 !! js k = q2 !! js k -> query q1 k = query q2 k.
Proof. unfold query. by intros ->. Qed.

Lemma same_filter_steps (X : result obj) (Y Z : obj -> result obj)
    (sortBy : obj) (page limit : number) :
  match (s ← Ok sortBy; f1 ← X; f2 ← Y f1; f3 ← Z f2;
         Ok (QuerySpec f3 s page limit)) with
  | Ok spec => (f1 ← X; f2 ← Y f1; f3 ← Z f2; Ok f3) = Ok (qs_filter spec)
  | Throw e => (f1 ← X; f2 ← Y f1; f3 ← Z f2; Ok f3) = Throw e
  end.
Proof.
  destruct X as [f1|e]; [|done]. cbn [mbind result_bind].
  destruct (Y f1) as [f2|e]; [|done]. cbn [mbind result_bind].
  by destruct (Z f2) as [f3|e].
Qed.

(** C10. For every request that has only filter parameters, the two
    endpoints build the same filter, or throw the same error. *)
Theorem endpoints_same_filter q :
  (forall k, is_Some (q !! k) -> exists p, p ∈ filter_parameters /\ k = js p) ->
  match getRecipes q with
  | Ok spec => searchRecipes q = Ok (qs_filter spec)
  | Throw e => searchRecipes q = Throw e
  end.
Proof.
  intros H.
  assert (Habsent : forall k : string,
             (forall p, p ∈ filter_parameters -> js k <> js p) ->
             query q k = QUndef).
  { intros k Hk. unfold query. destruct (q !! js k) as [v|] eqn:E; [|done].
    destruct (H (js k) ltac:(eauto)) as (p & Hp & Heq). by destruct (Hk p Hp). }
  assert (Hpage : query q "page" = QUndef).
  { apply Habsent. intros p. unfold filter_parameters.
    rewrite !elem_of_cons, elem_of_nil.
    by intros [->|[->|[->|[->|[->|[]]]]]]. }
  assert (Hlimit : query q "limit" = QUndef).
  { apply Habsent. intros p. unfold filter_parameters.
    rewrite !elem_of_cons, elem_of_nil.
    by intros [->|[->|[->|[->|[->|[]]]]]]. }
  assert (Hsort : query q "sort" = QUndef).
  { apply Habsent. intros p. unfold filter_parameters.
    rewrite !elem_of_cons, elem_of_nil.
    by intros [->|[->|[->|[->|[->|[]]]]]]. }
  unfold getRecipes, searchRecipes. rewrite Hpage, Hlimit, Hsort.
  cbn [parseInt ToString mbind result_bind truthy_q]. apply same_filter_steps.
Qed.

Lemma endpoints_same_filter_witness :
  match getRecipes (request [("title", "pie"); ("calories", "<=400")]%string) with
  | Ok spec =>
      searchRecipes (request [("title", "pie"); ("calories", "<=400")]%string)
      = Ok (qs_filter spec)
  | Throw e =>
      searchRecipes (request [("title", "pie"); ("calories", "<=400")]%string)
      = Throw e
  end.
Proof.
  apply (endpoints_same_filter
           (request [("title", "pie"); ("calories", "<=400")]%string)).
  intros k [v Hk]. unfold request in Hk. apply elem_of_list_to_map_2 in Hk.
  cbn [List.map fst snd] in Hk. rewrite !elem_of_cons, elem_of_nil in Hk.
  unfold filter_parameters.
  destruct Hk as [[= -> _]|[[= -> _]|[]]];
    [exists "title"%string|exists "calories"%string];
    (split; [rewrite !elem_of_cons; auto 10|reflexivity]).
Defined.

(** The examples of the specification. *)
Example getRecipes_examples :
  getRecipes (request [("rating", ">=4.5"); ("title", "pie"); ("page", "2");
                       ("limit", "5")]%string)
  = Ok (QuerySpec
          [(js "title", VObj [(js "$regex", VStr (js "pie"));
                              (js "$options", VStr (js "i"))]);
           (js "rating", VObj [(js "$gte", VNum (binary64 false 45 10))])]
          [(js "rating", VNum (num (-1)))] (num 2) (num 5))
  /\ getRecipes (request [("sort", "title:asc")]%string)
     = Ok (QuerySpec [] [(js "title", VNum (num 1))] (num 1) (num 10))
  /\ getRecipes (request [("rating", "banana")]%string)
     = Ok (QuerySpec [] [(js "rating", VNum (num (-1)))] (num 1) (num 10))
  /\ getRecipes (request [])
     = Ok (QuerySpec [] [(js "rating", VNum (num (-1)))] (num 1) (num 10)).
Proof. split_and!; vm_compute; reflexivity. Qed.

(** ** The builder over a heap: what a call leaves behind *)

Lemma bind_run {A B : Type} (m : M A) (k : A -> M B) h a h' :
  m h = (Ok a, h') -> bind_M m k h = k a h'.
Proof. intros H. unfold bind_M. by rewrite H. Qed.

Lemma read_run h new rq q k :
  holds_request h rq q -> read rq k (h ++ new) = (Ok (query q k), h ++ new).
Proof.
  intros (c & Hc & Hq). unfold read, bind_M, get_prop, lift.
  rewrite lookup_app_l by (by eapply lookup_lt_Some).
  rewrite Hc, Hq. done.
Qed.

Lemma alloc_run c h new :
  alloc c (h ++ new) = (Ok (length h + length new)%nat, h ++ (new ++ [c])).
Proof. unfold alloc. by rewrite length_app, app_assoc. Qed.

Lemma set_prop_run h new i c k v :
  new !! i = Some c ->
  set_prop (length h + i) k v (h ++ new)
  = (Ok tt, h ++ <[i := cell_set c k v]> new).
Proof.
  intros Hi. unfold set_prop.
  rewrite lookup_app_r by lia.
  replace (length h + i - length h)%nat with i by lia. rewrite Hi.
  rewrite insert_app_r_alt by lia.
  by replace (length h + i - length h)%nat with i by lia.
Qed.

Lemma cell_obj_put c k v :
  cell_obj (cell_put c k v) = obj_put (cell_obj c) k (hval_value v).
Proof.
  induction c as [|[k' v'] c IH]; [done|]. simpl.
  destruct (decide (k' = k)); simpl; [done|]. by rewrite IH.
Qed.

Lemma cell_obj_set c k v :
  cell_obj (cell_set c k v) = obj_set (cell_obj c) k (hval_value v).
Proof.
  unfold cell_set, obj_set. case_decide; [done|]. apply cell_obj_put.
Qed.

(** The parser returns what the pure one returns, and leaves a RegExp
    object behind when its argument is truthy. *)
Lemma parseNumericFilter_h_run v h :
  strings_value v ->
  exists garbage,
    parseNumericFilter_h v h = (Ok (numeric_condition v), h ++ garbage).
Proof.
  intros [->|[s ->]].
  - exists []. by rewrite app_nil_r.
  - destruct s as [|c s]; [exists []; by rewrite app_nil_r|].
    eexists. rewrite <- (numeric_condition_string (c :: s)).
    unfold parseNumericFilter_h, parseNumericFilter, bind_M, alloc, lift, unit_M.
    cbn [truthy_q negb str_match mbind result_bind].
    destruct (exec numeric_re (c :: s)) as [m|]; [|done].
    repeat case_decide; reflexivity.
Qed.

Lemma stepped_refl new fl f : new !! fl = Some f -> stepped new new fl f.
Proof. by intros H. Qed.

Lemma stepped_insert new fl f f' :
  new !! fl = Some f -> stepped new (<[fl := f']> new) fl f'.
Proof.
  intros H. split_and!.
  - apply list_lookup_insert_eq. by eapply lookup_lt_Some.
  - by rewrite length_insert.
  - intros l Hl _. by rewrite list_lookup_insert_ne.
Qed.

Lemma stepped_app new new' garbage fl f' :
  stepped (new ++ garbage) new' fl f' -> stepped new new' fl f'.
Proof.
  intros (H1 & H2 & H3). rewrite length_app in H2. split_and!; [done|lia|].
  intros l Hl Hlt. rewrite H3 by (done || rewrite length_app; lia).
  by rewrite lookup_app_l.
Qed.

Lemma title_run h new rq q fl f :
  holds_request h rq q -> new !! fl = Some f ->
  exists new' f',
    (if truthy_q (query q "title") then
       bind_M (read rq "title") (fun t =>
       set_prop (length h + fl) (js "title")
         (HV (VObj [(js "$regex", of_q t); (js "$options", VStr (js "i"))])))
     else unit_M tt) (h ++ new) = (Ok tt, h ++ new') /\
    stepped new new' fl f' /\
    cell_obj f'
    = if truthy_q (query q "title")
      then obj_set (cell_obj f) (js "title")
             (VObj [(js "$regex", of_q (query q "title"));
                    (js "$options", VStr (js "i"))])
      else cell_obj f.
Proof.
  intros Hq Hf. destruct (truthy_q (query q "title")).
  - eexists _, _. split_and!.
    + erewrite bind_run by (by apply read_run). by apply set_prop_run.
    + by eapply stepped_insert.
    + by rewrite cell_obj_set.
  - exists new, f. split_and!; [done|by apply stepped_refl|done].
Qed.

Lemma cuisine_run h new rq q fl f :
  holds_request h rq q -> new !! fl = Some f ->
  exists new' f',
    (if truthy_q (query q "cuisine") then
       bind_M (read rq "cuisine") (fun c =>
       set_prop (length h + fl) (js "cuisine") (HQ c))
     else unit_M tt) (h ++ new) = (Ok tt, h ++ new') /\
    stepped new new' fl f' /\
    cell_obj f'
    = if truthy_q (query q "cuisine")
      then obj_set (cell_obj f) (js "cuisine") (of_q (query q "cuisine"))
      else cell_obj f.
Proof.
  intros Hq Hf. destruct (truthy_q (query q "cuisine")).
  - eexists _, _. split_and!.
    + erewrite bind_run by (by apply read_run). by apply set_prop_run.
    + by eapply stepped_insert.
    + by rewrite cell_obj_set.
  - exists new, f. split_and!; [done|by apply stepped_refl|done].
Qed.

Lemma numeric_run h new rq q fl f (name : string) (key : jsstring)
    (g : value -> value) :
  strings q -> holds_request h rq q -> new !! fl = Some f ->
  exists new' f',
    (if truthy_q (query q name) then
       bind_M (read rq name) (fun r =>
       bind_M (parseNumericFilter_h r) (fun parsed =>
       if truthy parsed then set_prop (length h + fl) key (HV (g parsed))
       else unit_M tt))
     else unit_M tt) (h ++ new) = (Ok tt, h ++ new') /\
    stepped new new' fl f' /\
    cell_obj f'
    = if truthy (numeric_condition (query q name))
      then obj_set (cell_obj f) key (g (numeric_condition (query q name)))
      else cell_obj f.
Proof.
  intros Hs Hq Hf.
  destruct (truthy_q (query q name)) eqn:E.
  - destruct (parseNumericFilter_h_run (query q name) (h ++ new)
                (query_string q name Hs)) as [garbage Hp].
    rewrite <- app_assoc in Hp.
    destruct (truthy (numeric_condition (query q name))) eqn:E'.
    + eexists _, _. split_and!.
      * erewrite bind_run by (by apply read_run).
        erewrite bind_run by exact Hp. rewrite E'.
        apply set_prop_run. by rewrite lookup_app_l by (by eapply lookup_lt_Some).
      * eapply stepped_app, stepped_insert.
        by rewrite lookup_app_l by (by eapply lookup_lt_Some).
      * by rewrite cell_obj_set.
    + eexists _, f. split_and!.
      * erewrite bind_run by (by apply read_run).
        erewrite bind_run by exact Hp. by rewrite E'.
      * eapply stepped_app, stepped_refl.
        by rewrite lookup_app_l by (by eapply lookup_lt_Some).
      * done.
  - rewrite numeric_condition_falsy by done. cbn [truthy].
    exists new, f. split_and!; [done|by apply stepped_refl|done].
Qed.

Lemma sort_run h rq q :
  strings q -> holds_request h rq q ->
  exists new sl s,
    (if truthy_q (query q "sort") then
       bind_M (read rq "sort") (fun v =>
       bind_M (lift (str_split v 58)) (fun parts =>
       let field := match parts !! 0%nat with
                    | Some f => f
                    | None => js "undefined"
                    end in
       let dir := if decide (parts !! 1%nat = Some (js "asc"))
                  then num 1 else num (-1) in
       bind_M (set_prop (length h + length ([] : list cell)) field (HV (VNum dir)))
         (fun _ => unit_M (length h + length ([] : list cell))%nat)))
     else alloc [(js "rating", HV (VNum (num (-1))))]) (h ++ ([] ++ [[]]))
    = (Ok (length h + sl)%nat, h ++ new) /\
    new !! sl = Some s /\ cell_obj s = expected_sort q.
Proof.
  intros Hs Hq. unfold expected_sort.
  destruct (query_string q "sort" Hs) as [E|[[|c s] E]]; rewrite E.
  - exists [[]; [(js "rating", HV (VNum (num (-1))))]], 1%nat,
      [(js "rating", HV (VNum (num (-1))))].
    split_and!; [|done..]. cbn [truthy_q]. by rewrite alloc_run.
  - exists [[]; [(js "rating", HV (VNum (num (-1))))]], 1%nat,
      [(js "rating", HV (VNum (num (-1))))].
    split_and!; [|done..]. cbn [truthy_q]. by rewrite alloc_run.
  - cbn [truthy_q]. eexists _, 0%nat, _. split_and!.
    + erewrite bind_run by (by apply read_run). rewrite E.
      cbn [str_split]. unfold lift at 1.
      erewrite bind_run by reflexivity. cbv zeta.
      erewrite bind_run by (by apply set_prop_run). reflexivity.
    + reflexivity.
    + cbn [app insert list_insert]. rewrite cell_obj_set. cbn [cell_obj List.map hval_value].
      destruct (split_on_colon (c :: s)) as [-> ->]. done.
Qed.

(** One call: it returns, the filter and the sort it hands over are
    new objects holding what the pure builder computes, and the heap
    it started from is still there, unchanged. *)
Lemma getRecipes_h_run h rq q :
  strings q -> holds_request h rq q ->
  exists new fl sl f s,
    getRecipes_h rq h
    = (Ok (HeapSpec (length h + fl) (length h + sl)
             (expected_page (query q "page") 1)
             (expected_page (query q "limit") 10)), h ++ new) /\
    new !! fl = Some f /\ new !! sl = Some s /\ fl <> sl /\
    cell_obj f = expected_filter q /\ cell_obj s = expected_sort q.
Proof.
  intros Hs Hq.
  replace (getRecipes_h rq h) with (getRecipes_h rq (h ++ []))
    by (by rewrite app_nil_r).
  unfold getRecipes_h.
  erewrite bind_run by (by apply read_run).
  erewrite bind_run
    by (unfold lift; by rewrite (parseInt_text _ (query_string q "page" Hs))).
  cbv zeta.
  erewrite bind_run by (by apply read_run).
  erewrite bind_run
    by (unfold lift; by rewrite (parseInt_text _ (query_string q "limit" Hs))).
  cbv zeta.
  erewrite bind_run by apply alloc_run.
  erewrite bind_run by (by apply read_run).
  destruct (sort_run h rq q Hs Hq) as (new0 & sl & s & Hsort & Hsl & Hso).
  erewrite bind_run by exact Hsort.
  erewrite bind_run by apply alloc_run.
  assert (Hlt : (sl < length new0)%nat) by (by eapply lookup_lt_Some).
  assert (Hf0 : (new0 ++ [[]]) !! length new0 = Some ([] : cell))
    by (by rewrite list_lookup_middle).
  erewrite bind_run by (by apply read_run).
  destruct (title_run h _ rq q _ _ Hq Hf0) as (new1 & f1 & R1 & S1 & O1).
  erewrite bind_run by exact R1.
  erewrite bind_run by (by apply read_run).
  destruct (cuisine_run h _ rq q _ _ Hq (proj1 S1)) as (new2 & f2 & R2 & S2 & O2).
  erewrite bind_run by exact R2.
  erewrite bind_run by (by apply read_run).
  destruct (numeric_run h _ rq q _ _ "rating" (js "rating") (fun x => x)
              Hs Hq (proj1 S2)) as (new3 & f3 & R3 & S3 & O3).
  erewrite bind_run by exact R3.
  erewrite bind_run by (by apply read_run).
  destruct (numeric_run h _ rq q _ _ "total_time" (js "total_time") (fun x => x)
              Hs Hq (proj1 S3)) as (new4 & f4 & R4 & S4 & O4).
  erewrite bind_run by exact R4.
  erewrite bind_run by (by apply read_run).
  destruct (numeric_run h _ rq q _ _ "calories" (js "$expr") calories_condition
              Hs Hq (proj1 S4)) as (new5 & f5 & R5 & S5 & O5).
  erewrite bind_run by exact R5.
  exists new5, (length new0), sl, f5, s. split_and!.
  - reflexivity.
  - apply S5.
  - destruct S1 as (_ & L1 & K1), S2 as (_ & L2 & K2), S3 as (_ & L3 & K3),
      S4 as (_ & L4 & K4), S5 as (_ & L5 & K5).
    rewrite length_app in L1. simpl in L1.
    rewrite K5, K4, K3, K2, K1 by (rewrite ?length_app; simpl; lia).
    by rewrite lookup_app_l.
  - lia.
  - rewrite O5, O4, O3, O2, O1. apply filter_steps.
  - done.
Qed.

Lemma spec_at_run h new fl sl f s page limit :
  new !! fl = Some f -> new !! sl = Some s ->
  forall more,
    spec_at ((h ++ new) ++ more)
      (HeapSpec (length h + fl) (length h + sl) page limit)
    = Some (QuerySpec (cell_obj f) (cell_obj s) page limit).
Proof.
  intros Hf Hs more. unfold spec_at. cbn [hs_filter hs_sort hs_page hs_limit].
  pose proof (lookup_lt_Some _ _ _ Hf). pose proof (lookup_lt_Some _ _ _ Hs).
  rewrite !(lookup_app_l (h ++ new)) by (rewrite length_app; lia).
  rewrite !lookup_app_r by lia.
  replace (length h + fl - length h)%nat with fl by lia.
  replace (length h + sl - length h)%nat with sl by lia.
  by rewrite Hf, Hs.
Qed.

Lemma holds_request_app h more rq q :
  holds_request h rq q -> holds_request (h ++ more) rq q.
Proof.
  intros (c & Hc & Hq). exists c. split; [|done].
  by rewrite lookup_app_l by (by eapply lookup_lt_Some).
Qed.

Lemma request_cell_get l k :
  cell_get (request_cell l) k = HQ (default QUndef (request l !! k)).
Proof.
  unfold request_cell, request. induction l as [|[a b] l IH]; [done|].
  cbn [List.map fst snd cell_get list_to_map foldr].
  destruct (decide (js a = k)) as [->|Hne].
  - by rewrite lookup_insert_eq.
  - by rewrite lookup_insert_ne.
Qed.

Lemma request_cell_holds h l :
  holds_request (h ++ [request_cell l]) (length h) (request l).
Proof.
  exists (request_cell l). split; [by rewrite list_lookup_middle|].
  apply request_cell_get.
Qed.

(** C9. The builder is run on a heap: the request is an object of the
    heap, and [sortBy], [filter] and the RegExp objects are objects it
    creates there and writes to. Whatever the heap holds when the
    handler is called, for a request made of strings: the call
    returns; built a second time from the heap the first call left,
    the Query Spec is value-equal to the first, filter, sort, page and
    limit, and both are the spec of the pure builder; the second call
    leaves the first spec as it was; each call leaves every object that
    existed, the request included, unchanged; and the filter and the
    sort of each call are new objects, distinct from one another. *)
Theorem getRecipes_deterministic h rq q :
  strings q -> holds_request h rq q ->
  exists s1 h1 s2 h2 spec,
    getRecipes_h rq h = (Ok s1, h1) /\
    getRecipes_h rq h1 = (Ok s2, h2) /\
    getRecipes q = Ok spec /\
    spec_at h1 s1 = Some spec /\
    spec_at h2 s2 = Some spec /\
    spec_at h2 s1 = Some spec /\
    h `prefix_of` h1 /\ h1 `prefix_of` h2 /\
    (length h <= hs_filter s1)%nat /\ (length h <= hs_sort s1)%nat /\
    (length h1 <= hs_filter s2)%nat /\ (length h1 <= hs_sort s2)%nat /\
    hs_filter s1 <> hs_sort s1 /\ hs_filter s2 <> hs_sort s2.
Proof.
  intros Hs Hq.
  destruct (getRecipes_h_run h rq q Hs Hq)
    as (new1 & fl1 & sl1 & f1 & o1 & R1 & Hf1 & Ho1 & Hd1 & Ef1 & Eo1).
  destruct (getRecipes_h_run (h ++ new1) rq q Hs (holds_request_app _ _ _ _ Hq))
    as (new2 & fl2 & sl2 & f2 & o2 & R2 & Hf2 & Ho2 & Hd2 & Ef2 & Eo2).
  eexists _, _, _, _, _. split; [exact R1|]. split; [exact R2|].
  split; [by apply getRecipes_strings|].
  cbn [hs_filter hs_sort]. split_and!.
  - rewrite <- (app_nil_r (h ++ new1)).
    rewrite (spec_at_run h new1 fl1 sl1 f1 o1) by done. by rewrite Ef1, Eo1.
  - rewrite <- (app_nil_r ((h ++ new1) ++ new2)).
    rewrite (spec_at_run (h ++ new1) new2 fl2 sl2 f2 o2) by done.
    by rewrite Ef2, Eo2.
  - rewrite (spec_at_run h new1 fl1 sl1 f1 o1) by done. by rewrite Ef1, Eo1.
  - by apply prefix_app_r.
  - by apply prefix_app_r.
  - lia.
  - lia.
  - lia.
  - lia.
  - lia.
  - lia.
Qed.

Lemma getRecipes_deterministic_witness :
  exists s1 h1 s2 h2 spec,
    getRecipes_h 0 [request_cell [("rating", ">=4.5"); ("page", "2")]%string]
    = (Ok s1, h1) /\
    getRecipes_h 0 h1 = (Ok s2, h2) /\
    getRecipes (request [("rating", ">=4.5"); ("page", "2")]%string) = Ok spec /\
    spec_at h1 s1 = Some spec /\
    spec_at h2 s2 = Some spec /\
    spec_at h2 s1 = Some spec /\
    [request_cell [("rating", ">=4.5"); ("page", "2")]%string] `prefix_of` h1 /\
    h1 `prefix_of` h2 /\
    (1 <= hs_filter s1)%nat /\ (1 <= hs_sort s1)%nat /\
    (length h1 <= hs_filter s2)%nat /\ (length h1 <= hs_sort s2)%nat /\
    hs_filter s1 <> hs_sort s1 /\ hs_filter s2 <> hs_sort s2.
Proof.
  apply (getRecipes_deterministic
           [request_cell [("rating", ">=4.5"); ("page", "2")]%string] 0%nat
           (request [("rating", ">=4.5"); ("page", "2")]%string)).
  - apply strings_request.
  - apply (request_cell_holds []).
Defined.

(** Two calls in a row on the request [rating=>=4.5&sort=title:asc]:
    the heap after them holds the request, then for each call its
    [sortBy], its [filter] and the RegExp object of the one parse. *)
Example getRecipes_h_twice :
  let rq := request_cell [("rating", ">=4.5"); ("sort", "title:asc")]%string in
  let sortBy := [(js "title", HV (VNum (num 1)))] in
  let filter :=
    [(js "rating",
      HV (VObj [(js "$gte", VNum (Fin false 5066549580791808 (-50)))]))] in
  let regexp := [(js "lastIndex", HV (VNum (num 0)))] in
  exists h1,
    getRecipes_h 0 [rq]
    = (Ok (HeapSpec 2 1 (num 1) (num 10)), h1) /\
    h1 = [rq; sortBy; filter; regexp] /\
    getRecipes_h 0 h1
    = (Ok (HeapSpec 5 4 (num 1) (num 10)),
       [rq; sortBy; filter; regexp; sortBy; filter; regexp]).
Proof.
  cbv zeta. eexists. split; [vm_compute; reflexivity|].
  split; vm_compute; reflexivity.
Qed.

(** ** The conditions on [title] and on calories, in the store *)

Lemma plain_not_meta a t :
  plain (a :: t) -> (a =? 46)%N = false /\ Store.is_meta a = false /\ plain t.
Proof.
  intros H. inversion H as [|? ? Ha Ht]; subst. split_and!; [|done..].
  destruct (N.eqb_spec a 46) as [->|]; [|done]. by vm_compute in Ha.
Qed.

(** The pattern of a plain title consumes exactly a prefix equal to the
    title up to case. *)
Lemma rmatch_plain fold t :
  plain t ->
  exists r, Store.pattern fold t = Some r /\
    forall i s c (k : cont),
      rmatch r i s c k
      = if prefix_ci fold t s
        then k (i + length t)%nat (drop (length t) s) c else None.
Proof.
  induction t as [|a t IH]; intros Ht.
  - exists Eps. split; [done|]. intros i s c k. simpl.
    by rewrite Nat.add_0_r.
  - apply plain_not_meta in Ht as (H46 & Hm & Ht).
    destruct (IH Ht) as (r & Hr & Hmatch).
    exists (Seq (Cls (fun x => (fold x =? fold a)%N)) r). split.
    + cbn [Store.pattern]. rewrite Hr. cbn [mbind option_bind].
      by rewrite H46, Hm.
    + intros i s c k. destruct s as [|b s]; [done|].
      cbn [rmatch prefix_ci length drop].
      destruct (fold b =? fold a)%N; [|done].
      rewrite Hmatch. cbn [andb].
      by replace (S i + length t)%nat with (i + S (length t))%nat by lia.
Qed.

Lemma exec_from_plain fold t r :
  (forall i s c (k : cont),
      rmatch r i s c k
      = if prefix_ci fold t s
        then k (i + length t)%nat (drop (length t) s) c else None) ->
  forall s i, is_Some (exec_from r i s) <-> occurs_ci fold t s = true.
Proof.
  intros Hr. induction s as [|b s IH]; intros i; rewrite exec_from_unfold, Hr.
  - cbn [occurs_ci]. rewrite orb_false_r.
    destruct (prefix_ci fold t []); simpl; [by split; eauto|].
    split; [by intros [? ?]|done].
  - cbn [occurs_ci]. destruct (prefix_ci fold t (b :: s)); simpl.
    + split; eauto.
    + apply IH.
Qed.

Lemma passes_title_plain fold (filter : obj) doc t title :
  obj_get filter (js "title")
  = VObj [(js "$regex", VStr t); (js "$options", VStr (js "i"))] ->
  plain t -> get doc (js "title") = VStr title ->
  Store.passes_title fold filter doc = Ok (occurs_ci fold t title).
Proof.
  intros Hf Ht Hd. unfold Store.passes_title. rewrite Hf.
  rewrite decide_True by done.
  destruct (rmatch_plain fold t Ht) as (r & -> & Hr). rewrite Hd.
  f_equal. pose proof (exec_from_plain fold t r Hr title 0%nat) as H.
  unfold exec. destruct (occurs_ci fold t title).
  - apply bool_decide_eq_true. by apply H.
  - apply bool_decide_eq_false. intros H'. apply H in H'. done.
Qed.

Lemma expected_filter_title q t :
  query q "title" = QStr t -> t <> [] ->
  obj_get (expected_filter q) (js "title")
  = VObj [(js "$regex", VStr t); (js "$options", VStr (js "i"))].
Proof.
  intros Hq Ht. unfold expected_filter. rewrite Hq.
  destruct t as [|c t]; [done|]. cbn [truthy_q entry app obj_get of_q].
  by rewrite decide_True.
Qed.

(** C7, as amended. For every request made of strings in which the
    title is present and not empty, both endpoints put on [title] the
    condition [{$regex: title, $options: "i"}]: the title is the
    pattern of a case-insensitive search. When the title has none of
    the characters a pattern gives a meaning to, a record matches
    exactly when the title occurs in the title of the record, case
    ignored. *)
Theorem title_filter q t :
  strings q -> query q "title" = QStr t -> t <> [] ->
  exists spec,
    getRecipes q = Ok spec /\ searchRecipes q = Ok (qs_filter spec) /\
    obj_get (qs_filter spec) (js "title")
    = VObj [(js "$regex", VStr t); (js "$options", VStr (js "i"))] /\
    (plain t -> forall fold doc title,
       get doc (js "title") = VStr title ->
       Store.passes_title fold (qs_filter spec) doc
       = Ok (occurs_ci fold t title)).
Proof.
  intros Hq Hqt Ht. eexists. split; [by apply getRecipes_strings|].
  split; [by apply searchRecipes_strings|]. cbn [qs_filter].
  split; [by apply expected_filter_title|].
  intros Hp fold doc title Hd.
  eapply passes_title_plain; eauto. by apply expected_filter_title.
Qed.

Lemma title_filter_witness :
  exists spec,
    getRecipes (request [("title", "pie")]%string) = Ok spec /\
    searchRecipes (request [("title", "pie")]%string) = Ok (qs_filter spec) /\
    obj_get (qs_filter spec) (js "title")
    = VObj [(js "$regex", VStr (js "pie")); (js "$options", VStr (js "i"))] /\
    (plain (js "pie") -> forall fold doc title,
       get doc (js "title") = VStr title ->
       Store.passes_title fold (qs_filter spec) doc
       = Ok (occurs_ci fold (js "pie") title)).
Proof.
  apply (title_filter (request [("title", "pie")]%string) (js "pie")).
  - apply strings_request.
  - reflexivity.
  - discriminate.
Defined.

Example title_filter_example :
  exists spec,
    getRecipes (request [("title", "pie")]%string) = Ok spec /\
    Store.passes_title ascii_lower (qs_filter spec)
      (VObj [(js "title", VStr (js "Apple Pie"))]) = Ok true /\
    Store.passes_title ascii_lower (qs_filter spec)
      (VObj [(js "title", VStr (js "Apple Tart"))]) = Ok false.
Proof.
  eexists. split; [vm_compute; reflexivity|].
  split; vm_compute; reflexivity.
Qed.

(** The title [a.c] matches the record titled [abc], in which it does
    not occur: the title is read as a pattern. *)
Lemma title_is_a_pattern :
  exists spec,
    getRecipes (request [("title", "a.c")]%string) = Ok spec /\
    Store.passes_title ascii_lower (qs_filter spec)
      (VObj [(js "title", VStr (js "abc"))]) = Ok true /\
    occurs_ci ascii_lower (js "a.c") (js "abc") = false.
Proof.
  eexists. split; [vm_compute; reflexivity|].
  split; vm_compute; reflexivity.
Qed.

Lemma split_on_cons c s : exists t ts, split_on c s = t :: ts.
Proof.
  induction s as [|x s (t & ts & IH)]; simpl; [by eauto|].
  destruct (x =? c)%N; [by eauto|]. rewrite IH. eauto.
Qed.

(** The value of the expression both endpoints emit, in a record whose
    [nutrients.calories] is the string [s]. *)
Lemma eval_calories_token pd doc s :
  Store.field_path [js "nutrients"; js "calories"] doc = Ok (VStr s) ->
  Store.eval pd doc calories_token
  = Store.toDouble pd (VStr (calories_piece s)).
Proof.
  intros Hs.
  change (Store.eval pd doc calories_token)
    with (v ← (v ← (x ← (x ← Store.field_path [js "nutrients"; js "calories"] doc;
                           y ← Ok (VStr (js " "));
                           Store.split x y);
                     y ← Ok (VNum (num 0));
                     Store.arrayElemAt x y);
               Store.trim_input v);
          Store.toDouble pd v).
  rewrite Hs. cbn [mbind result_bind].
  change (Store.split (VStr s) (VStr (js " ")))
    with (Ok (VArr (List.map VStr (split_on 32 s)))).
  cbn [mbind result_bind]. unfold calories_piece.
  destruct (split_on_cons 32 s) as (t & ts & ->). reflexivity.
Qed.

Lemma predicate_of_predicates op :
  op = [] \/ op ∈ operators -> predicate_of op ∈ predicates.
Proof.
  intros H. unfold operators in H. rewrite !elem_of_cons, elem_of_nil in H.
  unfold predicates. rewrite !elem_of_cons.
  destruct H as [->|[->|[->|[->|[->|[->|[]]]]]]];
    repeat first [left; reflexivity | right].
Qed.

Lemma eval_comparison pd doc p a b :
  p ∈ predicates ->
  Store.eval pd doc (VObj [(p, VArr [a; b])])
  = (x ← Store.eval pd doc a; y ← Store.eval pd doc b;
     c ← Store.compare_values x y; r ← Store.test p c; Ok (VBool r)).
Proof.
  unfold predicates. rewrite !elem_of_cons, elem_of_nil.
  by intros [->|[->|[->|[->|[->|[]]]]]].
Qed.

Lemma test_satisfies op c :
  op = [] \/ op ∈ operators ->
  Store.test (predicate_of op) c = Ok (satisfies op c).
Proof.
  unfold operators. rewrite !elem_of_cons, elem_of_nil.
  by intros [->|[->|[->|[->|[->|[->|[]]]]]]].
Qed.

Lemma expected_filter_expr q op ws ip fp :
  query q "calories" = QStr (op ++ ws ++ decimal ip fp) ->
  op = [] \/ op ∈ operators ->
  all is_space ws -> digits ip -> fraction fp ->
  obj_get (expected_filter q) (js "$expr")
  = VObj [(predicate_of op,
           VArr [calories_token;
                 VNum (binary64 false (decimal_num ip fp) (decimal_den fp))])].
Proof.
  intros Hq Hop Hws Hip Hfp. unfold expected_filter. rewrite Hq.
  assert (numeric_condition (QStr (op ++ ws ++ decimal ip fp))
          = VObj [(predicate_of op,
                   VNum (binary64 false (decimal_num ip fp) (decimal_den fp)))])
    as -> by (unfold numeric_condition; by rewrite parseNumericFilter_grammar).
  unfold calories_condition. cbn [first_key get obj_get truthy].
  rewrite decide_True by done.
  by destruct (truthy_q (query q "title")), (truthy_q (query q "cuisine")),
    (truthy (numeric_condition (query q "rating"))),
    (truthy (numeric_condition (query q "total_time"))).
Qed.

(** C3, as amended. When the calories parameter parses to a predicate,
    both endpoints attach under [$expr] the comparison, by the parsed
    operator, of a computed value with the threshold; the value is the
    stored [nutrients.calories] string cut at each space, its first
    piece trimmed and converted to a number. For a record in which that
    piece converts, the record matches exactly when the number
    satisfies the operator, and no error is raised. *)
Theorem calories_filter q op ws ip fp :
  strings q ->
  query q "calories" = QStr (op ++ ws ++ decimal ip fp) ->
  op = [] \/ op ∈ operators ->
  all is_space ws -> digits ip -> fraction fp ->
  exists spec,
    getRecipes q = Ok spec /\ searchRecipes q = Ok (qs_filter spec) /\
    obj_get (qs_filter spec) (js "$expr")
    = VObj [(predicate_of op,
             VArr [calories_token;
                   VNum (binary64 false (decimal_num ip fp) (decimal_den fp))])] /\
    forall parse_double doc s x,
      Store.field_path [js "nutrients"; js "calories"] doc = Ok (VStr s) ->
      parse_double (calories_piece s) = Some x ->
      Store.passes_expr parse_double (qs_filter spec) doc
      = Ok (satisfies op
              (Store.compare_numbers x
                 (binary64 false (decimal_num ip fp) (decimal_den fp)))).
Proof.
  intros Hq Hc Hop Hws Hip Hfp. eexists.
  split; [by apply getRecipes_strings|].
  split; [by apply searchRecipes_strings|]. cbn [qs_filter].
  pose proof (expected_filter_expr q op ws ip fp Hc Hop Hws Hip Hfp) as He.
  split; [done|]. intros pd doc s x Hs Hx.
  unfold Store.passes_expr. rewrite He.
  rewrite eval_comparison by (by apply predicate_of_predicates).
  rewrite (eval_calories_token pd doc s Hs). cbn [Store.toDouble].
  rewrite Hx. cbn [mbind result_bind Store.eval Store.compare_values].
  by rewrite test_satisfies.
Qed.

Lemma calories_filter_witness :
  exists spec,
    getRecipes (request [("calories", "<=400")]%string) = Ok spec /\
    searchRecipes (request [("calories", "<=400")]%string)
    = Ok (qs_filter spec) /\
    obj_get (qs_filter spec) (js "$expr")
    = VObj [(predicate_of (js "<="),
             VArr [calories_token;
                   VNum (binary64 false (decimal_num (js "400") None)
                           (decimal_den None))])] /\
    forall parse_double doc s x,
      Store.field_path [js "nutrients"; js "calories"] doc = Ok (VStr s) ->
      parse_double (calories_piece s) = Some x ->
      Store.passes_expr parse_double (qs_filter spec) doc
      = Ok (satisfies (js "<=")
              (Store.compare_numbers x
                 (binary64 false (decimal_num (js "400") None)
                    (decimal_den None)))).
Proof.
  apply (calories_filter (request [("calories", "<=400")]%string)
           (js "<=") [] (js "400") None).
  - apply strings_request.
  - reflexivity.
  - right. unfold operators. rewrite !elem_of_cons. auto.
  - constructor.
  - split; [discriminate|]. by repeat constructor.
  - exact I.
Defined.

Example calories_filter_examples :
  exists spec,
    getRecipes (request [("calories", "<=400")]%string) = Ok spec /\
    Store.passes_expr decimal_double (qs_filter spec)
      (VObj [(js "nutrients", VObj [(js "calories", VStr (js "389 kcal"))])])
    = Ok true /\
    Store.passes_expr decimal_double (qs_filter spec)
      (VObj [(js "nutrients", VObj [(js "calories", VStr (js "520 kcal"))])])
    = Ok false.
Proof.
  eexists. split; [vm_compute; reflexivity|].
  split; vm_compute; reflexivity.
Qed.

(** With [calories=<=400] a record whose calories are [abc kcal] is not
    left out: converting [abc] fails, and the lookup fails with it. The
    same happens when a tab, not a space, precedes the unit. *)
Lemma calories_conversion_fails :
  exists spec,
    getRecipes (request [("calories", "<=400")]%string) = Ok spec /\
    searchRecipes (request [("calories", "<=400")]%string)
    = Ok (qs_filter spec) /\
    decimal_double (calories_piece (js "abc kcal")) = None /\
    Store.passes_expr decimal_double (qs_filter spec)
      (VObj [(js "nutrients", VObj [(js "calories", VStr (js "abc kcal"))])])
    = Throw ConversionFailure /\
    Store.passes_expr decimal_double (qs_filter spec)
      (VObj [(js "nutrients",
              VObj [(js "calories", VStr [51; 56; 57; 9; 107; 99; 97; 108]%N)])])
    = Throw ConversionFailure.
Proof.
  eexists. split; [vm_compute; reflexivity|].
  split_and!; vm_compute; reflexivity.
Qed.

(** Whatever the store converts, a piece it does not convert makes the
    lookup fail. *)
Lemma passes_expr_conversion_failure pd (filter : obj) p doc s (x : number) :
  obj_get filter (js "$expr") = VObj [(p, VArr [calories_token; VNum x])] ->
  p ∈ predicates ->
  Store.field_path [js "nutrients"; js "calories"] doc = Ok (VStr s) ->
  pd (calories_piece s) = None ->
  Store.passes_expr pd filter doc = Throw ConversionFailure.
Proof.
  intros Hf Hp Hs Hx. unfold Store.passes_expr. rewrite Hf.
  rewrite eval_comparison by done.
  rewrite (eval_calories_token pd doc s Hs). cbn [Store.toDouble].
  by rewrite Hx.
Qed.

(** ** Normalisation of the numeric fields *)

Lemma obj_get_put o k v k' :
  obj_get (obj_put o k v) k' = if decide (k = k') then v else obj_get o k'.
Proof.
  induction o as [|[k0 v0] o IH]; simpl.
  - by destruct (decide (k = k')).
  - destruct (decide (k0 = k)) as [->|Hne]; simpl.
    + by destruct (decide (k = k')).
    + destruct (decide (k0 = k')) as [->|]; [|done].
      by rewrite decide_False by done.
Qed.

Lemma obj_get_set o k v k' :
  k <> js "__proto__" ->
  obj_get (obj_set o k v) k' = if decide (k = k') then v else obj_get o k'.
Proof.
  intros H. unfold obj_set. rewrite decide_False by done. apply obj_get_put.
Qed.

Lemma numeric_fields_not_proto f : f ∈ numeric_fields -> f <> js "__proto__".
Proof.
  unfold numeric_fields. rewrite !elem_of_cons, elem_of_nil.
  by intros [->|[->|[->|[->|[]]]]].
Qed.

Lemma forEach_settles body fs :
  settles body -> Forall (fun f => f <> js "__proto__") fs ->
  forall o o', forEach fs body o = Ok o' ->
    (forall f, f ∈ fs -> number_or_null (obj_get o' f)) /\
    (forall g, g ∉ fs -> obj_get o' g = obj_get o g).
Proof.
  intros Hb. induction 1 as [|f fs Hf _ IH]; intros o o' H; simpl in H.
  - injection H as <-. split; [by intros f Hf%elem_of_nil|done].
  - destruct (body o f) as [o1|e] eqn:E; [|done]. cbn [mbind result_bind] in H.
    destruct (Hb o f o1 Hf E) as [H1 H2]. destruct (IH o1 o' H) as [H3 H4].
    split.
    + intros g Hg. destruct (decide (g ∈ fs)) as [Hin|Hnin]; [by apply H3|].
      apply elem_of_cons in Hg as [->|Hg]; [|done]. by rewrite H4.
    + intros g Hg. apply not_elem_of_cons in Hg as [Hgf Hg].
      rewrite H4 by done. by apply H2.
Qed.

Section Normalised.

Variable StringToNumber : jsstring -> number.
Variable ObjectToNumber : value -> result number.

Lemma isNaN_false n : isNaN n = false -> n <> NaN.
Proof. by destruct n. Qed.

Lemma load_field_settles : settles (load_field StringToNumber ObjectToNumber).
Proof.
  intros o f o' Hf H. unfold load_field in H.
  destruct (_ || _) eqn:E in H.
  - injection H as <-. split.
    + rewrite obj_get_set, decide_True by done. by left.
    + intros g Hg. by rewrite obj_get_set, decide_False by done.
  - destruct (Number StringToNumber ObjectToNumber (obj_get o f)) as [n|e]; [|done].
    cbn [mbind result_bind] in H. destruct (isNaN n) eqn:En.
    + injection H as <-. split.
      * rewrite obj_get_set, decide_True by done. by left.
      * intros g Hg. by rewrite obj_get_set, decide_False by done.
    + injection H as <-. split.
      * rewrite obj_get_set, decide_True by done. right.
        exists n. split; [done|]. by apply isNaN_false.
      * intros g Hg. by rewrite obj_get_set, decide_False by done.
Qed.

Lemma add_field_settles : settles (add_field StringToNumber ObjectToNumber).
Proof.
  intros o f o' Hf H. unfold add_field in H.
  destruct (_ || _) eqn:E in H.
  - injection H as <-. split.
    + rewrite obj_get_set, decide_True by done. by left.
    + intros g Hg. by rewrite obj_get_set, decide_False by done.
  - destruct (Number StringToNumber ObjectToNumber (obj_get o f)) as [n|e] eqn:En; [|done].
    cbn [mbind result_bind] in H. destruct (isNaN n) eqn:EN.
    + injection H as <-. split.
      * rewrite obj_get_set, decide_True by done. by left.
      * intros g Hg. by rewrite obj_get_set, decide_False by done.
    + destruct (negb (is_undefined _) && negb (is_null _)) eqn:Ev.
      * cbn [mbind result_bind] in H. injection H as <-.
        split.
        -- rewrite obj_get_set, decide_True by done. right.
           exists n. split; [done|]. by apply isNaN_false.
        -- intros g Hg. by rewrite obj_get_set, decide_False by done.
      * injection H as <-. split; [|done].
        destruct (obj_get o f); simpl in Ev; try done; [|by left].
        simpl in En. by injection En as <-.
Qed.

Lemma loadRecipes_settled recipes :
  forall cleaned,
    loadRecipes StringToNumber ObjectToNumber recipes = Ok cleaned ->
    length cleaned = length recipes /\
    Forall (fun r => forall f, f ∈ numeric_fields ->
                               number_or_null (obj_get r f)) cleaned.
Proof.
  induction recipes as [|r rs IH]; intros cleaned H.
  - injection H as <-. by split.
  - change (loadRecipes StringToNumber ObjectToNumber (r :: rs))
      with (copy ← forEach numeric_fields (load_field StringToNumber ObjectToNumber) r;
            rest ← loadRecipes StringToNumber ObjectToNumber rs;
            Ok (copy :: rest)) in H.
    destruct (forEach numeric_fields (load_field StringToNumber ObjectToNumber) r) as [copy|e] eqn:E;
      [|done].
    cbn [mbind result_bind] in H.
    destruct (loadRecipes _ _ rs) as [rest|e]; [|done].
    cbn [mbind result_bind] in H. injection H as <-.
    destruct (IH rest eq_refl) as [Hlen Hrest]. split; [simpl; by f_equal|].
    constructor; [|done].
    eapply forEach_settles in E as [E _]; [done|apply load_field_settles|].
    apply Forall_forall. apply numeric_fields_not_proto.
Qed.

Lemma addRecipe_settled payload out :
  addRecipe StringToNumber ObjectToNumber payload = Ok out ->
  forall f, f ∈ numeric_fields -> number_or_null (obj_get out f).
Proof.
  intros H. eapply forEach_settles in H as [H _];
    [done|apply add_field_settles|].
  apply Forall_forall. apply numeric_fields_not_proto.
Qed.

(** When the conversion of objects does not throw, neither loop does. *)
Hypothesis ObjectToNumber_total : forall v, exists n, ObjectToNumber v = Ok n.

Lemma Number_total v : exists n, Number StringToNumber ObjectToNumber v = Ok n.
Proof. destruct v; simpl; eauto. Qed.

Lemma load_field_total o f : exists o', load_field StringToNumber ObjectToNumber o f = Ok o'.
Proof.
  unfold load_field. destruct (_ || _); [by eauto|].
  destruct (Number_total (obj_get o f)) as [n ->]. cbn [mbind result_bind].
  destruct (isNaN n); eauto.
Qed.

Lemma add_field_total o f : exists o', add_field StringToNumber ObjectToNumber o f = Ok o'.
Proof.
  unfold add_field. destruct (_ || _); [by eauto|].
  destruct (Number_total (obj_get o f)) as [n Hn]. rewrite Hn.
  cbn [mbind result_bind]. destruct (isNaN n); [by eauto|].
  destruct (_ && _); [|by eauto]. rewrite ?Hn. cbn [mbind result_bind]. eauto.
Qed.

Lemma forEach_total body fs :
  (forall o f, exists o', body o f = Ok o') ->
  forall o, exists o', forEach fs body o = Ok o'.
Proof.
  intros Hb. induction fs as [|f fs IH]; intros o; simpl; [by eauto|].
  destruct (Hb o f) as [o1 ->]. cbn [mbind result_bind]. apply IH.
Qed.

Lemma loadRecipes_total recipes :
  exists cleaned, loadRecipes StringToNumber ObjectToNumber recipes = Ok cleaned.
Proof.
  induction recipes as [|r rs [rest IH]]; [by exists []|].
  change (loadRecipes StringToNumber ObjectToNumber (r :: rs))
    with (copy ← forEach numeric_fields (load_field StringToNumber ObjectToNumber) r;
          rest ← loadRecipes StringToNumber ObjectToNumber rs;
          Ok (copy :: rest)).
  destruct (forEach_total (load_field StringToNumber ObjectToNumber) numeric_fields load_field_total r)
    as [copy ->].
  cbn [mbind result_bind]. rewrite IH. cbn [mbind result_bind]. eauto.
Qed.

Lemma addRecipe_total payload :
  exists out, addRecipe StringToNumber ObjectToNumber payload = Ok out.
Proof. apply forEach_total. apply add_field_total. Qed.

End Normalised.

(** C8. Whatever the conversion of the runtime makes of strings and of
    objects: in every record [loadRecipes] returns, and in every body
    [addRecipe] hands on, each of [rating], [prep_time], [cook_time] and
    [total_time] is [null] or a Number other than NaN, never a string;
    and both return whenever the conversion of objects does not throw. *)
Theorem numeric_fields_normalised
    (StringToNumber : jsstring -> number)
    (ObjectToNumber : value -> result number) :
  (forall recipes cleaned,
     loadRecipes StringToNumber ObjectToNumber recipes = Ok cleaned ->
     length cleaned = length recipes /\
     Forall (fun r => forall f, f ∈ numeric_fields ->
                                number_or_null (obj_get r f)) cleaned)
  /\ (forall payload out,
        addRecipe StringToNumber ObjectToNumber payload = Ok out ->
        forall f, f ∈ numeric_fields -> number_or_null (obj_get out f))
  /\ ((forall v, exists n, ObjectToNumber v = Ok n) ->
      forall recipes payload,
        (exists cleaned,
           loadRecipes StringToNumber ObjectToNumber recipes = Ok cleaned)
        /\ (exists out,
              addRecipe StringToNumber ObjectToNumber payload = Ok out)).
Proof.
  split_and!.
  - intros recipes. apply loadRecipes_settled.
  - intros payload out. apply addRecipe_settled.
  - intros Ht recipes payload. split.
    + by apply loadRecipes_total.
    + by apply addRecipe_total.
Qed.

Lemma numeric_fields_normalised_witness :
  exists cleaned out,
    loadRecipes sample_StringToNumber sample_ObjectToNumber [sample_record]
    = Ok cleaned /\
    addRecipe sample_StringToNumber sample_ObjectToNumber sample_record
    = Ok out /\
    Forall (fun r => forall f, f ∈ numeric_fields ->
                               number_or_null (obj_get r f)) cleaned /\
    forall f, f ∈ numeric_fields -> number_or_null (obj_get out f).
Proof.
  destruct (numeric_fields_normalised sample_StringToNumber
              sample_ObjectToNumber) as (Hload & Hadd & Htotal).
  destruct (Htotal ltac:(intros v; by exists NaN) [sample_record] sample_record)
    as [[cleaned Hc] [out Ho]].
  exists cleaned, out. split_and!; [done..| |].
  - by apply (Hload [sample_record] cleaned).
  - by apply (Hadd sample_record out).
Defined.

Example loadRecipes_example :
  loadRecipes sample_StringToNumber sample_ObjectToNumber [sample_record]
  = Ok [[(js "title", VStr (js "Pie"));
         (js "rating", VNum (Fin false 5066549580791808 (-50)));
         (js "prep_time", VNull); (js "cook_time", VNull);
         (js "total_time", VNull)]].
Proof. vm_compute. reflexivity. Qed.

(** * Further properties *)

(** ** Requests of any shape *)

Lemma numeric_step_any (filter : obj) v k :
  (if truthy_q v
   then parsed ← parseNumericFilter v;
        Ok (if truthy parsed then obj_set filter k parsed else filter)
   else Ok filter)
  = if is_compound v then Throw TypeError
    else Ok (if truthy (numeric_condition v)
             then obj_set filter k (numeric_condition v) else filter).
Proof.
  destruct v as [| |s|l|o]; try done.
  apply (numeric_step filter (QStr s) k). right. by exists s.
Qed.

Lemma calories_step_any (filter : obj) v :
  (if truthy_q v
   then parsed ← parseNumericFilter v;
        Ok (if truthy parsed
            then let operator := first_key parsed in
                 let value := get parsed operator in
                 obj_set filter (js "$expr")
                   (VObj [(operator, VArr [calories_token; value])])
            else filter)
   else Ok filter)
  = if is_compound v then Throw TypeError
    else Ok (if truthy (numeric_condition v)
             then obj_set filter (js "$expr")
                    (calories_condition (numeric_condition v))
             else filter).
Proof.
  destruct v as [| |s|l|o]; try done.
  apply (calories_step filter (QStr s)). right. by exists s.
Qed.

Lemma sort_step_any v :
  (if truthy_q v then
     parts ← str_split v 58;
     let field := match parts !! 0%nat with
                  | Some f => f
                  | None => js "undefined"
                  end in
     let dir := if decide (parts !! 1%nat = Some (js "asc"))
                then num 1 else num (-1) in
     Ok (obj_set [] field (VNum dir))
   else Ok [(js "rating", VNum (num (-1)))])
  = if is_compound v then Throw TypeError
    else Ok (match v with
             | QStr (c :: s) =>
                 obj_set [] (field_part (c :: s)) (VNum (direction (c :: s)))
             | _ => [(js "rating", VNum (num (-1)))]
             end).
Proof.
  destruct v as [| |s|l|o]; try done.
  apply (sort_step (QStr s)). right. by exists s.
Qed.

(** The conversion to a string throws on the unprintable values, a
    [TypeError], and on no other. *)
Lemma ToString_unprintable :
  forall v, if unprintable v then ToString v = Throw TypeError
            else exists s, ToString v = Ok s.
Proof.
  fix IH 1. intros [| |s|l|o]; cbn [unprintable ToString]; try by eauto.
  - assert (Hl : Forall (fun x => if unprintable x
                                  then ToString x = Throw TypeError
                                  else exists s, ToString x = Ok s) l).
    { clear -IH. revert l. fix IHl 1. intros [|x l]; constructor.
      - apply IH.
      - apply IHl. }
    clear IH. induction Hl as [|x l Hx _ IHl];
      [cbn [existsb each_string mbind result_bind]; by eauto|].
    cbn [existsb each_string].
    destruct (unprintable x).
    + cbn [orb]. destruct x; try done; by rewrite Hx.
    + cbn [orb]. destruct Hx as [s Hs].
      assert (match x with
              | QUndef | QNull => Ok []
              | _ => ToString x
              end = Ok (match x with QUndef | QNull => [] | _ => s end)) as ->
        by (by destruct x).
      cbn [mbind result_bind].
      destruct (existsb unprintable l).
      * destruct (each_string ToString l); [done|].
        cbn [mbind result_bind] in *. done.
      * destruct IHl as [s' Hs'].
        destruct (each_string ToString l); [|done].
        cbn [mbind result_bind]. eauto.
  - destruct (has_own o (js "toString")); eauto.
Qed.

Lemma ToString_throws v e :
  ToString v = Throw e <-> e = TypeError /\ unprintable v = true.
Proof.
  pose proof (ToString_unprintable v) as H. destruct (unprintable v).
  - rewrite H. split; [by intros [= <-]|by intros [-> _]].
  - destruct H as [s ->]. split; [done|by intros [_ ?]].
Qed.

Lemma parseInt_unprintable v :
  parseInt v = if unprintable v then Throw TypeError else Ok (parsed_int v).
Proof.
  unfold parsed_int, parseInt. pose proof (ToString_unprintable v) as H.
  destruct (unprintable v); [by rewrite H|]. by destruct H as [s ->].
Qed.

(** What [getRecipes] does on any request: a [page] or [limit] that
    does not convert to a string, or an array or object among the
    parameters it calls a method on, makes it throw; otherwise it
    returns the expected spec. *)
Lemma getRecipes_any q :
  getRecipes q
  = if unprintable (query q "page") || unprintable (query q "limit")
       || is_compound (query q "sort") || is_compound (query q "rating")
       || is_compound (query q "total_time")
       || is_compound (query q "calories")
    then Throw TypeError
    else Ok (QuerySpec (expected_filter q) (expected_sort q)
               (or_number (parsed_int (query q "page")) (num 1))
               (or_number (parsed_int (query q "limit")) (num 10))).
Proof.
  unfold getRecipes. rewrite !parseInt_unprintable.
  destruct (unprintable (query q "page")); [done|].
  cbn [mbind result_bind orb].
  destruct (unprintable (query q "limit")); [done|].
  cbn [mbind result_bind orb]. rewrite sort_step_any.
  destruct (is_compound (query q "sort")); [done|].
  cbn [mbind result_bind orb]. rewrite numeric_step_any.
  destruct (is_compound (query q "rating")); [done|].
  cbn [mbind result_bind orb]. rewrite numeric_step_any.
  destruct (is_compound (query q "total_time")); [done|].
  cbn [mbind result_bind orb]. rewrite calories_step_any.
  destruct (is_compound (query q "calories")); [done|].
  cbn [mbind result_bind]. f_equal. f_equal. apply filter_steps.
Qed.

Lemma searchRecipes_any q :
  searchRecipes q
  = if is_compound (query q "rating") || is_compound (query q "total_time")
       || is_compound (query q "calories")
    then Throw TypeError
    else Ok (expected_filter q).
Proof.
  unfold searchRecipes. rewrite numeric_step_any.
  destruct (is_compound (query q "rating")); [done|].
  cbn [mbind result_bind orb]. rewrite numeric_step_any.
  destruct (is_compound (query q "total_time")); [done|].
  cbn [mbind result_bind orb]. rewrite calories_step_any.
  destruct (is_compound (query q "calories")); [done|].
  cbn [mbind result_bind]. f_equal. apply filter_steps.
Qed.

(** X1. [getRecipes] throws exactly when converting [page] or [limit]
    to a string throws, or [sort], [rating], [total_time] or [calories]
    is an array or an object; [searchRecipes] exactly when one of the
    last three is. What they throw is a [TypeError]. The conversion
    throws exactly on an object with an own property [toString] and on
    an array that holds such a value. Whatever [title] and [cuisine]
    are, they make neither endpoint throw. *)
Theorem builders_throw_on_compound q :
  (forall e, getRecipes q = Throw e <->
             e = TypeError /\
             ((exists p, p ∈ converted_parameters /\
                         ToString (query q p) = Throw TypeError)
              \/ exists p, p ∈ method_parameters /\
                           is_compound (query q p) = true))
  /\ (forall e, searchRecipes q = Throw e <->
                e = TypeError /\
                exists p, p ∈ tail method_parameters /\
                          is_compound (query q p) = true)
  /\ (forall v e, ToString v = Throw e <-> e = TypeError /\ unprintable v = true).
Proof.
  unfold method_parameters, converted_parameters. cbn [tail].
  split; [|split]; [intros e..|apply ToString_throws].
  - rewrite getRecipes_any. set (b := _ || _).
    assert (Hb : b = true <->
                 (exists p, p ∈ ["page"; "limit"]%string
                            /\ ToString (query q p) = Throw TypeError)
                 \/ exists p, p ∈ ["sort"; "rating"; "total_time"; "calories"]%string
                              /\ is_compound (query q p) = true).
    { unfold b. rewrite !orb_true_iff. split.
      - intros [[[[[H|H]|H]|H]|H]|H].
        1,2: left; eexists; split;
          [|apply ToString_throws; split; [done|exact H]];
          rewrite !elem_of_cons; auto 10.
        all: right; eexists; (split; [|exact H]);
          rewrite !elem_of_cons; auto 10.
      - intros [(p & Hp & Hc)|(p & Hp & Hc)];
          rewrite !elem_of_cons, elem_of_nil in Hp.
        + apply ToString_throws in Hc as [_ Hc].
          destruct Hp as [->|[->|[]]]; auto 10.
        + destruct Hp as [->|[->|[->|[->|[]]]]]; auto 10. }
    destruct b; split.
    + intros [= <-]. split; [done|]. by apply Hb.
    + by intros [-> _].
    + done.
    + intros [_ H]. by apply Hb in H.
  - rewrite searchRecipes_any. set (b := _ || _).
    assert (Hb : b = true <->
                 exists p, p ∈ ["rating"; "total_time"; "calories"]%string
                           /\ is_compound (query q p) = true).
    { unfold b. rewrite !orb_true_iff. split.
      - intros [[H|H]|H]; eexists; (split; [|exact H]);
          rewrite !elem_of_cons; auto 10.
      - intros (p & Hp & Hc). rewrite !elem_of_cons, elem_of_nil in Hp.
        destruct Hp as [->|[->|[->|[]]]]; auto. }
    destruct b; split.
    + intros [= <-]. split; [done|]. by apply Hb.
    + by intros [-> _].
    + done.
    + intros [_ H]. by apply Hb in H.
Qed.

(** [page[toString]=1] makes [getRecipes] throw and leaves
    [searchRecipes] alone; so does an array that holds such an
    object. An object without the property prints, and gives the
    default page. *)
Example getRecipes_toString_throws :
  getRecipes {[ js "page" := QObj [(js "toString", QStr (js "1"))] ]}
  = Throw TypeError
  /\ searchRecipes {[ js "page" := QObj [(js "toString", QStr (js "1"))] ]}
     = Ok []
  /\ getRecipes {[ js "limit" :=
                     QArr [QStr (js "5");
                           QObj [(js "toString", QStr (js "1"))]] ]}
     = Throw TypeError
  /\ (exists spec,
         getRecipes {[ js "page" := QObj [(js "x", QStr (js "1"))] ]} = Ok spec
         /\ qs_page spec = num 1).
Proof.
  split_and!; try (vm_compute; reflexivity).
  eexists. split; vm_compute; reflexivity.
Qed.

Lemma getRecipes_Ok_spec q spec :
  getRecipes q = Ok spec ->
  spec = QuerySpec (expected_filter q) (expected_sort q)
           (or_number (parsed_int (query q "page")) (num 1))
           (or_number (parsed_int (query q "limit")) (num 10))
  /\ is_compound (query q "sort") = false.
Proof.
  rewrite getRecipes_any. destruct (unprintable (query q "page")); [done|].
  destruct (unprintable (query q "limit")); [done|]. cbn [orb].
  destruct (is_compound (query q "sort")); [done|].
  destruct (_ || _); [done|]. by intros [= <-].
Qed.

(** X2. Whatever shape [title] and [cuisine] have, they are not
    inspected: when [getRecipes] returns, a truthy [cuisine] is the
    condition on [cuisine] as it came, an object of operators
    included, and a truthy [title] is the pattern of the condition on
    [title] as it came; a falsy one leaves the field out. *)
Theorem getRecipes_passes_values_on q spec :
  getRecipes q = Ok spec ->
  obj_get (qs_filter spec) (js "cuisine")
  = (if truthy_q (query q "cuisine") then of_q (query q "cuisine") else VUndef)
  /\ obj_get (qs_filter spec) (js "title")
     = (if truthy_q (query q "title")
        then VObj [(js "$regex", of_q (query q "title"));
                   (js "$options", VStr (js "i"))]
        else VUndef).
Proof.
  intros (-> & _)%getRecipes_Ok_spec. cbn [qs_filter]. unfold expected_filter.
  destruct (truthy_q (query q "title")), (truthy_q (query q "cuisine")),
    (truthy (numeric_condition (query q "rating"))),
    (truthy (numeric_condition (query q "total_time"))),
    (truthy (numeric_condition (query q "calories"))); by split.
Qed.

Lemma getRecipes_passes_values_on_witness :
  obj_get
    (qs_filter
       (QuerySpec
          [(js "cuisine", VObj [(js "$ne", VStr (js "x"))])]
          [(js "rating", VNum (num (-1)))] (num 1) (num 10)))
    (js "cuisine")
  = (if truthy_q (query {[ js "cuisine" := QObj [(js "$ne", QStr (js "x"))] ]}
                    "cuisine")
     then of_q (query {[ js "cuisine" := QObj [(js "$ne", QStr (js "x"))] ]}
                  "cuisine")
     else VUndef)
  /\ obj_get
       (qs_filter
          (QuerySpec
             [(js "cuisine", VObj [(js "$ne", VStr (js "x"))])]
             [(js "rating", VNum (num (-1)))] (num 1) (num 10)))
       (js "title")
     = (if truthy_q (query {[ js "cuisine" := QObj [(js "$ne", QStr (js "x"))] ]}
                       "title")
        then VObj [(js "$regex",
                    of_q (query {[ js "cuisine" := QObj [(js "$ne", QStr (js "x"))] ]}
                            "title"));
                   (js "$options", VStr (js "i"))]
        else VUndef).
Proof.
  apply (getRecipes_passes_values_on
           {[ js "cuisine" := QObj [(js "$ne", QStr (js "x"))] ]}).
  vm_compute. reflexivity.
Defined.

(** X3. When [getRecipes] returns, the sort has at most one field, and
    the direction of that field is 1 or -1. *)
Theorem getRecipes_sort_shape q spec :
  getRecipes q = Ok spec ->
  (length (qs_sort spec) <= 1)%nat /\
  Forall (fun kv => snd kv = VNum (num 1) \/ snd kv = VNum (num (-1)))
    (qs_sort spec).
Proof.
  intros (-> & _)%getRecipes_Ok_spec. cbn [qs_sort]. unfold expected_sort.
  assert (Hd : (length [(js "rating", VNum (num (-1)))] <= 1)%nat /\
               Forall (fun kv : jsstring * value =>
                         snd kv = VNum (num 1) \/ snd kv = VNum (num (-1)))
                 [(js "rating", VNum (num (-1)))]).
  { split; [simpl; lia|]. constructor; [by right|constructor]. }
  destruct (query q "sort") as [| |[|c s]|l|o]; try exact Hd.
  unfold obj_set, direction. case_decide; [split; [simpl; lia|constructor]|].
  split; [simpl; lia|]. constructor; [|constructor].
  simpl. case_decide; auto.
Qed.

Lemma getRecipes_sort_shape_witness :
  (length (qs_sort (QuerySpec [] [(js "title", VNum (num (-1)))]
                      (num 1) (num 10))) <= 1)%nat /\
  Forall (fun kv => snd kv = VNum (num 1) \/ snd kv = VNum (num (-1)))
    (qs_sort (QuerySpec [] [(js "title", VNum (num (-1)))] (num 1) (num 10))).
Proof.
  apply (getRecipes_sort_shape (request [("sort", "title:down")]%string)).
  vm_compute. reflexivity.
Defined.

Lemma binary64_sign neg n d :
  (exists m e, binary64 neg n d = Fin neg m e) \/ binary64 neg n d = Inf neg.
Proof.
  unfold binary64. destruct (n =? 0); [by eauto|]. cbv zeta.
  destruct (emax <? _); eauto.
Qed.

(** X4. [parseNumericFilter] returns one of three things: it throws a
    [TypeError], or returns [null], or returns an object with exactly
    one key, among [$gt], [$lt], [$gte], [$lte] and [$eq], whose value
    is a Number that is neither NaN nor negative. *)
Theorem parseNumericFilter_shape v :
  parseNumericFilter v = Throw TypeError
  \/ parseNumericFilter v = Ok VNull
  \/ exists p x,
       parseNumericFilter v = Ok (VObj [(p, VNum x)]) /\
       p ∈ predicates /\ nonnegative x.
Proof.
  destruct v as [| |s|l|o]; try (by left); try (by right; left).
  destruct (exec numeric_re s) as [m|] eqn:E.
  - apply exec_numeric_re_sound in E
      as (op & ws & ip & fp & -> & Hop & Hws & Hip & Hfp).
    right. right. eexists _, _.
    split; [by apply parseNumericFilter_grammar|].
    split; [by apply predicate_of_predicates|]. apply binary64_sign.
  - right. left. apply parseNumericFilter_outside. right. right.
    exists s. split; [done|]. by apply not_in_grammar.
Qed.

Lemma digits_last l :
  digits l -> exists t c, l = t ++ [c] /\ is_digit c = true.
Proof.
  intros [Hne Hl]. destruct (exists_last Hne) as (t & c & ->).
  exists t, c. split; [done|]. apply Forall_app in Hl as [_ Hc].
  by inversion Hc.
Qed.

Lemma in_grammar_ends s :
  in_grammar s ->
  (exists c t, s = c :: t /\ can_start c = true)
  /\ (exists t c, s = t ++ [c] /\ is_digit c = true).
Proof.
  intros (op & ws & ip & fp & -> & Hop & Hws & Hip & Hfp). split.
  - destruct Hop as [->|Hop].
    + pose proof (plain_head_tail ws ip fp Hws Hip) as Hh.
      destruct (ws ++ decimal ip fp) as [|c t] eqn:E; [done|].
      exists c, t. split; [done|]. unfold can_start.
      destruct Hh as [-> | ->]; by rewrite ?orb_true_r.
    + unfold operators in Hop. rewrite !elem_of_cons, elem_of_nil in Hop.
      destruct Hop as [->|[->|[->|[->|[->|[]]]]]]; by eexists _, _.
  - unfold decimal. destruct fp as [f|].
    + destruct (digits_last f Hfp) as (t & c & -> & Hc).
      exists (op ++ ws ++ ip ++ 46%N :: t), c. split; [|done].
      by rewrite <- !app_assoc.
    + destruct (digits_last ip Hip) as (t & c & -> & Hc).
      exists (op ++ ws ++ t), c. split; [|done].
      by rewrite app_nil_r, <- !app_assoc.
Qed.

(** X5. A string that does not end in a digit is rejected with [null]:
    white space after the number, a unit, a point without digits. So
    is a string that does not start with [<], [=], [>], white space or
    a digit: a sign, a point. *)
Theorem parseNumericFilter_rejects_by_ends s :
  (exists c t, s = c :: t /\ can_start c = false)
  \/ (exists t c, s = t ++ [c] /\ is_digit c = false) ->
  parseNumericFilter (QStr s) = Ok VNull.
Proof.
  intros H. apply parseNumericFilter_outside. right. right.
  exists s. split; [done|]. intros [Hfirst Hlast]%in_grammar_ends.
  destruct H as [(c & t & -> & Hc)|(t & c & -> & Hc)].
  - destruct Hfirst as (c' & t' & [= <- <-] & Hc'). congruence.
  - destruct Hlast as (t' & c' & [<- <-]%app_inj_tail & Hc'). congruence.
Qed.

Lemma parseNumericFilter_rejects_by_ends_witness :
  parseNumericFilter (QStr (js ">=4.5" ++ [32%N])) = Ok VNull.
Proof.
  apply (parseNumericFilter_rejects_by_ends (js ">=4.5" ++ [32%N])).
  right. exists (js ">=4.5"), 32%N. split; reflexivity.
Defined.

(** ** Integers in [page] and [limit] *)

Lemma strip_sign_of sign t :
  sign = [] \/ sign = js "-" \/ sign = js "+" -> stops is_sign t ->
  strip_sign (sign ++ t) = (bool_decide (sign = js "-"), t).
Proof.
  intros [->|[->| ->]] Ht; [|done..]. simpl app. by rewrite strip_sign_none.
Qed.

Lemma sign_not_space sign t :
  sign = [] \/ sign = js "-" \/ sign = js "+" -> stops is_space t ->
  stops is_space (sign ++ t).
Proof. by intros [->|[->| ->]] Ht. Qed.

Lemma parseInt_integer_text s ws sign ds rest :
  integer_text s ws sign ds rest ->
  parseInt_string s
  = binary64 (bool_decide (sign = js "-")) (digits_val ds) 1.
Proof.
  intros (-> & Hws & Hsign & [Hne Hds] & Hrest & Hhex).
  destruct ds as [|c0 ds]; [done|].
  inversion Hds as [|? ? Hc0 Hds']; subst.
  unfold parseInt_string. rewrite span_all; [|done|].
  2: { apply sign_not_space; [done|]. simpl. by apply digit_not_space. }
  cbn [snd]. rewrite strip_sign_of; [|done|simpl; by apply digit_not_sign].
  assert (match (c0 :: ds) ++ rest with
          | c0 :: c1 :: _ => ((c0 =? 48) && ((c1 =? 120) || (c1 =? 88)))%N
          | _ => false
          end = false) as ->.
  { destruct ds as [|c1 ds].
    - destruct rest as [|c1 rest]; [done|]. simpl.
      destruct (N.eqb_spec c0 48) as [->|]; [|done].
      specialize (Hhex eq_refl). simpl in Hhex. unfold is_x in Hhex.
      by rewrite Hhex.
    - inversion Hds' as [|? ? Hc1 _]; subst. apply digit_code in Hc1. simpl.
      destruct (N.eqb_spec c1 120); [lia|]. destruct (N.eqb_spec c1 88); [lia|].
      by rewrite andb_false_r. }
  rewrite span_all by done. done.
Qed.

Lemma or_number_signed neg n dflt :
  0 <= n ->
  or_number (binary64 neg n 1) (num dflt)
  = if decide (n = 0) then num dflt else binary64 neg n 1.
Proof.
  intros Hn. unfold or_number. case_decide as Hz.
  - subst. by destruct neg.
  - by rewrite binary64_integer_truthy by lia.
Qed.

(** X6. For every request made of strings, when [page] is white space,
    an optional sign, a run of digits and then anything that does not
    go on with a digit (and the digits are not the [0] of [0x]), the
    page is the integer the digits write, with its sign: what follows
    the digits is ignored, a minus sign gives a negative page, and
    digits worth zero give the default 1. The limit likewise, with the
    default 10. *)
Theorem getRecipes_integer_prefix q :
  strings q ->
  exists spec,
    getRecipes q = Ok spec /\
    (forall s ws sign ds rest,
        query q "page" = QStr s -> integer_text s ws sign ds rest ->
        qs_page spec = signed_page sign ds 1) /\
    (forall s ws sign ds rest,
        query q "limit" = QStr s -> integer_text s ws sign ds rest ->
        qs_limit spec = signed_page sign ds 10).
Proof.
  intros Hq. eexists. split; [by apply getRecipes_strings|].
  split; intros s ws sign ds rest -> Ht; cbn [qs_page qs_limit];
    unfold expected_page, signed_page; cbn [text];
    rewrite (parseInt_integer_text _ _ _ _ _ Ht);
    apply or_number_signed, digits_val_nonneg, Ht.
Qed.

Lemma getRecipes_integer_prefix_witness :
  exists spec,
    getRecipes (request [("page", "2.7"); ("limit", "-0")]%string) = Ok spec /\
    (forall s ws sign ds rest,
        query (request [("page", "2.7"); ("limit", "-0")]%string) "page" = QStr s ->
        integer_text s ws sign ds rest ->
        qs_page spec = signed_page sign ds 1) /\
    (forall s ws sign ds rest,
        query (request [("page", "2.7"); ("limit", "-0")]%string) "limit" = QStr s ->
        integer_text s ws sign ds rest ->
        qs_limit spec = signed_page sign ds 10).
Proof.
  apply (getRecipes_integer_prefix
           (request [("page", "2.7"); ("limit", "-0")]%string)).
  apply strings_request.
Defined.

Example getRecipes_integer_prefix_examples :
  integer_text (js "2.7") [] [] (js "2") (js ".7")
  /\ signed_page [] (js "2") 1 = num 2
  /\ integer_text (js " -12abc") (js " ") (js "-") (js "12") (js "abc")
  /\ signed_page (js "-") (js "12") 1 = num (-12)
  /\ signed_page (js "-") (js "0") 10 = num 10.
Proof.
  unfold integer_text, digits, no_hex_prefix, all.
  split_and!; try (vm_compute; reflexivity); try discriminate;
    try (by repeat constructor); auto.
Qed.

Lemma hex_val_nonneg c : 0 <= default 0 (hex_val c).
Proof.
  unfold hex_val. destruct (is_digit c) eqn:E1; simpl.
  { apply digit_code in E1. lia. }
  destruct (N.leb_spec 97 c); simpl; [destruct (c <=? 102)%N; simpl; [lia|]|].
  all: destruct (N.leb_spec 65 c); simpl; [destruct (c <=? 70)%N; simpl|]; lia.
Qed.

Lemma hex_digits_val_from_nonneg hs :
  forall acc, 0 <= acc ->
  0 <= fold_left (fun acc c => 16 * acc + default 0 (hex_val c)) hs acc.
Proof.
  induction hs as [|c hs IH]; intros acc Hacc; [done|].
  simpl. apply IH. pose proof (hex_val_nonneg c). lia.
Qed.

Lemma parseInt_hex_text s ws sign hs rest x :
  hex_text s ws sign hs rest x ->
  parseInt_string s
  = binary64 (bool_decide (sign = js "-")) (hex_digits_val hs) 1.
Proof.
  intros (-> & Hws & Hsign & Hx & Hne & Hhs & Hrest).
  unfold parseInt_string. rewrite span_all; [|done|].
  2: { by apply sign_not_space. }
  cbn [snd]. rewrite strip_sign_of; [|done..].
  unfold is_x in Hx. cbn [drop]. rewrite N.eqb_refl, Hx. cbn [andb].
  rewrite drop_0, span_all by done. by destruct hs.
Qed.

(** X7. For every request made of strings, when [page] is white space,
    an optional sign, [0x] or [0X], hexadecimal digits and then
    anything that does not go on with one, the page is the integer the
    digits write in radix 16, with its sign, or the default 1 when
    they are worth zero. The limit likewise, with the default 10. *)
Theorem getRecipes_hex_prefix q :
  strings q ->
  exists spec,
    getRecipes q = Ok spec /\
    (forall s ws sign hs rest x,
        query q "page" = QStr s -> hex_text s ws sign hs rest x ->
        qs_page spec = signed_hex_page sign hs 1) /\
    (forall s ws sign hs rest x,
        query q "limit" = QStr s -> hex_text s ws sign hs rest x ->
        qs_limit spec = signed_hex_page sign hs 10).
Proof.
  intros Hq. eexists. split; [by apply getRecipes_strings|].
  split; intros s ws sign hs rest x -> Ht; cbn [qs_page qs_limit];
    unfold expected_page, signed_hex_page; cbn [text];
    rewrite (parseInt_hex_text _ _ _ _ _ _ Ht);
    apply or_number_signed; by apply hex_digits_val_from_nonneg.
Qed.

Lemma getRecipes_hex_prefix_witness :
  exists spec,
    getRecipes (request [("page", "0x1F")]%string) = Ok spec /\
    (forall s ws sign hs rest x,
        query (request [("page", "0x1F")]%string) "page" = QStr s ->
        hex_text s ws sign hs rest x ->
        qs_page spec = signed_hex_page sign hs 1) /\
    (forall s ws sign hs rest x,
        query (request [("page", "0x1F")]%string) "limit" = QStr s ->
        hex_text s ws sign hs rest x ->
        qs_limit spec = signed_hex_page sign hs 10).
Proof.
  apply (getRecipes_hex_prefix (request [("page", "0x1F")]%string)).
  apply strings_request.
Defined.

Example getRecipes_hex_prefix_example :
  hex_text (js "0x1F") [] [] (js "1F") [] 120
  /\ signed_hex_page [] (js "1F") 1 = num 31.
Proof.
  unfold hex_text, all.
  split_and!; try (vm_compute; reflexivity); try discriminate;
    try (by repeat constructor); auto.
Qed.

(** ** Thresholds: overflow and equal values *)

Lemma ilog2_ratio_bounds n d l :
  0 < n -> 0 < d -> 0 <= l ->
  (l <= ilog2_ratio n d -> d * 2 ^ l <= n)
  /\ (ilog2_ratio n d < l -> n < d * 2 ^ l).
Proof.
  intros Hn Hd Hl. destruct (ilog2_ratio_spec n d Hn Hd) as [H1 H2].
  pose proof (inject_pos d Hd) as HD. split; intros H.
  - rewrite Zle_Qle, inject_Z_mult, inject_two_pow by done.
    eapply Qle_trans; [|exact H1].
    apply Qmult_le_l; [done|]. by apply two_pow_le.
  - rewrite Zlt_Qlt, inject_Z_mult, inject_two_pow by done.
    eapply Qlt_le_trans; [exact H2|].
    apply Qmult_le_l; [done|]. apply two_pow_le. lia.
Qed.

(** Rounding reaches an even bound [k] from below exactly from half a
    unit under it. *)
Lemma round_half_even_top num den k :
  0 < den -> Z.even k = true -> 0 <= num < k * den ->
  round_half_even num den = k <-> (2 * k - 1) * den <= 2 * num.
Proof.
  intros Hd Hk Hn. unfold round_half_even.
  pose proof (Z.div_mod num den ltac:(lia)) as Hdm.
  pose proof (Z.mod_pos_bound num den Hd) as Hr.
  set (q := num / den) in *. set (r := num mod den) in *.
  assert (q <= k - 1) by nia.
  apply Z.even_spec in Hk as [b Hb].
  destruct (Z.compare_spec (2 * r) den) as [E|E|E].
  - destruct (Z.even q) eqn:Eq.
    + apply Z.even_spec in Eq as [a Ha]. split; intros; nia.
    + split; intros; nia.
  - split; intros; nia.
  - split; intros; nia.
Qed.

(** The result is infinite exactly from [2^1024 - 2^970] on, half a
    unit in the last place above the largest finite value. *)
Lemma binary64_infinite neg n d :
  0 <= n -> 0 < d ->
  binary64 neg n d = Inf neg <-> d * (2 ^ 1024 - 2 ^ 970) <= n.
Proof.
  intros Hn Hd. unfold binary64.
  assert (HP : 0 < 2 ^ 970) by done.
  assert (H1024 : 2 ^ 1024 = 2 ^ 970 * 2 ^ 54) by done.
  assert (H1023 : 2 ^ 1023 = 2 ^ 970 * 2 ^ 53) by done.
  assert (H971 : 2 ^ 971 = 2 ^ 970 * 2) by done.
  assert (H53 : 2 ^ 53 = 9007199254740992) by done.
  assert (H54 : 2 ^ 54 = 2 * 9007199254740992) by done.
  destruct (Z.eqb_spec n 0) as [->|Hn0]; [split; [done|nia]|].
  cbv zeta. set (L := ilog2_ratio n d).
  destruct (ilog2_ratio_bounds n d 1024 ltac:(lia) Hd ltac:(lia)) as [Hhi _].
  destruct (ilog2_ratio_bounds n d 1023 ltac:(lia) Hd ltac:(lia)) as [Hmid Hlo].
  destruct (ilog2_ratio_bounds n d 1024 ltac:(lia) Hd ltac:(lia)) as [_ Hmid'].
  fold L in Hhi, Hmid, Hlo, Hmid'.
  set (P := 2 ^ 970) in *. unfold emax, emin.
  assert (HdP : 0 < d * P) by nia.
  assert (Hbig : d * 2 ^ 1024 <= n -> d * (2 ^ 1024 - P) <= n) by nia.
  assert (Hsmall : n < d * 2 ^ 1023 -> ~ d * (2 ^ 1024 - P) <= n).
  { rewrite H1024, H1023, H54, H53. nia. }
  destruct (Z.le_gt_cases 1024 L) as [HL|HL].
  { specialize (Hhi HL).
    replace (Z.max (L - 52) (-1074)) with (L - 52) by lia.
    set (m := if 0 <=? L - 52 then _ else _).
    destruct (m =? 2 ^ 53);
      match goal with |- context [?a <? ?b] => destruct (Z.ltb_spec a b) end;
      try lia; split; intros; try done; auto. }
  destruct (Z.le_gt_cases L 1022) as [HL'|HL'].
  { specialize (Hlo ltac:(lia)).
    set (e := Z.max (L - 52) (-1074)). assert (e <= 970) by lia.
    set (m := if 0 <=? e then _ else _).
    destruct (m =? 2 ^ 53);
      match goal with |- context [?a <? ?b] => destruct (Z.ltb_spec a b) end;
      try lia; split; intros; try done; exfalso; by apply Hsmall. }
  assert (L = 1023) as -> by lia.
  specialize (Hmid ltac:(lia)). specialize (Hmid' ltac:(lia)).
  change (Z.max (1023 - 52) (-1074)) with 971. cbn [Z.leb Z.compare].
  fold P in H971. rewrite H971.
  pose proof (round_half_even_top n (d * (P * 2)) (2 ^ 53)
                ltac:(nia) eq_refl ltac:(nia)) as Ht.
  destruct (Z.eqb_spec (round_half_even n (d * (P * 2))) (2 ^ 53)) as [E|E].
  - apply Ht in E. split; [intros _; nia|done].
  - split; [done|]. intros HH. exfalso. apply E, Ht. nia.
Qed.

Lemma round_half_even_scale a b k :
  0 < b -> 0 < k -> round_half_even (a * k) (b * k) = round_half_even a b.
Proof.
  intros Hb Hk. unfold round_half_even.
  rewrite Z.div_mul_cancel_r, Z.mul_mod_distr_r by lia.
  destruct (Z.compare_spec (2 * (a mod b * k)) (b * k)),
    (Z.compare_spec (2 * (a mod b)) b); try done; nia.
Qed.

(** Rounding depends on the ratio only. *)
Lemma round_half_even_ratio a1 b1 a2 b2 :
  0 < b1 -> 0 < b2 -> a1 * b2 = a2 * b1 ->
  round_half_even a1 b1 = round_half_even a2 b2.
Proof.
  intros H1 H2 H.
  rewrite <- (round_half_even_scale a1 b1 b2), <- (round_half_even_scale a2 b2 b1)
    by done.
  rewrite H. f_equal. lia.
Qed.

Lemma ilog2_ratio_ratio n1 d1 n2 d2 :
  0 < n1 -> 0 < d1 -> 0 < n2 -> 0 < d2 -> n1 * d2 = n2 * d1 ->
  ilog2_ratio n2 d2 = ilog2_ratio n1 d1.
Proof.
  intros Hn1 Hd1 Hn2 Hd2 H.
  destruct (ilog2_ratio_spec n1 d1 Hn1 Hd1) as [H1 H2].
  pose proof (inject_pos d1 Hd1) as HD1. pose proof (inject_pos d2 Hd2) as HD2.
  assert (HQ : (inject_Z n1 * inject_Z d2 == inject_Z n2 * inject_Z d1)%Q)
    by (by rewrite <- !inject_Z_mult, H).
  apply ilog2_ratio_unique; [done..| |].
  - apply (Qmult_le_l _ _ (inject_Z d1)); [done|].
    rewrite (Qmult_comm (inject_Z d1) (inject_Z n2)), <- HQ.
    apply (Qmult_le_compat_r _ _ (inject_Z d2)) in H1; [|lra]. lra.
  - apply (Qmult_lt_l _ _ (inject_Z d1)); [done|].
    rewrite (Qmult_comm (inject_Z d1) (inject_Z n2)), <- HQ.
    apply (Qmult_lt_compat_r _ _ (inject_Z d2)) in H2; [|lra]. lra.
Qed.

(** The Number depends on the value of the fraction only. *)
Lemma binary64_ratio neg n1 d1 n2 d2 :
  0 <= n1 -> 0 < d1 -> 0 <= n2 -> 0 < d2 -> n1 * d2 = n2 * d1 ->
  binary64 neg n1 d1 = binary64 neg n2 d2.
Proof.
  intros Hn1 Hd1 Hn2 Hd2 H. unfold binary64.
  destruct (Z.eqb_spec n1 0) as [->|N1]; destruct (Z.eqb_spec n2 0) as [->|N2];
    [done|nia|nia|].
  rewrite (ilog2_ratio_ratio n1 d1 n2 d2) by (done || lia). cbv zeta.
  set (e := Z.max _ _).
  assert ((if 0 <=? e then round_half_even n1 (d1 * 2 ^ e)
           else round_half_even (n1 * 2 ^ (- e)) d1)
          = (if 0 <=? e then round_half_even n2 (d2 * 2 ^ e)
             else round_half_even (n2 * 2 ^ (- e)) d2)) as ->; [|done].
  destruct (Z.leb_spec 0 e).
  - pose proof (Z.pow_pos_nonneg 2 e ltac:(lia) ltac:(lia)).
    apply round_half_even_ratio; nia.
  - apply round_half_even_ratio; nia.
Qed.

(** X8. On a text of the grammar the threshold is [+Infinity] exactly
    when the written value is at least [2^1024 - 2^970]; below that
    the threshold is a finite Number. *)
Theorem parseNumericFilter_infinite_threshold op ws ip fp :
  op = [] \/ op ∈ operators ->
  all is_space ws -> digits ip -> fraction fp ->
  (exists x,
      parseNumericFilter (QStr (op ++ ws ++ decimal ip fp))
      = Ok (VObj [(predicate_of op, VNum x)])
      /\ (x = Inf false
          <-> (inject_Z (2 ^ 1024 - 2 ^ 970) <= decimal_value ip fp)%Q)
      /\ (x <> Inf false -> exists m e, x = Fin false m e)).
Proof.
  intros Hop Hws Hip Hfp.
  pose proof (decimal_num_nonneg ip fp Hip Hfp) as Hn.
  pose proof (decimal_den_pos fp) as Hd.
  pose proof (inject_pos _ Hd) as HD.
  eexists. split; [by apply parseNumericFilter_grammar|]. split.
  - rewrite binary64_infinite by done. unfold decimal_value.
    rewrite Zle_Qle, inject_Z_mult. split; intros H.
    + apply Qle_shift_div_l; [done|]. lra.
    + apply (Qmult_le_compat_r _ _ (inject_Z (decimal_den fp))) in H; [|lra].
      assert ((inject_Z (decimal_num ip fp) / inject_Z (decimal_den fp)
               * inject_Z (decimal_den fp) == inject_Z (decimal_num ip fp))%Q)
        as E by (field; lra).
      rewrite E in H. lra.
  - intros Hx. unfold binary64 in *.
    destruct (_ =? 0); [by eauto|]. cbv zeta in *.
    destruct (_ <? _); [done|by eauto].
Qed.

Lemma parseNumericFilter_infinite_threshold_witness :
  exists x,
    parseNumericFilter (QStr (js "<" ++ [] ++ decimal nines None))
    = Ok (VObj [(predicate_of (js "<"), VNum x)])
    /\ (x = Inf false
        <-> (inject_Z (2 ^ 1024 - 2 ^ 970) <= decimal_value nines None)%Q)
    /\ (x <> Inf false -> exists m e, x = Fin false m e).
Proof.
  apply (parseNumericFilter_infinite_threshold (js "<") [] nines None).
  - right. unfold operators. rewrite !elem_of_cons. auto 10.
  - constructor.
  - split; [discriminate|]. apply Forall_forall. intros c Hc.
    apply list_elem_of_In, repeat_spec in Hc. by subst.
  - exact I.
Defined.

(** X9. Two texts of the grammar with the same operator whose numbers
    write the same value, whatever their leading zeros, trailing zeros
    and white space, give the same predicate. *)
Theorem parseNumericFilter_same_value op ws ip fp ws' ip' fp' :
  op = [] \/ op ∈ operators ->
  all is_space ws -> digits ip -> fraction fp ->
  all is_space ws' -> digits ip' -> fraction fp' ->
  (decimal_value ip fp == decimal_value ip' fp')%Q ->
  parseNumericFilter (QStr (op ++ ws ++ decimal ip fp))
  = parseNumericFilter (QStr (op ++ ws' ++ decimal ip' fp')).
Proof.
  intros Hop Hws Hip Hfp Hws' Hip' Hfp' Hv.
  rewrite !parseNumericFilter_grammar by done.
  pose proof (decimal_num_nonneg ip fp Hip Hfp).
  pose proof (decimal_num_nonneg ip' fp' Hip' Hfp').
  pose proof (decimal_den_pos fp) as Hd. pose proof (decimal_den_pos fp') as Hd'.
  pose proof (inject_pos _ Hd). pose proof (inject_pos _ Hd').
  rewrite (binary64_ratio false (decimal_num ip fp) (decimal_den fp)
             (decimal_num ip' fp') (decimal_den fp')); [done..|].
  unfold decimal_value in Hv.
  apply inject_Z_injective. rewrite !inject_Z_mult.
  assert ((inject_Z (decimal_num ip fp)
           == inject_Z (decimal_num ip fp) / inject_Z (decimal_den fp)
              * inject_Z (decimal_den fp))%Q) as -> by (field; lra).
  rewrite Hv. field. lra.
Qed.

Lemma parseNumericFilter_same_value_witness :
  parseNumericFilter (QStr (js ">=" ++ [] ++ decimal (js "4") (Some (js "5"))))
  = parseNumericFilter
      (QStr (js ">=" ++ js " " ++ decimal (js "04") (Some (js "50")))).
Proof.
  apply (parseNumericFilter_same_value (js ">=") [] (js "4") (Some (js "5"))
           (js " ") (js "04") (Some (js "50"))).
  - right. unfold operators. rewrite !elem_of_cons. auto 10.
  - constructor.
  - split; [discriminate|]. by repeat constructor.
  - split; [discriminate|]. by repeat constructor.
  - by repeat constructor.
  - split; [discriminate|]. by repeat constructor.
  - split; [discriminate|]. by repeat constructor.
  - reflexivity.
Defined.

(** ** The offset of a page *)

(** The Number of a positive integer below [2^53]: the integer itself,
    with its mantissa brought up to 53 bits. *)
Lemma binary64_integer n :
  0 < n < 2 ^ 53 ->
  exists e, -52 <= e <= 0 /\
            forall neg, binary64 neg n 1 = Fin neg (n * 2 ^ (- e)) e.
Proof.
  intros [Hn Hn53]. set (L := ilog2_ratio n 1).
  assert (HL : 0 <= L <= 52).
  { destruct (ilog2_ratio_bounds n 1 0 Hn ltac:(lia) ltac:(lia)) as [_ H0].
    destruct (ilog2_ratio_bounds n 1 53 Hn ltac:(lia) ltac:(lia)) as [H53 _].
    fold L in H0, H53. split.
    - destruct (Z.le_gt_cases 0 L); [done|]. specialize (H0 ltac:(lia)). lia.
    - destruct (Z.le_gt_cases L 52); [done|]. specialize (H53 ltac:(lia)). lia. }
  assert (Hup : n * 2 ^ (52 - L) < 2 ^ 53).
  { destruct (ilog2_ratio_bounds n 1 (L + 1) Hn ltac:(lia) ltac:(lia)) as [_ H].
    fold L in H. specialize (H ltac:(lia)).
    replace 53 with ((L + 1) + (52 - L)) by lia.
    rewrite (Z.pow_add_r 2 (L + 1)) by lia.
    pose proof (Z.pow_pos_nonneg 2 (52 - L) ltac:(lia) ltac:(lia)). nia. }
  exists (L - 52). split; [lia|]. intros neg. unfold binary64.
  destruct (Z.eqb_spec n 0); [lia|]. fold L. cbv zeta.
  replace (Z.max (L - 52) emin) with (L - 52) by (unfold emin; lia).
  replace (- (L - 52)) with (52 - L) by lia.
  assert ((if 0 <=? L - 52 then round_half_even n (1 * 2 ^ (L - 52))
           else round_half_even (n * 2 ^ (52 - L)) 1) = n * 2 ^ (52 - L)) as ->.
  { destruct (Z.leb_spec 0 (L - 52)).
    - assert (L = 52) as -> by lia. change (1 * 2 ^ (52 - 52)) with 1.
      change (2 ^ (52 - 52)) with 1.
      rewrite <- (Z.mul_1_r n) at 1. rewrite round_half_even_exact by lia. lia.
    - rewrite <- (Z.mul_1_r (n * 2 ^ (52 - L))) at 1.
      by rewrite round_half_even_exact by lia. }
  destruct (Z.eqb_spec (n * 2 ^ (52 - L)) (2 ^ 53)); [lia|].
  destruct (Z.ltb_spec emax (L - 52)); [unfold emax in *; lia|done].
Qed.

Lemma num_integer z :
  0 < Z.abs z < 2 ^ 53 ->
  exists e, -52 <= e <= 0 /\ num z = Fin (z <? 0) (Z.abs z * 2 ^ (- e)) e.
Proof.
  intros Hz. destruct (binary64_integer (Z.abs z) Hz) as (e & He & H).
  exists e. split; [done|]. apply H.
Qed.

Lemma scaled_integer neg s e n :
  0 <= n -> e <= 0 -> s = n * 2 ^ (- e) -> scaled neg s e = binary64 neg n 1.
Proof.
  intros Hn He ->. unfold scaled.
  replace (Z.max e 0) with 0 by lia. replace (Z.max (- e) 0) with (- e) by lia.
  pose proof (Z.pow_pos_nonneg 2 (- e) ltac:(lia) ltac:(lia)).
  apply binary64_ratio; [nia|lia|lia|lia|]. change (2 ^ 0) with 1. lia.
Qed.

Lemma signed_mantissa_abs z k :
  signed_mantissa (z <? 0) (Z.abs z * k) = z * k.
Proof. unfold signed_mantissa. destruct (Z.ltb_spec z 0); lia. Qed.

Lemma number_sub_one z :
  0 < Z.abs z < 2 ^ 53 -> -(2 ^ 53) < z - 1 ->
  number_sub (num z) (num 1) = num (z - 1).
Proof.
  intros Hz Hlo. destruct (num_integer z Hz) as (e & He & ->).
  change (num 1) with (Fin false (2 ^ 52) (-52)).
  unfold number_sub, number_neg, number_add. cbv zeta.
  replace (Z.min e (-52)) with (-52) by lia.
  rewrite signed_mantissa_abs. cbn [negb signed_mantissa].
  change (-52 - -52) with 0. change (2 ^ 0) with 1.
  assert (Hs : z * 2 ^ (- e) * 2 ^ (e - -52) + - 2 ^ 52 * 1 = (z - 1) * 2 ^ 52).
  { rewrite <- Z.mul_assoc, <- Z.pow_add_r by lia.
    replace (- e + (e - -52)) with 52 by lia. lia. }
  rewrite Hs. destruct (Z.eqb_spec ((z - 1) * 2 ^ 52) 0) as [E|E].
  - assert (z = 1) as -> by lia. reflexivity.
  - assert (((z - 1) * 2 ^ 52 <? 0) = (z - 1 <? 0)) as ->.
    { destruct (Z.ltb_spec (z - 1) 0), (Z.ltb_spec ((z - 1) * 2 ^ 52) 0);
        try done; lia. }
    unfold num. apply scaled_integer; [lia|lia|].
    change (- -52) with 52. lia.
Qed.

Lemma number_mul_integers a l :
  Z.abs a < 2 ^ 53 -> 0 < l < 2 ^ 53 ->
  number_mul (num a) (num l) = num (a * l).
Proof.
  intros Ha Hl.
  destruct (num_integer l ltac:(lia)) as (e2 & He2 & ->).
  assert ((l <? 0) = false) as -> by (apply Z.ltb_ge; lia).
  destruct (Z.eq_dec a 0) as [->|Ha0].
  { change (num 0) with (Fin false 0 emin). change (0 * l) with 0.
    unfold number_mul, scaled, binary64. by rewrite !Z.mul_0_l. }
  destruct (num_integer a ltac:(lia)) as (e1 & He1 & ->).
  unfold number_mul.
  rewrite xorb_false_r. unfold num.
  assert ((a * l <? 0) = (a <? 0)) as ->.
  { destruct (Z.ltb_spec a 0), (Z.ltb_spec (a * l) 0); try done; nia. }
  apply scaled_integer; [lia|lia|].
  replace (- (e1 + e2)) with (- e1 + - e2) by lia.
  rewrite Z.pow_add_r by lia. rewrite Z.abs_mul. lia.
Qed.

Lemma parseInt_signed s ws sign ds rest :
  integer_text s ws sign ds rest -> 0 < digits_val ds ->
  parseInt_string s = num (signed_val sign ds).
Proof.
  intros Ht Hd. rewrite (parseInt_integer_text _ _ _ _ _ Ht).
  unfold signed_val, num. case_bool_decide.
  - assert ((- digits_val ds <? 0) = true) as -> by (apply Z.ltb_lt; lia).
    f_equal. lia.
  - assert ((digits_val ds <? 0) = false) as -> by (apply Z.ltb_ge; lia).
    f_equal. lia.
Qed.

(** X10. For a request made of strings whose [page] and [limit] start
    with an integer (as [parseInt] reads it), the page not zero and
    below [2^52] in size, the limit positive and below [2^53], the
    offset [(page - 1) * limit] given to [skip] is the Number of that
    product of integers: exact below [2^53], rounded once above. Page 1
    starts at offset 0, and a negative page gives a negative offset. *)
Theorem getRecipes_skip q s ws sign ds rest s' ws' sign' ds' rest' :
  strings q ->
  query q "page" = QStr s -> integer_text s ws sign ds rest ->
  query q "limit" = QStr s' -> integer_text s' ws' sign' ds' rest' ->
  0 < digits_val ds < 2 ^ 52 -> 0 < digits_val ds' < 2 ^ 53 ->
  sign' <> js "-" ->
  exists spec,
    getRecipes q = Ok spec /\
    qs_page spec = num (signed_val sign ds) /\
    qs_limit spec = num (digits_val ds') /\
    skip_of spec = num ((signed_val sign ds - 1) * digits_val ds').
Proof.
  intros Hq Hp Htp Hl Htl Hdp Hdl Hsign. eexists.
  split; [by apply getRecipes_strings|].
  unfold skip_of. cbn [qs_page qs_limit]. rewrite Hp, Hl.
  unfold expected_page. cbn [text].
  rewrite (parseInt_signed _ _ _ _ _ Htp) by lia.
  rewrite (parseInt_signed _ _ _ _ _ Htl) by lia.
  assert (signed_val sign' ds' = digits_val ds') as ->
    by (unfold signed_val; by rewrite bool_decide_eq_false_2).
  assert (Hv : Z.abs (signed_val sign ds) = digits_val ds)
    by (unfold signed_val; case_bool_decide; lia).
  assert (Htr : forall z d, 0 < Z.abs z < 2 ^ 53 -> or_number (num z) d = num z).
  { intros z d Hz. unfold or_number, num.
    by rewrite binary64_integer_truthy by lia. }
  rewrite !Htr by lia. split; [done|]. split; [done|].
  rewrite number_sub_one by lia. apply number_mul_integers; lia.
Qed.

Lemma getRecipes_skip_witness :
  exists spec,
    getRecipes (request [("page", "3"); ("limit", "20")]%string) = Ok spec /\
    qs_page spec = num (signed_val [] (js "3")) /\
    qs_limit spec = num (digits_val (js "20")) /\
    skip_of spec = num ((signed_val [] (js "3") - 1) * digits_val (js "20")).
Proof.
  apply (getRecipes_skip (request [("page", "3"); ("limit", "20")]%string)
           (js "3") [] [] (js "3") [] (js "20") [] [] (js "20") []).
  - apply strings_request.
  - reflexivity.
  - unfold integer_text, digits, no_hex_prefix, all.
    split_and!; try (vm_compute; reflexivity); try discriminate;
      try (by repeat constructor); auto.
  - reflexivity.
  - unfold integer_text, digits, no_hex_prefix, all.
    split_and!; try (vm_compute; reflexivity); try discriminate;
      try (by repeat constructor); auto.
  - vm_compute. split; reflexivity.
  - vm_compute. split; reflexivity.
  - discriminate.
Defined.

Example getRecipes_skip_examples :
  (exists spec,
      getRecipes (request [("page", "3"); ("limit", "20")]%string) = Ok spec
      /\ skip_of spec = num 40)
  /\ (exists spec,
         getRecipes (request [("limit", "20")]%string) = Ok spec
         /\ skip_of spec = num 0)
  /\ (exists spec,
         getRecipes (request [("page", "-2"); ("limit", "20")]%string) = Ok spec
         /\ skip_of spec = num (-60)).
Proof.
  split_and!; eexists; (split; [vm_compute; reflexivity|]);
    vm_compute; reflexivity.
Qed.

(** ** Normalisation: what is kept, and running it again *)

Lemma forEach_updates P body fs :
  updates P body -> NoDup fs -> Forall (fun f => f <> js "__proto__") fs ->
  forall o o', forEach fs body o = Ok o' ->
    (forall f, f ∈ fs -> P (obj_get o f) (obj_get o' f)) /\
    (forall g, g ∉ fs -> obj_get o' g = obj_get o g).
Proof.
  intros Hb Hnd Hfs. induction Hfs as [|f fs Hf _ IH]; intros o o' H; simpl in H.
  - injection H as <-. split; [by intros f Hf%elem_of_nil|done].
  - apply NoDup_cons in Hnd as [Hnin Hnd].
    destruct (body o f) as [o1|e] eqn:E; [|done]. cbn [mbind result_bind] in H.
    destruct (Hb o f o1 Hf E) as [H1 H2]. destruct (IH Hnd o1 o' H) as [H3 H4].
    split.
    + intros g Hg. apply elem_of_cons in Hg as [->|Hg].
      * by rewrite H4.
      * rewrite <- (H2 g) by (by intros ->). by apply H3.
    + intros g Hg. apply not_elem_of_cons in Hg as [Hgf Hg].
      rewrite H4 by done. by apply H2.
Qed.

Lemma numeric_fields_NoDup : NoDup numeric_fields.
Proof. apply (bool_decide_unpack (NoDup numeric_fields)). vm_compute. exact I. Qed.

Lemma numeric_fields_plain : Forall (fun f => f <> js "__proto__") numeric_fields.
Proof. apply Forall_forall. apply numeric_fields_not_proto. Qed.

Lemma obj_put_same o k v :
  obj_get o k = v -> v <> VUndef -> obj_put o k v = o.
Proof.
  induction o as [|[k0 v0] o IH]; simpl; intros H Hv; [congruence|].
  destruct (decide (k0 = k)) as [->|Hne]; [by subst|]. by rewrite IH.
Qed.

Lemma obj_set_same o k v :
  obj_get o k = v -> v <> VUndef -> obj_set o k v = o.
Proof. intros H Hv. unfold obj_set. case_decide; [done|by apply obj_put_same]. Qed.

Section Renormalised.

Variable StringToNumber : jsstring -> number.
Variable ObjectToNumber : value -> result number.

Lemma load_field_updates :
  updates (loaded_from StringToNumber ObjectToNumber)
    (load_field StringToNumber ObjectToNumber).
Proof.
  intros o f o' Hf H. unfold load_field in H. unfold loaded_from.
  destruct (_ || _) eqn:E.
  - injection H as <-. split.
    + by rewrite obj_get_set, decide_True by done.
    + intros g Hg. by rewrite obj_get_set, decide_False by done.
  - destruct (Number StringToNumber ObjectToNumber (obj_get o f)) as [n|e];
      [|done].
    cbn [mbind result_bind] in H. destruct (isNaN n) eqn:En.
    + injection H as <-. split.
      * rewrite obj_get_set, decide_True by done. exists n. by rewrite En.
      * intros g Hg. by rewrite obj_get_set, decide_False by done.
    + injection H as <-. split.
      * rewrite obj_get_set, decide_True by done. exists n. by rewrite En.
      * intros g Hg. by rewrite obj_get_set, decide_False by done.
Qed.

(** Off the empty string the two loop bodies are one. *)
Lemma load_field_add_field o f :
  obj_get o f <> VStr [] ->
  load_field StringToNumber ObjectToNumber o f
  = add_field StringToNumber ObjectToNumber o f.
Proof.
  intros Hv. unfold load_field, add_field.
  destruct (obj_get o f) as [| |b|n|s|l|l] eqn:E; simpl.
  - done.
  - f_equal. by apply obj_set_same.
  - by destruct b.
  - by destruct (isNaN n).
  - rewrite (bool_decide_eq_false_2 (s = [])) by congruence.
    rewrite !orb_false_r. by destruct (bool_decide _).
  - destruct (ObjectToNumber (VArr l)); [|done]. simpl. by destruct (isNaN _).
  - destruct (ObjectToNumber (VObj l)); [|done]. simpl. by destruct (isNaN _).
Qed.

Lemma forEach_load_add fs :
  NoDup fs -> Forall (fun f => f <> js "__proto__") fs ->
  forall o, (forall f, f ∈ fs -> obj_get o f <> VStr []) ->
  forEach fs (load_field StringToNumber ObjectToNumber) o
  = forEach fs (add_field StringToNumber ObjectToNumber) o.
Proof.
  intros Hnd Hfs. induction Hfs as [|f fs Hf _ IH]; intros o Ho; [done|].
  apply NoDup_cons in Hnd as [Hnin Hnd]. simpl.
  rewrite <- load_field_add_field by (apply Ho; by left).
  destruct (load_field _ _ o f) as [o1|e] eqn:E; [|done].
  cbn [mbind result_bind]. apply IH; [done|].
  intros g Hg. apply load_field_settles in E as [_ E]; [|done].
  rewrite E by (by intros ->). apply Ho. by right.
Qed.

Lemma load_field_fixed o f :
  number_or_null (obj_get o f) ->
  load_field StringToNumber ObjectToNumber o f = Ok o.
Proof.
  intros [H|(n & H & Hn)]; unfold load_field; rewrite H; simpl.
  - f_equal. by apply obj_set_same.
  - destruct n; [done|..]; simpl; f_equal; by apply obj_set_same.
Qed.

Lemma add_field_fixed o f :
  number_or_null (obj_get o f) ->
  add_field StringToNumber ObjectToNumber o f = Ok o.
Proof.
  intros [H|(n & H & Hn)]; unfold add_field; rewrite H; simpl; [done|].
  destruct n; [done|..]; simpl; f_equal; by apply obj_set_same.
Qed.

Lemma forEach_fixed body fs o :
  (forall f, number_or_null (obj_get o f) -> body o f = Ok o) ->
  (forall f, f ∈ fs -> number_or_null (obj_get o f)) ->
  forEach fs body o = Ok o.
Proof.
  intros Hb. induction fs as [|f fs IH]; intros Ho; [done|]. simpl.
  rewrite Hb by (apply Ho; by left). cbn [mbind result_bind].
  apply IH. intros g Hg. apply Ho. by right.
Qed.

Lemma loadRecipes_cons r rs :
  loadRecipes StringToNumber ObjectToNumber (r :: rs)
  = (copy ← forEach numeric_fields
              (load_field StringToNumber ObjectToNumber) r;
     rest ← loadRecipes StringToNumber ObjectToNumber rs;
     Ok (copy :: rest)).
Proof. reflexivity. Qed.

Lemma loadRecipes_Forall2 recipes cleaned :
  loadRecipes StringToNumber ObjectToNumber recipes = Ok cleaned <->
  Forall2 (fun r c => forEach numeric_fields
                        (load_field StringToNumber ObjectToNumber) r = Ok c)
    recipes cleaned.
Proof.
  revert cleaned. induction recipes as [|r rs IH]; intros cleaned.
  - split.
    + intros [= <-]. constructor.
    + intros H. by inversion H.
  - rewrite loadRecipes_cons. split.
    + destruct (forEach _ _ r) as [c|e] eqn:E; [|done].
      cbn [mbind result_bind].
      destruct (loadRecipes _ _ rs) as [rest|e] eqn:E'; [|done].
      intros [= <-]. constructor; [done|]. by apply IH.
    + intros H. inversion H as [|? c ? rest Hc Hrest]; subst.
      rewrite Hc. cbn [mbind result_bind].
      apply IH in Hrest. by rewrite Hrest.
Qed.

Lemma loadRecipes_fixed cleaned :
  Forall (fun r => forall f, f ∈ numeric_fields ->
                             number_or_null (obj_get r f)) cleaned ->
  loadRecipes StringToNumber ObjectToNumber cleaned = Ok cleaned.
Proof.
  intros H. apply loadRecipes_Forall2. induction H as [|c cs Hc _ IH];
    constructor; [|done].
  apply forEach_fixed; [|done]. intros f. apply load_field_fixed.
Qed.

End Renormalised.

(** X11. [loadRecipes] returns the records in their order, each with
    every field other than the four numeric ones as it was, and each
    numeric field decided by what that field held: [null] for ["NaN"],
    [null] and a missing field, otherwise [Number] of it, or [null] when
    that is NaN. *)
Theorem loadRecipes_field_by_field
    (StringToNumber : jsstring -> number)
    (ObjectToNumber : value -> result number) recipes cleaned :
  loadRecipes StringToNumber ObjectToNumber recipes = Ok cleaned ->
  Forall2 (fun r c =>
             (forall f, f ∈ numeric_fields ->
                loaded_from StringToNumber ObjectToNumber
                  (obj_get r f) (obj_get c f))
             /\ (forall g, g ∉ numeric_fields -> obj_get c g = obj_get r g))
    recipes cleaned.
Proof.
  intros H. apply loadRecipes_Forall2 in H.
  eapply Forall2_impl; [exact H|]. intros r c Hc. cbv beta in Hc.
  eapply forEach_updates in Hc;
    [exact Hc|apply load_field_updates|apply numeric_fields_NoDup|
     apply numeric_fields_plain].
Qed.

Lemma loadRecipes_field_by_field_witness :
  exists cleaned,
    loadRecipes sample_StringToNumber sample_ObjectToNumber [sample_record]
    = Ok cleaned /\
    Forall2 (fun r c =>
               (forall f, f ∈ numeric_fields ->
                  loaded_from sample_StringToNumber sample_ObjectToNumber
                    (obj_get r f) (obj_get c f))
               /\ (forall g, g ∉ numeric_fields -> obj_get c g = obj_get r g))
      [sample_record] cleaned.
Proof.
  eexists. split; [vm_compute; reflexivity|].
  apply (loadRecipes_field_by_field sample_StringToNumber sample_ObjectToNumber
           [sample_record]).
  vm_compute. reflexivity.
Defined.

(** X12. On records none of whose numeric fields is the empty string,
    [loadRecipes] is the loop of [addRecipe] run on the records one by
    one: the same list, or the same throw at the same record. On a
    numeric field that is the empty string they part: the handler
    stores [null] without converting, the loader stores [Number("")],
    or [null] when that is NaN. *)
Theorem loadRecipes_as_addRecipe
    (StringToNumber : jsstring -> number)
    (ObjectToNumber : value -> result number) recipes :
  (Forall no_empty_field recipes ->
   loadRecipes StringToNumber ObjectToNumber recipes
   = each_record (addRecipe StringToNumber ObjectToNumber) recipes)
  /\ (forall r f,
        f ∈ numeric_fields -> obj_get r f = VStr [] ->
        (forall out,
            addRecipe StringToNumber ObjectToNumber r = Ok out ->
            obj_get out f = VNull)
        /\ (forall c,
               loadRecipes StringToNumber ObjectToNumber [r] = Ok [c] ->
               obj_get c f = if isNaN (StringToNumber [])
                             then VNull else VNum (StringToNumber []))).
Proof.
  split.
  - induction 1 as [|r rs Hr0 _ IH]; [done|].
    rewrite loadRecipes_cons. cbn [each_record]. rewrite IH.
    unfold addRecipe. by rewrite forEach_load_add
      by (done || apply numeric_fields_NoDup || apply numeric_fields_plain).
  - intros r f Hf Hv. split.
    + intros out H.
      eapply (forEach_updates
                (fun v w => v = VStr [] -> w = VNull)) in H as [H _];
        [by apply H|
         |apply numeric_fields_NoDup|apply numeric_fields_plain].
      intros o g o' Hg Hb. split.
      * intros Hs. unfold add_field in Hb. rewrite Hs in Hb. simpl in Hb.
        injection Hb as <-. by rewrite obj_get_set, decide_True by done.
      * by apply (add_field_settles StringToNumber ObjectToNumber o g o').
    + intros c H. apply loadRecipes_Forall2 in H.
      inversion H as [|? ? ? ? Hc _]; subst.
      eapply forEach_updates in Hc as [Hc _];
        [|apply load_field_updates|apply numeric_fields_NoDup|
         apply numeric_fields_plain].
      specialize (Hc f Hf). rewrite Hv in Hc. unfold loaded_from in Hc.
      cbn in Hc. destruct Hc as (n & [= <-] & ->). done.
Qed.

Lemma loadRecipes_as_addRecipe_witness :
  loadRecipes sample_StringToNumber sample_ObjectToNumber [sample_record]
  = each_record (addRecipe sample_StringToNumber sample_ObjectToNumber)
      [sample_record]
  /\ (forall out,
        addRecipe sample_StringToNumber sample_ObjectToNumber
          [(js "rating", VStr [])] = Ok out ->
        obj_get out (js "rating") = VNull)
  /\ (forall c,
        loadRecipes sample_StringToNumber sample_ObjectToNumber
          [[(js "rating", VStr [])]] = Ok [c] ->
        obj_get c (js "rating")
        = if isNaN (sample_StringToNumber [])
          then VNull else VNum (sample_StringToNumber [])).
Proof.
  destruct (loadRecipes_as_addRecipe sample_StringToNumber sample_ObjectToNumber
              [sample_record]) as [H1 H2].
  split.
  - apply H1. constructor; [|constructor]. intros f Hf.
    unfold numeric_fields in Hf. rewrite !elem_of_cons, elem_of_nil in Hf.
    destruct Hf as [->|[->|[->|[->|[]]]]]; vm_compute; discriminate.
  - apply (H2 [(js "rating", VStr [])] (js "rating")).
    + unfold numeric_fields. rewrite !elem_of_cons. auto.
    + vm_compute. reflexivity.
Defined.

(** A record on which the conversion throws: both throw the same. *)
Example loader_and_handler_throw_alike :
  loadRecipes sample_StringToNumber (fun _ => Throw TypeError)
    [sample_record; [(js "rating", VObj [])]]
  = Throw TypeError
  /\ each_record (addRecipe sample_StringToNumber (fun _ => Throw TypeError))
       [sample_record; [(js "rating", VObj [])]]
     = Throw TypeError.
Proof. split; vm_compute; reflexivity. Qed.

Example loader_and_handler_part_on_empty :
  loadRecipes sample_StringToNumber sample_ObjectToNumber
    [[(js "rating", VStr [])]]
  = Ok [[(js "rating", VNum (num 0)); (js "prep_time", VNull);
         (js "cook_time", VNull); (js "total_time", VNull)]]
  /\ addRecipe sample_StringToNumber sample_ObjectToNumber
       [(js "rating", VStr [])]
     = Ok [(js "rating", VNull); (js "prep_time", VNull);
           (js "cook_time", VNull); (js "total_time", VNull)].
Proof. split; vm_compute; reflexivity. Qed.

(** X13. Normalising again changes nothing: the records [loadRecipes]
    returns and the body [addRecipe] hands on come back as they are
    from either loop, whatever the conversion of the runtime, and
    neither loop throws on them. *)
Theorem normalisation_idempotent
    (StringToNumber StringToNumber' : jsstring -> number)
    (ObjectToNumber ObjectToNumber' : value -> result number) :
  (forall recipes cleaned,
      loadRecipes StringToNumber ObjectToNumber recipes = Ok cleaned ->
      loadRecipes StringToNumber' ObjectToNumber' cleaned = Ok cleaned
      /\ Forall (fun c => addRecipe StringToNumber' ObjectToNumber' c = Ok c)
           cleaned)
  /\ (forall payload out,
        addRecipe StringToNumber ObjectToNumber payload = Ok out ->
        addRecipe StringToNumber' ObjectToNumber' out = Ok out
        /\ loadRecipes StringToNumber' ObjectToNumber' [out] = Ok [out]).
Proof.
  split.
  - intros recipes cleaned H. apply loadRecipes_settled in H as [_ H].
    split; [by apply loadRecipes_fixed|].
    eapply Forall_impl; [exact H|]. intros c Hc. cbv beta in Hc.
    apply forEach_fixed; [|done]. intros f. apply add_field_fixed.
  - intros payload out H.
    pose proof (addRecipe_settled _ _ _ _ H) as Hs. split.
    + apply forEach_fixed; [|done]. intros f. apply add_field_fixed.
    + apply loadRecipes_fixed. by constructor.
Qed.

Lemma normalisation_idempotent_witness :
  exists cleaned out,
    loadRecipes sample_StringToNumber sample_ObjectToNumber [sample_record]
    = Ok cleaned /\
    addRecipe sample_StringToNumber sample_ObjectToNumber sample_record
    = Ok out /\
    loadRecipes (fun _ => NaN) (fun _ => Throw TypeError) cleaned = Ok cleaned /\
    addRecipe (fun _ => NaN) (fun _ => Throw TypeError) out = Ok out.
Proof.
  destruct (normalisation_idempotent sample_StringToNumber (fun _ => NaN)
              sample_ObjectToNumber (fun _ => Throw TypeError)) as [Hl Ha].
  eexists. eexists.
  split; [vm_compute; reflexivity|]. split; [vm_compute; reflexivity|].
  split.
  - apply (Hl [sample_record]). vm_compute. reflexivity.
  - apply (Ha sample_record). vm_compute. reflexivity.
Defined.

(** ** What [searchRecipes] reads *)

(** X14. [searchRecipes] reads the five filter parameters and nothing
    else: two requests that agree on them, whatever their [page],
    [limit], [sort] and other entries, give the same result. On every
    request, of any shape, on which [getRecipes] returns,
    [searchRecipes] returns the filter of [getRecipes]. Where
    [searchRecipes] returns, [getRecipes] returns, with that filter,
    exactly when [sort] is no array or object and [page] and [limit]
    convert to a string. *)
Theorem searchRecipes_reads_filter_parameters q :
  (forall q',
      (forall k, k ∈ filter_parameters -> q !! js k = q' !! js k) ->
      searchRecipes q = searchRecipes q')
  /\ (forall spec, getRecipes q = Ok spec ->
                   searchRecipes q = Ok (qs_filter spec))
  /\ (forall f, searchRecipes q = Ok f ->
                ((exists spec, getRecipes q = Ok spec /\ qs_filter spec = f)
                 <-> is_compound (query q "sort") = false /\
                     forall p, p ∈ converted_parameters ->
                               exists s, ToString (query q p) = Ok s)).
Proof.
  split_and!.
  - intros q' H. unfold searchRecipes.
    rewrite (query_agree q q' "title"), (query_agree q q' "cuisine"),
      (query_agree q q' "rating"), (query_agree q q' "total_time"),
      (query_agree q q' "calories");
      [done|apply H; unfold filter_parameters; rewrite !elem_of_cons; auto 10..].
  - rewrite getRecipes_any, searchRecipes_any.
    destruct (unprintable (query q "page")); [done|].
    destruct (unprintable (query q "limit")); [done|].
    destruct (is_compound (query q "sort")); [done|]. cbn [orb].
    destruct (_ || _); [done|]. by intros spec [= <-].
  - rewrite getRecipes_any, searchRecipes_any. intros f H.
    destruct (_ || _) eqn:E in H; [done|]. injection H as <-.
    pose proof (ToString_unprintable (query q "page")) as Hp.
    pose proof (ToString_unprintable (query q "limit")) as Hl.
    unfold converted_parameters. split.
    + intros (spec & Hs & _).
      destruct (unprintable (query q "page")); [done|].
      destruct (unprintable (query q "limit")); [done|].
      destruct (is_compound (query q "sort")); [done|].
      split; [done|]. intros p. rewrite !elem_of_cons, elem_of_nil.
      by intros [->|[->|[]]].
    + intros [-> Hc].
      destruct (unprintable (query q "page")).
      { destruct (Hc "page"%string) as [s Hs]; [rewrite !elem_of_cons; auto|].
        congruence. }
      destruct (unprintable (query q "limit")).
      { destruct (Hc "limit"%string) as [s Hs]; [rewrite !elem_of_cons; auto|].
        congruence. }
      cbn [orb]. rewrite E. by eexists.
Qed.

Lemma searchRecipes_reads_filter_parameters_witness :
  searchRecipes (request [("title", "pie"); ("page", "3"); ("sort", "x:asc")]%string)
  = searchRecipes (request [("title", "pie")]%string)
  /\ exists spec,
      getRecipes (request [("title", "pie"); ("page", "3"); ("sort", "x:asc")]%string)
      = Ok spec
      /\ searchRecipes (request [("title", "pie"); ("page", "3"); ("sort", "x:asc")]%string)
         = Ok (qs_filter spec).
Proof.
  destruct (searchRecipes_reads_filter_parameters
              (request [("title", "pie"); ("page", "3"); ("sort", "x:asc")]%string))
    as (H1 & H2 & _).
  split.
  - apply H1. intros k Hk. unfold filter_parameters in Hk.
    rewrite !elem_of_cons, elem_of_nil in Hk.
    destruct Hk as [->|[->|[->|[->|[->|[]]]]]]; vm_compute; reflexivity.
  - eexists. split; [vm_compute; reflexivity|].
    apply H2. vm_compute. reflexivity.
Defined.

(** ** The calories condition on records without a calories string *)

Lemma eval_calories_token_steps pd doc :
  Store.eval pd doc calories_token
  = (v ← (v ← (x ← (x ← Store.field_path [js "nutrients"; js "calories"] doc;
                    y ← Ok (VStr (js " "));
                    Store.split x y);
               y ← Ok (VNum (num 0));
               Store.arrayElemAt x y);
          Store.trim_input v);
     Store.toDouble pd v).
Proof. reflexivity. Qed.

Lemma satisfies_below op :
  op = [] \/ op ∈ operators ->
  satisfies op Lt = bool_decide (op = js "<" \/ op = js "<=").
Proof.
  unfold operators. rewrite !elem_of_cons, elem_of_nil.
  intros [->|[->|[->|[->|[->|[->|[]]]]]]]; vm_compute; reflexivity.
Qed.

(** X15. When the calories parameter parses to a predicate, a record
    whose [nutrients.calories] is missing or [null] is not left out:
    the computed value is [null], which the store orders below every
    number, so the record matches exactly when the operator is [<] or
    [<=], whatever the threshold. A record whose [nutrients.calories]
    is a number, a boolean, an array or an object makes the lookup
    fail, as [$split] takes strings only. *)
Theorem calories_filter_without_string q op ws ip fp :
  strings q ->
  query q "calories" = QStr (op ++ ws ++ decimal ip fp) ->
  op = [] \/ op ∈ operators ->
  all is_space ws -> digits ip -> fraction fp ->
  exists spec,
    getRecipes q = Ok spec /\ searchRecipes q = Ok (qs_filter spec) /\
    forall parse_double doc v,
      Store.field_path [js "nutrients"; js "calories"] doc = Ok v ->
      match v with
      | VUndef | VNull =>
          Store.passes_expr parse_double (qs_filter spec) doc
          = Ok (bool_decide (op = js "<" \/ op = js "<="))
      | VStr _ => True
      | _ =>
          Store.passes_expr parse_double (qs_filter spec) doc
          = Throw InvalidArgument
      end.
Proof.
  intros Hq Hc Hop Hws Hip Hfp. eexists.
  split; [by apply getRecipes_strings|].
  split; [by apply searchRecipes_strings|]. cbn [qs_filter].
  pose proof (expected_filter_expr q op ws ip fp Hc Hop Hws Hip Hfp) as He.
  intros pd doc v Hv.
  assert (Hpass : Store.passes_expr pd (expected_filter q) doc
                  = (x ← Store.eval pd doc calories_token;
                     c ← Store.compare_values x
                           (VNum (binary64 false (decimal_num ip fp)
                                    (decimal_den fp)));
                     r ← Store.test (predicate_of op) c;
                     Ok (truthy (VBool r)))).
  { unfold Store.passes_expr. rewrite He.
    rewrite eval_comparison by (by apply predicate_of_predicates).
    destruct (Store.eval pd doc calories_token) as [x|e]; [|done].
    cbn [mbind result_bind Store.eval].
    destruct (Store.compare_values _ _) as [c|e]; [|done].
    cbn [mbind result_bind]. by destruct (Store.test _ _). }
  rewrite Hpass, eval_calories_token_steps, Hv.
  rewrite <- satisfies_below by done.
  destruct v; try done; cbn [mbind result_bind].
  all: cbn [Store.split Store.arrayElemAt Store.trim_input Store.toDouble
            Store.nullish orb mbind result_bind Store.compare_values Store.rank
            Z.eqb Z.compare Pos.eqb Pos.compare Pos.compare_cont].
  all: by rewrite test_satisfies.
Qed.

Lemma calories_filter_without_string_witness :
  exists spec,
    getRecipes (request [("calories", "<=400")]%string) = Ok spec /\
    searchRecipes (request [("calories", "<=400")]%string)
    = Ok (qs_filter spec) /\
    forall parse_double doc v,
      Store.field_path [js "nutrients"; js "calories"] doc = Ok v ->
      match v with
      | VUndef | VNull =>
          Store.passes_expr parse_double (qs_filter spec) doc
          = Ok (bool_decide (js "<=" = js "<" \/ js "<=" = js "<="))
      | VStr _ => True
      | _ =>
          Store.passes_expr parse_double (qs_filter spec) doc
          = Throw InvalidArgument
      end.
Proof.
  apply (calories_filter_without_string (request [("calories", "<=400")]%string)
           (js "<=") [] (js "400") None).
  - apply strings_request.
  - reflexivity.
  - right. unfold operators. rewrite !elem_of_cons. auto.
  - constructor.
  - split; [discriminate|]. by repeat constructor.
  - exact I.
Defined.

Example calories_filter_without_string_examples :
  exists spec,
    getRecipes (request [("calories", "<=400")]%string) = Ok spec /\
    Store.passes_expr decimal_double (qs_filter spec)
      (VObj [(js "title", VStr (js "Pie"))]) = Ok true /\
    Store.passes_expr decimal_double (qs_filter spec)
      (VObj [(js "nutrients", VObj [(js "calories", VNum (num 389))])])
    = Throw InvalidArgument.
Proof.
  eexists. split; [vm_compute; reflexivity|].
  split; vm_compute; reflexivity.
Qed.
